(** * mihifepe simulation: a shallow embedding and its properties

    The development follows the two Python sources of the simulation package:

    - [model.py]: the class [Model] whose [predict] perturbs the ground-truth
      polynomial with per-instance noise;
    - [simulation.py]: the draw of the relevant features, synthesis of the
      relevance map and of the data, construction and annotation of the
      feature hierarchy, the targets and the rows written to the hierarchy
      file, ground-truth p-values and the evaluation of a discovery tree.

    Number model.  Where the rounding, overflow or underflow of a float64
    operation shows in a result, the operation is the IEEE 754 binary64 one
    of the Standard Library's [SpecFloat]: the product that
    [get_relevant_features] rounds to a count, and, in [model.py], the
    arithmetic of [predict], which is written over a number system with two
    instances, exact reals and binary64.  The coefficients, probabilities
    and p-values of [simulation.py] are rationals ([Q]); the statements
    about them are bounds, comparisons and formulas, stated with the ranges
    in which float64 neither overflows nor underflows.

    External libraries (NumPy's random generators, pyhashxx, SciPy's
    clustering, scikit-learn's scorer, the lambdified model function) are
    not part of the package; their operations are fields of interface
    records and every statement quantifies over them. *)

From Stdlib Require Import String List ZArith QArith Qminmax Qabs Qpower Reals Lra Lia Psatz.
From Stdlib Require Import DecimalString DecimalNat Qround SpecFloat.
From Equations Require Import Equations.
From stdpp Require Import gmap strings list sorting.


(** ** Exceptions and fallible results *)

Inductive exn : Type :=
| NotImplementedError (msg : string)
| IndexError
| KeyError
| ValueError
| TypeError
| OverflowError
| AttributeError
| AssertionError.

Inductive result (A : Type) : Type :=
| Ok (a : A)
| Raise (e : exn).
Arguments Ok {A} a.
Arguments Raise {A} e.

#[export] Instance result_ret : MRet result := fun A a => Ok a.
#[export] Instance result_bind : MBind result := fun A B f m =>
  match m with
  | Ok a => f a
  | Raise e => Raise e
  end.
#[export] Instance result_fmap : FMap result := fun A B f m =>
  match m with
  | Ok a => Ok (f a)
  | Raise e => Raise e
  end.

Definition is_Ok {A} (m : result A) : Prop := exists a, m = Ok a.

(** ** IEEE 754 binary64 *)

(** A Python [float] or NumPy [float64]: a zero, an infinity, NaN, or a
    sign, a mantissa of at most 53 bits and an exponent.  The operations
    round to nearest, ties to even. *)
Module float64.

Definition prec : Z := 53.
Definition emax : Z := 1024.

(** The float nearest to an integer; infinite past the largest float. *)
Definition of_int (z : Z) : spec_float := binary_normalize prec emax z 0 false.

Definition mul : spec_float -> spec_float -> spec_float := SFmul prec emax.
Definition sub : spec_float -> spec_float -> spec_float := SFsub prec emax.
Definition div : spec_float -> spec_float -> spec_float := SFdiv prec emax.
Definition sqrt : spec_float -> spec_float := SFsqrt prec emax.


(** [np.signbit(x)] for a number that is not NaN. *)
Definition signbit (x : spec_float) : bool :=
  match x with
  | S754_zero s | S754_infinity s | S754_finite s _ _ => s
  | S754_nan => false
  end.


(** The exact value of a finite float. *)
Definition to_Q (x : spec_float) : Q :=
  match x with
  | S754_finite s m e => inject_Z (if s then Zneg m else Zpos m) * 2 ^ e
  | _ => 0
  end.

End float64.

(** ** The [constants] module *)

Module constants.

(** Modelled from the spec: the module [mihifepe/constants.py] is not among
    the sources.  The three noise types carry the names the spec gives them;
    only their being pairwise distinct matters below. *)
Definition NO_NOISE : string := "no-noise"%string.
Definition EPSILON_IRRELEVANT : string := "epsilon-irrelevant"%string.
Definition ADDITIVE_GAUSSIAN : string := "additive-gaussian"%string.

(** Modelled from the spec: the hierarchy types of [constants.py]. *)
Definition CLUSTER_FROM_DATA : string := "cluster-from-data"%string.
Definition RANDOM : string := "random"%string.

End constants.

(** ** [model.py] *)

Module model.

(** The numbers of [predict] and the operations it applies to them: the
    conversion of the integer literals, the product with the noise
    multiplier, the difference of prediction and target, [np.power],
    [np.sqrt], and the sign test NumPy makes on the scale of a normal
    draw. *)
Record Arith : Type := {
  float : Type;
  of_int : Z -> float;
  mul : float -> float -> float;
  sub : float -> float -> float;
  power : float -> nat -> float;
  sqrt : float -> float;
  signbit : float -> bool
}.

(** Exact arithmetic: the reals. *)
Definition exact : Arith := {|
  float := R;
  of_int := IZR;
  mul := Rmult;
  sub := Rminus;
  power := pow;
  sqrt := R_sqrt.sqrt;
  signbit := fun x => if Rlt_dec x 0 then true else false
|}.


(** The noise argument handed to the lambdified model function: a column of
    per-feature coefficients (epsilon-irrelevant) or one scalar (additive
    Gaussian). *)
Inductive noise_arg (A : Arith) : Type :=
| NoiseColumn (coefficients : list (float A))
| NoiseScalar (value : float A).
Arguments NoiseColumn {A} coefficients.
Arguments NoiseScalar {A} value.

(** What [predict] uses of NumPy and pyhashxx. *)
Record Libs (A : Arith) : Type := {
  ndarray : Type;
  (** [static_data.data.tobytes()] *)
  tobytes : ndarray -> list Byte.byte;
  (** [static_data.size] *)
  size : ndarray -> nat;
  (** [pyhashxx.hashxx] *)
  hashxx : list Byte.byte -> Z;
  RandomState : Type;
  (** [np.random.RandomState(seed)] *)
  new_RandomState : Z -> RandomState;
  (** [prg.uniform(low, high, (n, 1))], the first draw of a generator *)
  uniform : RandomState -> float A -> float A -> nat -> list (float A);
  (** the sample of [prg.normal(loc, scale)], the first draw of a generator *)
  normal : RandomState -> float A -> float A -> float A
}.
Arguments ndarray {A} _.
Arguments tobytes {A} _ _.
Arguments size {A} _ _.
Arguments hashxx {A} _ _.
Arguments RandomState {A} _.
Arguments new_RandomState {A} _ _.
Arguments uniform {A} _ _ _ _ _.
Arguments normal {A} _ _ _ _.

Record Model {A : Arith} (L : Libs A) : Type := {
  (** returns the array the lambdified expression evaluates to *)
  model_fn : ndarray L -> noise_arg A -> list (float A);
  noise_multiplier : float A;
  noise_type : string
}.
Arguments model_fn {A L} _ _ _.
Arguments noise_multiplier {A L} _.
Arguments noise_type {A L} _.

(** [a[0]] *)
Definition getitem0 {X : Type} (a : list X) : result X :=
  match a with
  | x :: _ => Ok x
  | [] => Raise IndexError
  end.

(** [hashval = hashxx(static_data.data.tobytes())] *)
Definition hashval {A} {L : Libs A} (static_data : ndarray L) : Z :=
  hashxx L (tobytes L static_data).

(** [prg.normal(loc, scale)]: NumPy raises [ValueError] for a scale whose
    sign bit is set, and samples otherwise. *)
Definition checked_normal {A} {L : Libs A} (prg : RandomState L)
  (loc scale : float A) : result (float A) :=
  if signbit A scale then Raise ValueError else Ok (normal L prg loc scale).

(** The branch on the noise type: the noisy prediction, or the error. *)
Definition noisy_prediction {A} {L : Libs A} (self : Model L)
  (static_data : ndarray L) : result (float A) :=
  let prg := new_RandomState L (hashval static_data) in
  if String.eqb (noise_type self) constants.EPSILON_IRRELEVANT then
    let noise :=
      map (mul A (noise_multiplier self))
          (uniform L prg (of_int A (-1)) (of_int A 1) (size L static_data)) in
    getitem0 (model_fn self static_data (NoiseColumn noise))
  else if String.eqb (noise_type self) constants.ADDITIVE_GAUSSIAN then
    value ← checked_normal prg (of_int A 0) (noise_multiplier self);
    getitem0 (model_fn self static_data (NoiseScalar value))
  else Raise (NotImplementedError "Unknown noise type"%string).

(** [Model.predict]: the pair [(loss, prediction)]. *)
Definition predict {A} {L : Libs A} {T : Type} (self : Model L)
  (target : float A) (static_data : ndarray L) (temporal_data : T)
  : result (float A * float A) :=
  prediction ← noisy_prediction self static_data;
  let loss := sqrt A (power A (sub A prediction target) 2) in
  Ok (loss, prediction).

(** The noise [predict] draws for a static vector, as it reaches the model
    function: the seed is [hashval], the generator is made from it, and one
    draw is taken. *)
Definition noise_draw {A} {L : Libs A} (self : Model L) (static_data : ndarray L)
  : result (noise_arg A) :=
  let prg := new_RandomState L (hashval static_data) in
  if String.eqb (noise_type self) constants.EPSILON_IRRELEVANT then
    Ok (NoiseColumn
          (map (mul A (noise_multiplier self))
             (uniform L prg (of_int A (-1)) (of_int A 1) (size L static_data))))
  else if String.eqb (noise_type self) constants.ADDITIVE_GAUSSIAN then
    NoiseScalar <$> checked_normal prg (of_int A 0) (noise_multiplier self)
  else Raise (NotImplementedError "Unknown noise type"%string).

(** What is assumed of [prg.uniform(low, high, (n, 1))]: [n] numbers, each
    in the half-open interval from [low] to [high]. *)
Definition uniform_law (L : Libs exact) : Prop :=
  forall (prg : RandomState L) (low high : R) (n : nat),
    (low < high)%R ->
    length (uniform L prg low high n) = n
    /\ Forall (fun v => (low <= v < high)%R) (uniform L prg low high n).

(** A deterministic instance of the libraries, to run [predict] on concrete
    inputs: arrays are lists of integers, the hash is the number of bytes,
    and every draw returns its lower bound or its mean. *)
Definition example_libs (A : Arith) : Libs A := {|
  ndarray := list Z;
  tobytes := fun a => repeat Byte.x00 (8 * length a);
  size := fun a => length a;
  hashxx := fun bytes => Z.of_nat (length bytes);
  RandomState := Z;
  new_RandomState := fun seed => seed;
  uniform := fun _ low _ n => repeat low n;
  normal := fun _ loc _ => loc
|}.

(** A model over [example_libs] whose function returns the constant 1. *)
Definition example_model (A : Arith) (type : string) : Model (example_libs A) :=
  {| model_fn := fun _ _ => [of_int A 1];
     noise_multiplier := of_int A 0;
     noise_type := type |}.

End model.

(** ** [simulation.py] *)

Module simulation.

(** *** Strings of integers *)

(** [str(n)] and ["%d" % n] for a non-negative integer. *)
Definition str (n : nat) : string := NilZero.string_of_uint (Nat.to_uint n).

(** [int(s)] on the strings the package writes itself: a non-empty run of
    decimal digits.  Any other string raises [ValueError] here (Python also
    accepts a sign, surrounding blanks and underscores, which the package
    never writes). *)
Definition int (s : string) : result nat :=
  match NilZero.uint_of_string s with
  | Some d => Ok (Nat.of_uint d)
  | None => Raise ValueError
  end.

(** [s.split(sep)] for a non-empty separator.  [skip] counts the characters
    of a separator occurrence that are still to be passed over. *)
Fixpoint split_aux (sep : string) (skip : nat) (s : string) : list string :=
  match s with
  | EmptyString => [EmptyString]
  | String c s' =>
      match skip with
      | S k => split_aux sep k s'
      | O =>
          if String.prefix sep s then
            EmptyString :: split_aux sep (String.length sep - 1) s'
          else
            match split_aux sep 0 s' with
            | field :: fields => String c field :: fields
            | [] => [String c EmptyString]
            end
      end
  end.

Definition split (s sep : string) : list string := split_aux sep 0 s.

(** *** Numbers *)

#[export] Instance Q_inhabited : Inhabited Q := populate 0%Q.

(** Truth value of a float: [if coeff:] holds for a non-zero number. *)
Definition truthy (q : Q) : bool := negb (Qeq_bool q 0).

(** Truth value of [d.get(key)]: the key is present with a non-zero value. *)
Definition truthy_get (o : option Q) : bool :=
  match o with
  | Some q => truthy q
  | None => false
  end.

(** *** anytree nodes *)

(** The node descriptions.  In the source they are strings: the two
    constants and two formatted texts, which are only ever compared with
    [constants.IRRELEVANT]. *)
Inductive descr : Type :=
| IRRELEVANT
  (** [constants.IRRELEVANT] *)
| RELEVANT
  (** [constants.RELEVANT] *)
| RELEVANT_feature (coeff prob : Q)
  (** ["%s feature:\nPolynomial coefficient: %f\nBinomial probability: %f"] *)
| RELEVANT_interaction_only.
  (** ["%s feature\n(Interaction-only)"] *)

Definition is_IRRELEVANT (d : descr) : bool :=
  match d with
  | IRRELEVANT => true
  | _ => false
  end.

(** The attributes a node of this package may carry.  All but [name] are
    attached after construction (or read from a JSON file), so each is
    optional and reading a missing one raises [AttributeError]. *)
Record attrs : Type := {
  name : string;
  static_indices : option string;
  description : option descr;
  poly_coeff : option Q;
  bin_prob : option Q;
  pvalue : option Q;
  idx : option nat;
  min_child_idx : option nat;
  max_child_idx : option nat;
  num_base_features : option nat;
  rejected : option bool
}.

#[warnings="-register-all"]
Inductive Node : Type :=
| mkNode (a : attrs) (children : list Node).

Definition attrs_of (n : Node) : attrs := let 'mkNode a _ := n in a.
Definition children (n : Node) : list Node := let 'mkNode _ cs := n in cs.

(** [node.is_leaf] *)
Definition is_leaf (n : Node) : bool :=
  match children n with
  | [] => true
  | _ :: _ => false
  end.

(** [getattr]: reading an attribute that may be missing. *)
Definition getattr {A} (field : attrs -> option A) (n : Node) : result A :=
  match field (attrs_of n) with
  | Some v => Ok v
  | None => Raise AttributeError
  end.

(** [anytree.Node(name)] and [anytree.Node(name, static_indices=s)] *)
Definition new_attrs (nm : string) (si : option string) : attrs :=
  {| name := nm; static_indices := si; description := None;
     poly_coeff := None; bin_prob := None; pvalue := None; idx := None;
     min_child_idx := None; max_child_idx := None;
     num_base_features := None; rejected := None |}.

Definition set_description (d : descr) (a : attrs) : attrs :=
  {| name := name a; static_indices := static_indices a;
     description := Some d;
     poly_coeff := poly_coeff a; bin_prob := bin_prob a; pvalue := pvalue a;
     idx := idx a; min_child_idx := min_child_idx a;
     max_child_idx := max_child_idx a;
     num_base_features := num_base_features a; rejected := rejected a |}.

Definition set_leaf_relevance (d : descr) (coeff prob : Q) (a : attrs) : attrs :=
  {| name := name a; static_indices := static_indices a;
     description := Some d;
     poly_coeff := Some coeff; bin_prob := Some prob; pvalue := pvalue a;
     idx := idx a; min_child_idx := min_child_idx a;
     max_child_idx := max_child_idx a;
     num_base_features := num_base_features a; rejected := rejected a |}.

Definition set_pvalue (p : Q) (a : attrs) : attrs :=
  {| name := name a; static_indices := static_indices a;
     description := description a;
     poly_coeff := poly_coeff a; bin_prob := bin_prob a; pvalue := Some p;
     idx := idx a; min_child_idx := min_child_idx a;
     max_child_idx := max_child_idx a;
     num_base_features := num_base_features a; rejected := rejected a |}.

Definition set_contiguous (i lo hi size : nat) (nm : string) (a : attrs) : attrs :=
  {| name := nm; static_indices := static_indices a;
     description := description a;
     poly_coeff := poly_coeff a; bin_prob := bin_prob a; pvalue := pvalue a;
     idx := Some i; min_child_idx := Some lo; max_child_idx := Some hi;
     num_base_features := Some size; rejected := rejected a |}.

(** [anytree.PostOrderIter] and [anytree.PreOrderIter] *)
Fixpoint PostOrderIter (n : Node) : list Node :=
  match n with
  | mkNode _ cs => flat_map PostOrderIter cs ++ [n]
  end.

Fixpoint PreOrderIter (n : Node) : list Node :=
  match n with
  | mkNode _ cs => n :: flat_map PreOrderIter cs
  end.

(** The leaves below (or at) a node, left to right. *)
Fixpoint leaves (n : Node) : list Node :=
  match n with
  | mkNode _ [] => [n]
  | mkNode _ cs => flat_map leaves cs
  end.

(** [node.descendants]: every node strictly below. *)
Definition descendants (n : Node) : list Node :=
  flat_map PreOrderIter (children n).

(** Running a fallible function over a list, left to right. *)
Definition mapM_result {A B} (f : A -> result B) : list A -> result (list B) :=
  fix go (l : list A) : result (list B) :=
    match l with
    | [] => Ok []
    | x :: l' =>
        match f x with
        | Ok y =>
            match go l' with
            | Ok ys => Ok (y :: ys)
            | Raise e => Raise e
            end
        | Raise e => Raise e
        end
    end.

(** The same with a state threaded through the calls. *)
Definition mapM_state {A B S} (f : A -> S -> result (B * S))
  : list A -> S -> result (list B * S) :=
  fix go (l : list A) (s : S) : result (list B * S) :=
    match l with
    | [] => Ok ([], s)
    | x :: l' =>
        match f x s with
        | Ok (y, s1) =>
            match go l' s1 with
            | Ok (ys, s2) => Ok (y :: ys, s2)
            | Raise e => Raise e
            end
        | Raise e => Raise e
        end
    end.

(** A list comprehension with a fallible condition. *)
Definition filterM_result {A} (f : A -> result bool) : list A -> result (list A) :=
  fix go (l : list A) : result (list A) :=
    match l with
    | [] => Ok []
    | x :: l' =>
        match f x with
        | Ok b =>
            match go l' with
            | Ok ys => Ok (if b then x :: ys else ys)
            | Raise e => Raise e
            end
        | Raise e => Raise e
        end
    end.

(** [a[i]] on a list or array. *)
Definition getitem {A} (a : list A) (i : nat) : result A :=
  match a !! i with
  | Some v => Ok v
  | None => Raise IndexError
  end.

(** [min(l)] and [max(l)] on a list; Python raises [ValueError] on an empty
    one. *)
Definition min_nat (l : list nat) : result nat :=
  match l with
  | [] => Raise ValueError
  | x :: l' => Ok (foldl Nat.min x l')
  end.

Definition max_nat (l : list nat) : result nat :=
  match l with
  | [] => Raise ValueError
  | x :: l' => Ok (foldl Nat.max x l')
  end.

Definition min_Q (l : list Q) : result Q :=
  match l with
  | [] => Raise ValueError
  | x :: l' => Ok (foldl Qmin x l')
  end.

(** [sorted(s)] for a set of integers. *)
Definition sorted (s : gset nat) : list nat := merge_sort Nat.le (elements s).

(** [itertools.combinations(l, 2)] *)
Fixpoint combinations2 {A} (l : list A) : list (A * A) :=
  match l with
  | [] => []
  | a :: l' => map (pair a) l' ++ combinations2 l'
  end.

(** *** External libraries *)

(** What [simulation.py] uses of NumPy's [RandomState] (the generator
    [args.rng], whose state is threaded explicitly), of SciPy and of
    scikit-learn. *)
Record Libs : Type := {
  rng : Type;
  (** [rng.shuffle(l)] *)
  shuffle : forall A : Type, rng -> list A -> list A * rng;
  (** [rng.choice(l, size, replace=False)] *)
  choice : forall A : Type, rng -> list A -> nat -> list A * rng;
  (** [rng.uniform()] *)
  uniform : rng -> Q * rng;
  (** [rng.uniform(size=n)] *)
  uniform_size : rng -> nat -> list Q * rng;
  (** the clustering data, and the first two columns of the rows of
      [scipy.cluster.hierarchy.linkage(data.transpose(), ...)], which
      raises on data it cannot cluster (fewer than two features) *)
  matrix : Type;
  linkage : matrix -> result (list (nat * nat));
  (** precision and recall of
      [precision_recall_fscore_support(y_true, y_pred, average="binary")] *)
  precision_recall_fscore_support : list nat -> list nat -> Q * Q
}.
Arguments shuffle _ {A} _ _.
Arguments choice _ {A} _ _ _.

(** What the statements below assume of the generator: a shuffle permutes,
    a choice draws from the population, and [uniform(size=n)] returns [n]
    numbers. *)
Record LibsLaws (L : Libs) : Prop := {
  shuffle_Permutation :
    forall (A : Type) (g : rng L) (l : list A), Permutation (fst (shuffle L g l)) l;
  choice_subset :
    forall (A : Type) (g : rng L) (l : list A) (k : nat) (v : A),
      In v (fst (choice L g l k)) -> In v l;
  uniform_size_length :
    forall (g : rng L) (n : nat), length (fst (uniform_size L g n)) = n
}.

(** The command-line arguments the modelled functions read. *)
Record Args : Type := {
  num_features : nat;
  noise_type : string;
  hierarchy_type : string;
  num_interactions : nat;
  include_interaction_only_features : bool;
  contiguous_node_names : bool;
  analyze_interactions : bool
}.

(** *** The ground-truth polynomial *)

(** The sympy symbols: [x<i>] for the features, [noise<i>] and [noise]. *)
Inductive symbol : Type :=
| x (i : nat)
| noise_i (i : nat)
| noise.

(** A sympy expression as the sum of its terms, each a coefficient times a
    product of symbols. *)
Definition expr : Type := list (Q * list symbol).

(** [sym_noise]: a list of symbols, or the one symbol ["noise"]. *)
Inductive sym_noise_t : Type :=
| NoiseSymbols (l : list symbol)
| NoiseSymbol (s : symbol).

(** [sympy.symbols(["x%d" % x for x in range(args.num_features)])] *)
Definition sym_features_of (args : Args) : list symbol :=
  map x (seq 0 (num_features args)).

(** The relevance map: feature subsets (frozensets) to coefficients. *)
Abbreviation relevance_map := (gmap (gset nat) Q).

(** The body of the loop of [update_interaction_terms]. *)
Fixpoint interaction_loop (L : Libs) (sym_features : list symbol)
  (interaction_pairs : list (nat * nat))
  (relevant_feature_map : relevance_map) (sym_polynomial_fn : expr) (g : rng L)
  : result (relevance_map * expr * rng L) :=
  match interaction_pairs with
  | [] => Ok (relevant_feature_map, sym_polynomial_fn, g)
  | (a, b) :: rest =>
      let '(coefficient, g1) := uniform L g in
      let relevant_feature_map := <[ ({[a; b]} : gset nat) := coefficient ]> relevant_feature_map in
      xa ← getitem sym_features a;
      xb ← getitem sym_features b;
      interaction_loop L sym_features rest relevant_feature_map
        (sym_polynomial_fn ++ [(coefficient, [xa; xb])]) g1
  end.

(** The number of pairs of [n] features, [n * (n - 1) / 2]. *)
Definition num_pairs (n : nat) : nat := n * (n - 1) / 2.

(** [update_interaction_terms].  The second argument of [min] is a float,
    the quotient of a true division, and [min] returns it when it is the
    smaller one: when more interactions are asked for than there are pairs.
    A zero then ends the function as the integer 0 does; any other float
    is no size, and [rng.choice] raises [TypeError]. *)
Definition update_interaction_terms (L : Libs) (args : Args)
  (relevant_features : gset nat) (relevant_feature_map : relevance_map)
  (sym_features : list symbol) (sym_polynomial_fn : expr) (g : rng L)
  : result (relevance_map * expr * rng L) :=
  let num_relevant_features := size relevant_features in
  if num_pairs num_relevant_features <? num_interactions args then
    if Nat.eqb (num_pairs num_relevant_features) 0 then
      Ok (relevant_feature_map, sym_polynomial_fn, g)
    else Raise TypeError
  else
    let num_interactions := num_interactions args in
    if Nat.eqb num_interactions 0 then
      Ok (relevant_feature_map, sym_polynomial_fn, g)
    else
      let potential_pairs := combinations2 (sorted relevant_features) in
      let '(interaction_pairs, g1) := choice L g potential_pairs num_interactions in
      interaction_loop L sym_features interaction_pairs
        relevant_feature_map sym_polynomial_fn g1.

(** The union of the keys of the relevance map. *)
Definition features_of_keys (relevant_feature_map : relevance_map) : gset nat :=
  union_list (elements (dom relevant_feature_map)).

(** The local [interaction_only_features] of [update_linear_terms], with the
    generator after the draw. *)
Definition interaction_only_features (L : Libs) (args : Args)
  (relevant_feature_map : relevance_map) (g : rng L) : list nat * rng L :=
  let interaction_features := features_of_keys relevant_feature_map in
  if negb (bool_decide (interaction_features = ∅))
     && include_interaction_only_features args
  then choice L g (sorted interaction_features) (size interaction_features / 2)
  else ([], g).

(** [coefficients[linear_features] = values]: NumPy checks every index
    before it writes. *)
Definition assign_at (coefficients : list Q) (indices : list nat) (values : list Q)
  : result (list Q) :=
  if forallb (fun i => i <? length coefficients) indices then
    Ok (foldl (fun cs iv => <[ fst iv := snd iv ]> cs) coefficients (zip indices values))
  else Raise IndexError.

(** [update_linear_terms] *)
Definition update_linear_terms (L : Libs) (args : Args)
  (relevant_features : gset nat) (relevant_feature_map : relevance_map)
  (sym_features : list symbol) (sym_polynomial_fn : expr) (g : rng L)
  : result (relevance_map * expr * rng L) :=
  let '(interaction_only, g1) :=
    interaction_only_features L args relevant_feature_map g in
  let linear_features :=
    sorted (relevant_features ∖ list_to_set interaction_only) in
  let '(values, g2) := uniform_size L g1 (length linear_features) in
  coefficients ← assign_at (replicate (num_features args) 0%Q) linear_features values;
  let relevant_feature_map :=
    foldl (fun m linear_feature =>
             <[ ({[linear_feature]} : gset nat) := coefficients !!! linear_feature ]> m)
          relevant_feature_map linear_features in
  Ok (relevant_feature_map,
      sym_polynomial_fn ++ zip_with (fun c s => (c, [s])) coefficients sym_features,
      g2).

(** [gen_polynomial]: [(sym_vars, relevant_feature_map, polynomial_fn)] and
    the generator.  The lambdified [polynomial_fn] is kept as the expression
    it evaluates. *)
Definition gen_polynomial (L : Libs) (args : Args) (relevant_features : gset nat)
  (g : rng L)
  : result ((list symbol * sym_noise_t * expr) * relevance_map * expr * rng L) :=
  let sym_features := sym_features_of args in
  '(relevant_feature_map, sym_polynomial_fn, g1) ←
    update_interaction_terms L args relevant_features ∅ sym_features [] g;
  '(relevant_feature_map, sym_polynomial_fn, g2) ←
    update_linear_terms L args relevant_features relevant_feature_map
      sym_features sym_polynomial_fn g1;
  let polynomial_fn := sym_polynomial_fn in
  '(sym_noise, sym_model_fn) ←
    (if String.eqb (noise_type args) constants.NO_NOISE then
       Ok (NoiseSymbols [], sym_polynomial_fn)
     else if String.eqb (noise_type args) constants.EPSILON_IRRELEVANT then
       let sym_noise := map noise_i (seq 0 (num_features args)) in
       let irrelevant_features :=
         map (fun i => if bool_decide (i ∈ relevant_features) then 0%Q else 1%Q)
             (seq 0 (num_features args)) in
       Ok (NoiseSymbols sym_noise,
           sym_polynomial_fn ++
             zip_with (fun ns xi => (fst ns, [snd ns; xi]))
               (zip irrelevant_features sym_noise) sym_features)
     else if String.eqb (noise_type args) constants.ADDITIVE_GAUSSIAN then
       Ok (NoiseSymbol noise, sym_polynomial_fn ++ [(1%Q, [noise])])
     else Raise (NotImplementedError "Unknown noise type"%string));
  Ok ((sym_features, sym_noise, sym_model_fn), relevant_feature_map, polynomial_fn, g2).

(** *** Hierarchies *)

(** One round of the loop of [gen_random_hierarchy]: consecutive nodes are
    put under fresh parents, named by the running [node_count]. *)
Fixpoint pair_up (node_count : nat) (nodes : list Node) : list Node * nat :=
  match nodes with
  | [] => ([], node_count)
  | [left_node] =>
      ([mkNode (new_attrs (str node_count) None) [left_node]], S node_count)
  | left_node :: right_node :: rest =>
      let '(parents, node_count') := pair_up (S node_count) rest in
      (mkNode (new_attrs (str node_count) None) [left_node; right_node] :: parents,
       node_count')
  end.

(** [while len(nodes) > 1: ...] *)
Equations? pair_rounds (node_count : nat) (nodes : list Node) : list Node
  by wf (length nodes) lt :=
  pair_rounds node_count nodes with lt_dec 1 (length nodes) := {
    | left more =>
        pair_rounds (snd (pair_up node_count nodes)) (fst (pair_up node_count nodes))
    | right _ => nodes
  }.
Proof.
  assert (halves : forall (l : list Node) (c : nat),
             2 * length (fst (pair_up c l)) <= S (length l)).
  { fix rec 1. intros [|a [|b l]] c; simpl; try lia.
    specialize (rec l (S c)). destruct (pair_up (S c) l). simpl in *. lia. }
  specialize (halves nodes node_count). lia.
Qed.

(** The feature leaves both builders start from:
    [[anytree.Node(str(idx), static_indices=str(idx)) for idx in range(n)]] *)
Definition feature_leaves (n : nat) : list Node :=
  map (fun idx => mkNode (new_attrs (str idx) (Some (str idx))) []) (seq 0 n).

(** [gen_random_hierarchy] *)
Definition gen_random_hierarchy (L : Libs) (args : Args) (g : rng L)
  : result (Node * rng L) :=
  let nodes := feature_leaves (num_features args) in
  let '(nodes, g1) := shuffle L g nodes in
  let node_count := length nodes in
  let nodes := pair_rounds node_count nodes in
  hierarchy_root ← getitem nodes 0;
  Ok (hierarchy_root, g1).

(** [True] when a later row of the linkage matrix names cluster [i]. *)
Definition named_later (i : nat) (clusters : list (nat * nat)) : bool :=
  existsb (fun row => Nat.eqb (fst row) i || Nat.eqb (snd row) i) clusters.

(** The loop of [gen_hierarchy_from_clusters].  [nodes] holds, for every node
    made so far, the subtree it ends up with.  Setting [node.parent] moves a
    node: it leaves the children of its former parent.  A fresh cluster node
    only receives children in its own iteration, so the children it keeps are
    those of its row that no later row names again; a row naming one cluster
    twice attaches it once. *)
Fixpoint clusters_loop (num_features : nat) (idx : nat) (nodes : list Node)
  (clusters : list (nat * nat)) : result (list Node) :=
  match clusters with
  | [] => Ok nodes
  | (left_idx, right_idx) :: rest =>
      let cluster_idx := idx + num_features in
      left_node ← getitem nodes left_idx;
      right_node ← getitem nodes right_idx;
      let kept :=
        (if named_later left_idx rest then [] else [left_node]) ++
        (if Nat.eqb right_idx left_idx || named_later right_idx rest
         then [] else [right_node]) in
      let cluster_node := mkNode (new_attrs (str cluster_idx) None) kept in
      clusters_loop num_features (S idx) (nodes ++ [cluster_node]) rest
  end.

(** [gen_hierarchy_from_clusters]; [nodes[-1]] raises on an empty list. *)
Definition gen_hierarchy_from_clusters (args : Args) (clusters : list (nat * nat))
  : result Node :=
  let nodes := feature_leaves (num_features args) in
  nodes ← clusters_loop (num_features args) 0 nodes clusters;
  match last nodes with
  | Some hierarchy_root => Ok hierarchy_root
  | None => Raise IndexError
  end.

(** [cluster_data] *)
Definition cluster_data (L : Libs) (data : matrix L) : result (list (nat * nat)) :=
  linkage L data.

(** The state of the loop over [enumerate(anytree.PostOrderIter(root))] in
    [gen_hierarchy]: the next index and the feature-id map. *)
Definition contiguous_state : Type := nat * gmap nat nat.

(** The loop body at one node, its children done. *)
Definition contiguous_visit (a : attrs) (children' : list Node)
  (st : contiguous_state) : result (Node * contiguous_state) :=
  let '(idx, feature_id_map) := st in
  match children' with
  | [] =>
      let node := mkNode (set_contiguous idx idx idx 1 (str idx) a) [] in
      static ← getattr static_indices node;
      original ← int static;
      Ok (node, (S idx, <[ idx := original ]> feature_id_map))
  | _ :: _ =>
      mins ← mapM_result (getattr min_child_idx) children';
      lo ← min_nat mins;
      idxs ← mapM_result (getattr simulation.idx) children';
      hi ← max_nat idxs;
      sizes ← mapM_result (getattr num_base_features) children';
      let size := foldr Nat.add 0 sizes in
      let name :=
        String.concat ""
          ["["; str lo; "-"; str hi; "] (size: "; str size; ")"]%string in
      Ok (mkNode (set_contiguous idx lo hi size name a) children',
          (S idx, feature_id_map))
  end.

(** The whole loop, in post-order: the children from left to right, then the
    node. *)
Fixpoint contiguous (node : Node) (st : contiguous_state)
  : result (Node * contiguous_state) :=
  match node with
  | mkNode a cs =>
      match mapM_state contiguous cs st with
      | Ok (cs', st') => contiguous_visit a cs' st'
      | Raise e => Raise e
      end
  end.

(** The branch of [gen_hierarchy] on the hierarchy type: the root and the
    generator. *)
Definition build_hierarchy (L : Libs) (args : Args) (clustering_data : matrix L)
  (g : rng L) : result (Node * rng L) :=
  if String.eqb (hierarchy_type args) constants.CLUSTER_FROM_DATA then
    clusters ← cluster_data L clustering_data;
    hierarchy_root ← gen_hierarchy_from_clusters args clusters;
    Ok (hierarchy_root, g)
  else if String.eqb (hierarchy_type args) constants.RANDOM then
    gen_random_hierarchy L args g
  else Raise (NotImplementedError "Need valid hierarchy type"%string).

(** [gen_hierarchy]: the root, the feature-id map and the generator. *)
Definition gen_hierarchy (L : Libs) (args : Args) (clustering_data : matrix L)
  (g : rng L) : result (Node * gmap nat nat * rng L) :=
  '(hierarchy_root, g1) ← build_hierarchy L args clustering_data g;
  if contiguous_node_names args then
    '(hierarchy_root', st) ← contiguous hierarchy_root (0, ∅);
    Ok (hierarchy_root', snd st, g1)
  else Ok (hierarchy_root, ∅, g1).

(** *** Relevance annotation *)

(** The loop body of [update_hierarchy_relevance] at a leaf. *)
Definition annotate_leaf (relevant_feature_map : relevance_map)
  (relevant_features : gset nat) (probs : list Q) (a : attrs) : result Node :=
  static ← getattr static_indices (mkNode a []);
  idx ← int static;
  prob ← getitem probs idx;
  match relevant_feature_map !! ({[idx]} : gset nat) with
  | Some coeff =>
      if truthy coeff then
        Ok (mkNode (set_leaf_relevance (RELEVANT_feature coeff prob) coeff prob a) [])
      else if bool_decide (idx ∈ relevant_features) then
        Ok (mkNode (set_leaf_relevance RELEVANT_interaction_only 0 prob a) [])
      else Ok (mkNode (set_leaf_relevance IRRELEVANT 0 prob a) [])
  | None =>
      if bool_decide (idx ∈ relevant_features) then
        Ok (mkNode (set_leaf_relevance RELEVANT_interaction_only 0 prob a) [])
      else Ok (mkNode (set_leaf_relevance IRRELEVANT 0 prob a) [])
  end.

(** The loop body at an internal node, its children done:
    [child.description != constants.IRRELEVANT] for some child. *)
Definition annotate_internal (a : attrs) (children' : list Node) : result Node :=
  descriptions ← mapM_result (getattr description) children';
  let d := if existsb (fun c => negb (is_IRRELEVANT c)) descriptions
           then RELEVANT else IRRELEVANT in
  Ok (mkNode (set_description d a) children').

(** The loop over [anytree.PostOrderIter(hierarchy_root)]. *)
Fixpoint annotate (relevant_feature_map : relevance_map)
  (relevant_features : gset nat) (probs : list Q) (node : Node) : result Node :=
  match node with
  | mkNode a [] => annotate_leaf relevant_feature_map relevant_features probs a
  | mkNode a cs =>
      match mapM_result (annotate relevant_feature_map relevant_features probs) cs with
      | Ok cs' => annotate_internal a cs'
      | Raise e => Raise e
      end
  end.

(** [update_hierarchy_relevance]: the annotated hierarchy. *)
Definition update_hierarchy_relevance (hierarchy_root : Node)
  (relevant_feature_map : relevance_map) (probs : list Q) : result Node :=
  let relevant_features := features_of_keys relevant_feature_map in
  annotate relevant_feature_map relevant_features probs hierarchy_root.

(** *** Ground-truth p-values *)

(** The p-value of a relevant leaf.  NumPy divides by zero to infinity, so
    [min] then keeps the baseline. *)
Definition leaf_pvalue (node : Node) : result Q :=
  let pvalue := (1 # 1000)%Q in
  poly_coeff ← getattr poly_coeff node;
  if truthy poly_coeff then
    bin_prob ← getattr bin_prob node;
    let cube := ((poly_coeff * bin_prob) ^ 3)%Q in
    if Qeq_bool cube 0 then Ok pvalue
    else Ok (Qmin pvalue ((1 # 10000000000) / cube))%Q
  else Ok pvalue.

(** The loop body of [compare_with_ground_truth] at one node, its children
    done: the node with its p-value. *)
Definition pvalue_visit (a : attrs) (children' : list Node) : result Node :=
  let node := mkNode a children' in
  d ← getattr description node;
  pvalue ←
    (if negb (is_IRRELEVANT d) then
       if is_leaf node then leaf_pvalue node
       else
         pvalues ← mapM_result (getattr pvalue) children';
         lowest ← min_Q pvalues;
         Ok ((999 # 1000) * lowest)%Q
     else Ok 1%Q);
  Ok (mkNode (set_pvalue pvalue a) children').

Fixpoint assign_pvalues (node : Node) : result Node :=
  match node with
  | mkNode a cs =>
      match mapM_result assign_pvalues cs with
      | Ok cs' => pvalue_visit a cs'
      | Raise e => Raise e
      end
  end.

(** The rows written to [ground_truth_pvalues.csv], in post-order:
    name, parent name, p-value, description. *)
Fixpoint pvalue_rows (parent_name : string) (node : Node)
  : list (string * string * option Q * option descr) :=
  match node with
  | mkNode a cs =>
      flat_map (pvalue_rows (name a)) cs ++
      [(name a, parent_name, pvalue a, description a)]
  end.

(** [compare_with_ground_truth], up to the call of the external correction
    procedure: the hierarchy with its p-values and the rows written. *)
Definition compare_with_ground_truth (hierarchy_root : Node)
  : result (Node * list (string * string * option Q * option descr)) :=
  root' ← assign_pvalues hierarchy_root;
  Ok (root', pvalue_rows ""%string root').

(** *** Evaluation *)

(** The simulation results. *)
Record Results : Type := {
  FDR : Q;
  POWER : Q;
  OUTER_NODES_FDR : Q;
  OUTER_NODES_POWER : Q;
  BASE_FEATURES_FDR : Q;
  BASE_FEATURES_POWER : Q;
  INTERACTIONS_FDR : Q;
  INTERACTIONS_POWER : Q
}.

(** [node.rejected and all([not child.rejected for child in node.children])] *)
Definition is_outer (node : Node) : result bool :=
  r ← getattr rejected node;
  if (r : bool) then
    flags ← mapM_result (getattr rejected) (children node);
    Ok (forallb negb flags)
  else Ok false.

(** The nodes [get_relevant_rejected] keeps. *)
Definition selected_nodes (nodes : list Node) (outer leaves : bool)
  : result (list Node) :=
  if outer && leaves then Raise AssertionError
  else if outer then filterM_result is_outer nodes
  else if leaves then Ok (filter (fun node => is_leaf node = true) nodes)
  else Ok nodes.

(** [get_relevant_rejected], the local function of [evaluate]. *)
Definition get_relevant_rejected (nodes : list Node) (outer leaves : bool)
  : result (list nat * list nat) :=
  nodes ← selected_nodes nodes outer leaves;
  relevant ←
    mapM_result (fun node =>
                   d ← getattr description node;
                   Ok (if is_IRRELEVANT d then 0 else 1)) nodes;
  rejected ←
    mapM_result (fun node =>
                   r ← getattr rejected node;
                   Ok (if (r : bool) then 1 else 0)) nodes;
  Ok (relevant, rejected).

(** The counters of [get_precision_recall_interactions]. *)
Record tally : Type := {
  tp : nat;
  fp : nat;
  tn : nat;
  fn : nat;
  tested : gset (gset nat)
}.

(** The pair a node of the interactions tree names, in true feature ids. *)
Definition tested_pair (feature_id_map : gmap nat nat) (node : Node)
  : result (gset nat) :=
  ids ← mapM_result int (split (name (attrs_of node)) " + ");
  let pair : gset nat := list_to_set ids in
  if negb (bool_decide (feature_id_map = ∅)) then
    ids' ← mapM_result
             (fun visual_id =>
                match feature_id_map !! visual_id with
                | Some i => Ok i
                | None => Raise KeyError
                end) (elements pair);
    Ok (list_to_set ids')
  else Ok pair.

(** The loop over [tree.children]. *)
Fixpoint tally_loop (relevant_feature_map : relevance_map)
  (feature_id_map : gmap nat nat) (nodes : list Node) (t : tally) : result tally :=
  match nodes with
  | [] => Ok t
  | node :: rest =>
      pair ← tested_pair feature_id_map node;
      let tested := {[pair]} ∪ tested t in
      r ← getattr rejected node;
      let hit := truthy_get (relevant_feature_map !! pair) in
      let t :=
        if (r : bool) then
          if hit
          then {| tp := tp t + 1; fp := fp t; tn := tn t; fn := fn t; tested := tested |}
          else {| tp := tp t; fp := fp t + 1; tn := tn t; fn := fn t; tested := tested |}
        else
          if hit
          then {| tp := tp t; fp := fp t; tn := tn t; fn := fn t + 1; tested := tested |}
          else {| tp := tp t; fp := fp t; tn := tn t + 1; fn := fn t; tested := tested |} in
      tally_loop relevant_feature_map feature_id_map rest t
  end.

Definition Q_of_nat (n : nat) : Q := inject_Z (Z.of_nat n).

(** The counters before the loop. *)
Definition no_tally : tally :=
  {| tp := 0; fp := 0; tn := 0; fn := 0; tested := ∅ |}.

(** [get_precision_recall_interactions]; [tree] is what the JSON file of the
    interactions analysis holds. *)
Definition get_precision_recall_interactions (args : Args)
  (relevant_feature_map : relevance_map) (feature_id_map : gmap nat nat)
  (tree : Node) : result (Q * Q) :=
  if negb (analyze_interactions args) then Ok (0, 0)%Q
  else
    let true_interactions : gset (gset nat) :=
      filter (fun key => 1 < size key) (dom relevant_feature_map) in
    t ← tally_loop relevant_feature_map feature_id_map (children tree) no_tally;
    if negb (0 <? tp t) then Ok (0, 0)%Q
    else
      let missed := true_interactions ∖ tested t in
      let fn := fn t + size missed in
      let precision := (Q_of_nat (tp t) / Q_of_nat (tp t + fp t))%Q in
      let recall := (Q_of_nat (tp t) / Q_of_nat (tp t + fn))%Q in
      Ok (precision, recall).

(** [evaluate]; [tree] and [interactions_tree] are what the two JSON files
    hold. *)
Definition evaluate (L : Libs) (args : Args)
  (relevant_feature_map : relevance_map) (feature_id_map : gmap nat nat)
  (tree interactions_tree : Node) : result Results :=
  let nodes := PreOrderIter tree in
  '(relevant, rejected) ← get_relevant_rejected nodes false false;
  let '(precision, recall) := precision_recall_fscore_support L relevant rejected in
  '(outer_relevant, outer_rejected) ← get_relevant_rejected nodes true false;
  let '(outer_precision, outer_recall) :=
    precision_recall_fscore_support L outer_relevant outer_rejected in
  '(bf_relevant, bf_rejected) ← get_relevant_rejected nodes false true;
  let '(bf_precision, bf_recall) :=
    precision_recall_fscore_support L bf_relevant bf_rejected in
  '(interaction_precision, interaction_recall) ←
    get_precision_recall_interactions args relevant_feature_map feature_id_map
      interactions_tree;
  Ok {| FDR := 1 - precision; POWER := recall;
        OUTER_NODES_FDR := 1 - outer_precision; OUTER_NODES_POWER := outer_recall;
        BASE_FEATURES_FDR := 1 - bf_precision; BASE_FEATURES_POWER := bf_recall;
        INTERACTIONS_FDR := 1 - interaction_precision;
        INTERACTIONS_POWER := interaction_recall |}.

(** *** Relevant features, data and targets *)

(** The command-line arguments that [get_relevant_features],
    [synthesize_data] and [write_data] read besides those of [Args]: two
    integers and a float. *)
Record DataArgs : Type := {
  num_instances : Z;
  clustering_instance_count : Z;
  fraction_relevant_features : spec_float
}.

(** The integer nearest to a rational, a tie going to the even one. *)
Definition round_half_even (q : Q) : Z :=
  let below := Qfloor q in
  match (q - inject_Z below ?= 1 # 2)%Q with
  | Lt => below
  | Gt => (below + 1)%Z
  | Eq => if Z.even below then below else (below + 1)%Z
  end.

(** [round(x)] on a float: the integer nearest to its exact value, a tie
    going to the even one; NaN and the infinities have none. *)
Definition round (number : spec_float) : result Z :=
  match number with
  | S754_nan => Raise ValueError
  | S754_infinity _ => Raise OverflowError
  | _ => Ok (round_half_even (float64.to_Q number))
  end.

(** The float operand Python makes of an integer before it multiplies it
    with a float; an integer past the largest float raises. *)
Definition float_of_int (z : Z) : result spec_float :=
  match float64.of_int z with
  | S754_infinity _ => Raise OverflowError
  | operand => Ok operand
  end.

(** [get_relevant_features]: the set and the generator.  The product of
    the integer and the float is a binary64 product, and [round] is taken
    of it.  The count is at least 1, so the slice [coefficients[:count]]
    starts at the front and stops at the end of the array when the count
    exceeds its length; the shuffle is in place, so every index of
    [range(num_features)] reads an entry. *)
Definition get_relevant_features (L : Libs) (args : Args) (more : DataArgs)
  (g : rng L) : result (gset nat * rng L) :=
  features ← float_of_int (Z.of_nat (num_features args));
  rounded ← round (float64.mul features (fraction_relevant_features more));
  let num_relevant_features := Z.max 1 rounded in
  let coefficients := replicate (num_features args) 0%Q in
  let coefficients :=
    map (fun _ => 1%Q) (take (Z.to_nat num_relevant_features) coefficients)
    ++ drop (Z.to_nat num_relevant_features) coefficients in
  let '(coefficients, g1) := shuffle L g coefficients in
  Ok (list_to_set
        (List.filter (fun idx => truthy (coefficients !!! idx))
           (seq 0 (num_features args))),
      g1).

(** What [synthesize_data] uses of NumPy besides [Libs]:
    [rng.binomial(n, probs, size=(rows, len(probs)))], a matrix of draws
    given by its rows. *)
Record DataLibs (L : Libs) : Type := {
  binomial : rng L -> nat -> list Q -> nat -> list (list nat) * rng L
}.
Arguments binomial {L} _ _ _ _ _.

(** The matrix of draws has the shape asked for. *)
Record DataLibsLaws {L : Libs} (D : DataLibs L) : Prop := {
  binomial_rows :
    forall (g : rng L) (n : nat) (probs : list Q) (rows : nat),
      length (fst (binomial D g n probs rows)) = rows;
  binomial_columns :
    forall (g : rng L) (n : nat) (probs : list Q) (rows : nat) (row : list nat),
      In row (fst (binomial D g n probs rows)) -> length row = length probs
}.

(** The slice [data[:k, :]] of the rows of a matrix; a negative [k] counts
    from the end. *)
Definition rows_to {A} (k : Z) (data : list A) : list A :=
  if (0 <=? k)%Z then take (Z.to_nat k) data
  else take (length data - Z.to_nat (- k)) data.

(** [synthesize_data]: [(probs, test_data, clustering_data)] and the
    generator.  NumPy refuses a negative number of rows. *)
Definition synthesize_data (L : Libs) (D : DataLibs L) (args : Args)
  (more : DataArgs) (g : rng L)
  : result (list Q * list (list nat) * list (list nat) * rng L) :=
  let '(probs, g1) := uniform_size L g (num_features args) in
  let rows := Z.max (num_instances more) (clustering_instance_count more) in
  if (rows <? 0)%Z then Raise ValueError
  else
    let '(data, g2) := binomial D g1 1 probs (Z.to_nat rows) in
    let test_data := data in
    let clustering_data := data in
    if negb (clustering_instance_count more =? 0)%Z then
      let clustering_data := rows_to (clustering_instance_count more) data in
      if (num_instances more <? clustering_instance_count more)%Z then
        let test_data := rows_to (num_instances more) data in
        Ok (probs, test_data, clustering_data, g2)
      else Ok (probs, test_data, clustering_data, g2)
    else Ok (probs, test_data, clustering_data, g2).

(** The value of a term and of an expression when the symbols take the
    values [v]. *)
Definition eval_term (v : symbol -> Q) (term : Q * list symbol) : Q :=
  (fst term * foldr (fun s product => v s * product) 1 (snd term))%Q.

Definition eval (v : symbol -> Q) (e : expr) : Q :=
  foldr (fun term total => eval_term v term + total)%Q 0%Q e.

(** The values an instance gives the symbols of the polynomial: the
    features are x0, x1, ... in this order, so [x i] takes the entry [i]. *)
Definition feature_values (instance : list nat) (s : symbol) : Q :=
  match s with
  | x i => Q_of_nat (instance !!! i)
  | _ => 0%Q
  end.

(** The function [lambdify([sym_features], e, "numpy")] returns: it unpacks
    its argument into the features, which raises [ValueError] when the
    lengths differ, and evaluates the expression. *)
Definition lambdify (sym_features : list symbol) (e : expr) (instance : list nat)
  : result Q :=
  if length instance =? length sym_features
  then Ok (eval (feature_values instance) e)
  else Raise ValueError.

(** [gen_targets]; [polynomial_fn] is the expression [gen_polynomial]
    lambdified over the features of [args]. *)
Definition gen_targets (args : Args) (polynomial_fn : expr) (data : list (list nat))
  : result (list Q) :=
  mapM_result (lambdify (sym_features_of args) polynomial_fn) data.

(** The three datasets [write_data] creates: the record identifiers, the
    targets and the static data. *)
Definition write_data (more : DataArgs) (data : list (list nat)) (targets : list Q)
  : list string * list Q * list (list nat) :=
  let record_ids := map str (seq 0 (Z.to_nat (num_instances more))) in
  (record_ids, targets, data).

(** The rows [write_hierarchy] writes after the header, in pre-order: name,
    parent name, description, static indices (of a leaf) and the empty
    temporal indices. *)
Fixpoint hierarchy_rows (parent_name : string) (node : Node)
  : result (list (string * string * descr * string * string)) :=
  match node with
  | mkNode a cs =>
      match (if is_leaf node then getattr static_indices node else Ok ""%string) with
      | Ok static =>
          match getattr description node with
          | Ok d =>
              match mapM_result (hierarchy_rows (name a)) cs with
              | Ok below =>
                  Ok ((name a, parent_name, d, static, ""%string) :: concat below)
              | Raise e => Raise e
              end
          | Raise e => Raise e
          end
      | Raise e => Raise e
      end
  end.

(** [write_hierarchy]: the root has no parent. *)
Definition write_hierarchy (hierarchy_root : Node)
  : result (list (string * string * descr * string * string)) :=
  hierarchy_rows ""%string hierarchy_root.

(** *** Statements about the relevance map *)

(** The members of the interaction keys of the relevance map [m] are
    accounted for: [m] extends the map [interactions] of
    [update_interaction_terms]; every member of a key of size 2 is the key
    of a linear term or one of the interaction-only features that
    [update_linear_terms] drew; and no interaction-only feature is the key
    of a linear term. *)
Definition members_accounted (L : Libs) (args : Args) (relevant_features : gset nat)
  (g : rng L) (m : relevance_map) : Prop :=
  exists interactions poly1 g1,
    update_interaction_terms L args relevant_features ∅ (sym_features_of args) [] g
      = Ok (interactions, poly1, g1)
    /\ let interaction_only :=
         fst (interaction_only_features L args interactions g1) in
       (forall key, key ∈ dom m -> size key = 2 ->
        forall f, f ∈ key -> {[f]} ∈ dom m \/ In f interaction_only)
       /\ (forall f, In f interaction_only -> {[f]} ∉ dom m).

(** More interactions are asked for than the relevant features have pairs,
    and pairs there are: [min] then returns a float that is not zero. *)
Definition too_many_interactions (args : Args) (relevant_features : gset nat)
  : bool :=
  (0 <? num_pairs (size relevant_features))
  && (num_pairs (size relevant_features) <? num_interactions args).

(** The noise the epsilon-irrelevant model adds under the values [v]: the
    sum of [noise_i * x_i] over the features that are not relevant. *)
Definition irrelevant_noise (v : symbol -> Q) (relevant_features : gset nat)
  (num_features : nat) : Q :=
  foldr (fun i total =>
           (if bool_decide (i ∈ relevant_features) then 0
            else v (noise_i i) * v (x i)) + total)%Q
        0%Q (seq 0 num_features).

(** The instance in which feature [i] alone is set. *)
Definition unit_instance (num_features i : nat) : list nat :=
  <[ i := 1 ]> (replicate num_features 0).

(** *** Statements about the contiguous names *)

(** [args] with the flag [contiguous_node_names] set to [b]. *)
Definition set_contiguous_node_names (b : bool) (args : Args) : Args :=
  {| num_features := num_features args; noise_type := noise_type args;
     hierarchy_type := hierarchy_type args;
     num_interactions := num_interactions args;
     include_interaction_only_features := include_interaction_only_features args;
     contiguous_node_names := b;
     analyze_interactions := analyze_interactions args |}.

(** The original feature index of a leaf: [int(node.static_indices)]. *)
Definition feature_of (leaf : Node) : result nat :=
  static ← getattr static_indices leaf;
  int static.

(** A renamed leaf carries its contiguous id as index and as name, and the
    feature-id map sends that id to the feature [original]. *)
Definition leaf_mapped (feature_id_map : gmap nat nat) (original : nat)
  (leaf : Node) : Prop :=
  exists i, idx (attrs_of leaf) = Some i /\ name (attrs_of leaf) = str i
            /\ feature_id_map !! i = Some original.

(** The children of a node were visited before it: their indices are
    smaller. *)
Definition children_before (node : Node) : Prop :=
  exists i, idx (attrs_of node) = Some i /\
    forall c, In c (children node) ->
    exists k, idx (attrs_of c) = Some k /\ k < i.

(** The entry of the feature-id map a renamed leaf stands for: its index
    and its feature. *)
Definition leaf_entry (leaf : Node) : nat * nat :=
  (default 0 (idx (attrs_of leaf)),
   match feature_of leaf with
   | Ok original => original
   | Raise _ => 0
   end).

(** The statistics of a renamed node: the indices of the nodes below it and
    its own fill the range from [min_child_idx] to [idx]; [max_child_idx]
    is the index before [idx], and [idx] itself at a leaf;
    [num_base_features] counts the leaves below. *)
Definition range_rule (node : Node) : Prop :=
  exists i lo hi,
    idx (attrs_of node) = Some i
    /\ min_child_idx (attrs_of node) = Some lo
    /\ max_child_idx (attrs_of node) = Some hi
    /\ lo + length (PostOrderIter node) = S i
    /\ hi = (if is_leaf node then i else i - 1)
    /\ num_base_features (attrs_of node) = Some (length (leaves node)).

(** A linkage matrix over [n] observations as SciPy returns it: [n - 1]
    rows, row [j] merging two clusters made before it, and every cluster
    merged at most once. *)
Definition valid_linkage (n : nat) (clusters : list (nat * nat)) : Prop :=
  S (length clusters) = n
  /\ NoDup (flat_map (fun row => [fst row; snd row]) clusters)
  /\ forall j row, clusters !! j = Some row -> fst row < n + j /\ snd row < n + j.

(** The clustering of the data returns, and returns such a matrix. *)
Definition valid_clusters (L : Libs) (data : matrix L) (n : nat) : Prop :=
  exists clusters,
    cluster_data L data = Ok clusters /\ valid_linkage n clusters.

(** What one run of the renaming loop over a subtree establishes: [node] is
    renamed to [node'] while the state goes from [(i, m)] to [(j, m')]. *)
Record renamed (node : Node) (i : nat) (m : gmap nat nat)
  (node' : Node) (j : nat) (m' : gmap nat nat) : Prop := {
  renamed_next : j = i + length (PostOrderIter node');
  renamed_idx :
    map (fun n => idx (attrs_of n)) (PostOrderIter node')
    = map Some (seq i (length (PostOrderIter node')));
  renamed_kept : forall k, k < i -> m' !! k = m !! k;
  renamed_leaves :
    Forall2 (fun leaf leaf' =>
               exists original k,
                 feature_of leaf = Ok original /\
                 idx (attrs_of leaf') = Some k /\ name (attrs_of leaf') = str k /\
                 m' !! k = Some original /\ k < j)
      (leaves node) (leaves node');
  renamed_count : num_base_features (attrs_of node') = Some (length (leaves node'));
  renamed_before : Forall children_before (PostOrderIter node');
  renamed_stats :
    is_Some (min_child_idx (attrs_of node')) /\ idx (attrs_of node') = Some (j - 1)
}.

(** The same for the children of a node, renamed from left to right. *)
Record renamed_list (cs : list Node) (i : nat) (m : gmap nat nat)
  (cs' : list Node) (j : nat) (m' : gmap nat nat) : Prop := {
  renamed_list_next : j = i + length (flat_map PostOrderIter cs');
  renamed_list_idx :
    map (fun n => idx (attrs_of n)) (flat_map PostOrderIter cs')
    = map Some (seq i (length (flat_map PostOrderIter cs')));
  renamed_list_kept : forall k, k < i -> m' !! k = m !! k;
  renamed_list_leaves :
    Forall2 (fun leaf leaf' =>
               exists original k,
                 feature_of leaf = Ok original /\
                 idx (attrs_of leaf') = Some k /\ name (attrs_of leaf') = str k /\
                 m' !! k = Some original /\ k < j)
      (flat_map leaves cs) (flat_map leaves cs');
  renamed_list_each :
    Forall (fun c' =>
              num_base_features (attrs_of c') = Some (length (leaves c')) /\
              is_Some (min_child_idx (attrs_of c')) /\
              exists k, idx (attrs_of c') = Some k /\ k < j) cs';
  renamed_list_before : Forall children_before (flat_map PostOrderIter cs');
  renamed_list_length : length cs' = length cs
}.

(** The cluster indices the rows name. *)
Definition named (rows : list (nat * nat)) : list nat :=
  flat_map (fun row => [fst row; snd row]) rows.

(** The leaves below the node at an index. *)
Definition leaves_at (nodes : list Node) (i : nat) : list Node :=
  match nodes !! i with
  | Some node => leaves node
  | None => []
  end.

(** The state of the loop over a valid linkage matrix: [free] lists the
    nodes that have no parent yet; together they hold every feature leaf. *)
Record forest (n : nat) (nodes : list Node) (free : list nat)
  (rest : list (nat * nat)) : Prop := {
  forest_nodup : NoDup free;
  forest_range : forall i, i ∈ free -> i < length nodes;
  forest_named : forall i, i ∈ named rest -> i < length nodes -> i ∈ free;
  forest_rest : NoDup (named rest);
  forest_bounds :
    forall j row, rest !! j = Some row ->
                  fst row < length nodes + j /\ snd row < length nodes + j;
  forest_leaves : Permutation (flat_map (leaves_at nodes) free) (feature_leaves n);
  forest_count : length free = S (length rest);
  forest_last : length nodes - 1 ∈ free
}.

(** *** Statements about the shape of a hierarchy *)

(** Every leaf below [node] is [depth] levels down. *)
Fixpoint uniform_depth (depth : nat) (node : Node) {struct node} : bool :=
  match node with
  | mkNode _ cs =>
      match depth, cs with
      | 0, [] => true
      | S below, _ :: _ => forallb (uniform_depth below) cs
      | _, _ => false
      end
  end.

(** The leaves below the nodes of a round of [gen_random_hierarchy]: every
    node but the last holds 2^round of them, the last at least one and at
    most as many. *)
Fixpoint full_but_last (round : nat) (nodes : list Node) : Prop :=
  match nodes with
  | [] => True
  | node :: rest =>
      match rest with
      | [] => 1 <= length (leaves node) <= 2 ^ round
      | _ :: _ => length (leaves node) = 2 ^ round /\ full_but_last round rest
      end
  end.

(** The names of the nodes of a hierarchy, in post-order. *)
Definition names (node : Node) : list string :=
  map (fun n => name (attrs_of n)) (PostOrderIter node).

(** Every node below (or at) [node] is a leaf or has exactly two
    children. *)
Definition full_binary (node : Node) : Prop :=
  Forall (fun n => is_leaf n = true \/ length (children n) = 2) (PostOrderIter node).

(** *** Statements about the annotation *)

(** The description of a node is [IRRELEVANT]. *)
Definition irrelevant (node : Node) : Prop :=
  description (attrs_of node) = Some IRRELEVANT.

(** Every leaf of the hierarchy names a feature that has a probability:
    what [update_hierarchy_relevance] needs to return. *)
Definition leaves_indexed (probs : list Q) (node : Node) : Prop :=
  forall leaf, In leaf (leaves node) ->
  exists i, static_indices (attrs_of leaf) = Some (str i) /\ i < length probs.

(** Some child carries a description other than [IRRELEVANT]. *)
Definition some_child_relevant (children' : list Node) : bool :=
  existsb (fun c => match description (attrs_of c) with
                    | Some d => negb (is_IRRELEVANT d)
                    | None => false
                    end) children'.

(** What [update_hierarchy_relevance] establishes at a node: a description,
    which at an internal node is [RELEVANT] or [IRRELEVANT] according to the
    children. *)
Definition annotation_rule (node : Node) : Prop :=
  exists d, description (attrs_of node) = Some d /\
    (is_leaf node = false ->
     d = if some_child_relevant (children node) then RELEVANT else IRRELEVANT).

(** The coefficient and the description [update_hierarchy_relevance] gives
    the leaf of feature [i] with probability [prob]. *)
Definition leaf_coefficient (relevant_feature_map : relevance_map) (i : nat) : Q :=
  match relevant_feature_map !! ({[i]} : gset nat) with
  | Some coeff => if truthy coeff then coeff else 0%Q
  | None => 0%Q
  end.

Definition leaf_description (relevant_feature_map : relevance_map) (i : nat) (prob : Q)
  : descr :=
  match relevant_feature_map !! ({[i]} : gset nat) with
  | Some coeff =>
      if truthy coeff then RELEVANT_feature coeff prob
      else RELEVANT_interaction_only
  | None =>
      if bool_decide (i ∈ features_of_keys relevant_feature_map)
      then RELEVANT_interaction_only else IRRELEVANT
  end.

(** The name and the parent name of a row of the hierarchy file. *)
Definition row_name (row : string * string * descr * string * string) : string :=
  fst (fst (fst (fst row))).

Definition row_parent (row : string * string * descr * string * string) : string :=
  snd (fst (fst (fst row))).

(** *** Statements about p-values *)

(** min(0.001, 1e-10 / (c * b)^3), the p-value of a relevant leaf with the
    non-zero coefficient [c] and the probability [b]; a cube of zero divides
    to infinity and leaves the baseline 0.001. *)
Definition lowered_pvalue (c b : Q) : Q :=
  if Qeq_bool ((c * b) ^ 3) 0 then 1 # 1000
  else Qmin (1 # 1000) ((1 # 10000000000) / (c * b) ^ 3).

(** 1e100: the cube of a number of at most this size is far below the
    largest binary64 number (about 1.8e308), where a larger one overflows to
    infinity and the quotient by it is zero. *)
Definition away_from_overflow : Q := inject_Z (10 ^ 100).

(** What [compare_with_ground_truth] assigns at a node: 1 to an irrelevant
    node; to a relevant leaf at most the baseline 0.001, which it is when
    the coefficient is zero, and
    min(0.001, 1e-10 / (coefficient * probability)^3) otherwise, for a
    product of coefficient and probability whose cube does not overflow; to
    a relevant internal node 0.999 times the least p-value of its
    children. *)
Definition pvalue_rule (node : Node) : Prop :=
  exists d p,
    description (attrs_of node) = Some d /\ pvalue (attrs_of node) = Some p /\
    if is_IRRELEVANT d then p = 1%Q
    else
      match children node with
      | [] =>
          exists c, poly_coeff (attrs_of node) = Some c /\
            if truthy c then
              exists b, bin_prob (attrs_of node) = Some b /\
                (p <= 1 # 1000)%Q /\
                ((Qabs (c * b) <= away_from_overflow)%Q ->
                 p = lowered_pvalue c b)
            else p = (1 # 1000)%Q
      | _ :: _ =>
          exists pvalues lowest,
            mapM_result (getattr pvalue) (children node) = Ok pvalues /\
            min_Q pvalues = Ok lowest /\
            p = ((999 # 1000) * lowest)%Q
      end.

(** The p-value of a node is strictly less than that of each child. *)
Definition below_children (node : Node) : Prop :=
  forall p, pvalue (attrs_of node) = Some p ->
  forall c, In c (children node) ->
  forall q, pvalue (attrs_of c) = Some q -> (p < q)%Q.

(** The p-value of a node is at most that of each child. *)
Definition not_above_children (node : Node) : Prop :=
  forall p, pvalue (attrs_of node) = Some p ->
  forall c, In c (children node) ->
  forall q, pvalue (attrs_of c) = Some q -> (p <= q)%Q.

(** 1e-300, far above the least normal binary64 number (about 2.2e-308): a
    float at or above it is lowered by the product with 0.999, where a zero
    or a denormal float would be rounded back to itself. *)
Definition away_from_underflow : Q := 1 # 10 ^ 300.

(** The children of a node carry p-values of at least 1e-300. *)
Definition children_away_from_underflow (node : Node) : Prop :=
  forall c, In c (children node) ->
  forall q, pvalue (attrs_of c) = Some q -> (away_from_underflow <= q)%Q.

(** The leaves carry non-negative coefficients and probabilities, as the
    uniform draws of the synthesis are. *)
Definition nonnegative_leaves (node : Node) : Prop :=
  forall leaf, In leaf (leaves node) ->
  forall c b, poly_coeff (attrs_of leaf) = Some c ->
              bin_prob (attrs_of leaf) = Some b -> (0 <= c /\ 0 <= b)%Q.

(** The leaves carry coefficients and probabilities between 0 and 1, the
    range of the uniform draws of the synthesis. *)
Definition unit_leaves (node : Node) : Prop :=
  forall leaf, In leaf (leaves node) ->
  forall c b, poly_coeff (attrs_of leaf) = Some c ->
              bin_prob (attrs_of leaf) = Some b ->
              (0 <= c <= 1 /\ 0 <= b <= 1)%Q.

(** A node carries what [compare_with_ground_truth] reads: a description,
    and at a leaf a coefficient and a probability. *)
Definition annotated_node (node : Node) : Prop :=
  is_Some (description (attrs_of node))
  /\ (is_leaf node = true ->
      is_Some (poly_coeff (attrs_of node)) /\ is_Some (bin_prob (attrs_of node))).

(** *** Readings of the outer nodes *)

(** The rejection flag of a node, [false] when it carries none. *)
Definition is_rejected (node : Node) : bool :=
  default false (rejected (attrs_of node)).

(** A rejected node none of whose children is rejected. *)
Definition no_rejected_child (node : Node) : bool :=
  is_rejected node && forallb (fun c => negb (is_rejected c)) (children node).

(** A rejected node with no rejected descendant: the frontier of the
    positive calls, in the words of the specification. *)
Definition no_rejected_descendant (node : Node) : bool :=
  is_rejected node && forallb (fun c => negb (is_rejected c)) (descendants node).

(** The rejections respect the hierarchy: below a node that is not rejected
    no child is rejected, and so on downwards. *)
Fixpoint hierarchical (node : Node) : bool :=
  match node with
  | mkNode _ cs =>
      forallb (fun c => implb (is_rejected c) (is_rejected node) && hierarchical c) cs
  end.

(** *** Concrete instances *)

(** Precision and recall of binary labels, with scikit-learn's convention
    that a ratio over an empty set is 0. *)
Definition binary_precision_recall (y_true y_pred : list nat) : Q * Q :=
  let pairs := zip y_true y_pred in
  let hits := length (filter (fun p => fst p = 1 /\ snd p = 1) pairs) in
  let predicted := length (filter (fun p => snd p = 1) pairs) in
  let actual := length (filter (fun p => fst p = 1) pairs) in
  ((if Nat.eqb predicted 0 then 0 else Q_of_nat hits / Q_of_nat predicted)%Q,
   (if Nat.eqb actual 0 then 0 else Q_of_nat hits / Q_of_nat actual)%Q).

(** A deterministic instance of the libraries, to run the functions on
    concrete inputs: the generator state counts the draws, a shuffle
    reverses, a choice takes the first elements, the uniform draws are
    constant, and the clustering data is the linkage matrix itself, which
    has no row when there is nothing to merge. *)
Definition example_libs : Libs := {|
  rng := nat;
  shuffle := fun A g l => (rev l, S g);
  choice := fun A g l k => (firstn k l, S g);
  uniform := fun g => ((1 # 2)%Q, S g);
  uniform_size := fun g n => (repeat (1 # 4)%Q n, S g);
  matrix := list (nat * nat);
  linkage := fun rows =>
    match rows with
    | [] => Raise ValueError
    | _ :: _ => Ok rows
    end;
  precision_recall_fscore_support := binary_precision_recall
|}.

(** A node as the JSON importer returns it: a name, a description and a
    rejection flag. *)
Definition imported (nm : string) (d : descr) (r : bool) (cs : list Node) : Node :=
  mkNode {| name := nm; static_indices := None; description := Some d;
            poly_coeff := None; bin_prob := None; pvalue := None; idx := None;
            min_child_idx := None; max_child_idx := None;
            num_base_features := None; rejected := Some r |} cs.

(** A leaf as [update_hierarchy_relevance] leaves it. *)
Definition annotated_leaf (i : nat) (d : descr) (coeff prob : Q) : Node :=
  mkNode (set_leaf_relevance d coeff prob (new_attrs (str i) (Some (str i)))) [].

(** An internal node as [update_hierarchy_relevance] leaves it. *)
Definition annotated_internal (nm : string) (d : descr) (cs : list Node) : Node :=
  mkNode (set_description d (new_attrs nm None)) cs.

(** Arguments of a run, with the interaction analysis on or off. *)
Definition example_args (analyze : bool) : Args :=
  {| num_features := 4; noise_type := constants.EPSILON_IRRELEVANT;
     hierarchy_type := constants.RANDOM; num_interactions := 1;
     include_interaction_only_features := true;
     contiguous_node_names := false; analyze_interactions := analyze |}.

(** The same run with five interactions asked for. *)
Definition example_args_five : Args :=
  {| num_features := 4; noise_type := constants.EPSILON_IRRELEVANT;
     hierarchy_type := constants.RANDOM; num_interactions := 5;
     include_interaction_only_features := true;
     contiguous_node_names := false; analyze_interactions := false |}.

(** A relevance map with the interaction of features 0 and 1 and the linear
    term of feature 1. *)
Definition example_map : relevance_map :=
  <[ ({[0; 1]} : gset nat) := (1 # 2)%Q ]> (<[ ({[1]} : gset nat) := (1 # 4)%Q ]> ∅).

(** A discovery tree in which a rejected leaf sits below a node that is not
    rejected, itself below the rejected root. *)
Definition skipped_level : Node :=
  imported "6" RELEVANT true
    [imported "4" RELEVANT false
       [imported "0" RELEVANT_interaction_only true [];
        imported "1" (RELEVANT_feature (1 # 4) (1 # 2)) false []];
     imported "5" IRRELEVANT false
       [imported "2" IRRELEVANT false [];
        imported "3" IRRELEVANT false []]].

(** An interactions tree: the tested pairs 0 + 1 (not rejected) and 1 + 2
    (rejected) on its second level. *)
Definition example_interactions : Node :=
  imported "root" IRRELEVANT false
    [imported "0 + 1" IRRELEVANT false [];
     imported "1 + 2" IRRELEVANT true []].

(** An annotated hierarchy: an irrelevant internal node over two irrelevant
    leaves, and a relevant one over a leaf with the small coefficient 0.001
    and an interaction-only leaf. *)
Definition example_annotated : Node :=
  annotated_internal "6" RELEVANT
    [annotated_internal "4" IRRELEVANT
       [annotated_leaf 0 IRRELEVANT 0 (1 # 2);
        annotated_leaf 1 IRRELEVANT 0 (1 # 3)];
     annotated_internal "5" RELEVANT
       [annotated_leaf 2 (RELEVANT_feature (1 # 1000) (1 # 2)) (1 # 1000) (1 # 2);
        annotated_leaf 3 RELEVANT_interaction_only 0 (1 # 2)]].

(** A hierarchy over four features as the builders make it, before any
    annotation, and the probabilities of the features. *)
Definition example_hierarchy : Node :=
  let leaf i := mkNode (new_attrs (str i) (Some (str i))) [] in
  mkNode (new_attrs "6" None)
    [mkNode (new_attrs "4" None) [leaf 0; leaf 1];
     mkNode (new_attrs "5" None) [leaf 2; leaf 3]].

Definition example_probs : list Q := [1 # 2; 1 # 3; 1 # 4; 1 # 5]%Q.

(** Draws for [example_libs] in which every entry is [n]. *)
Definition example_data_libs : DataLibs example_libs :=
  Build_DataLibs example_libs
    (fun (g : nat) n probs rows =>
       (replicate rows (replicate (length probs) n), S g)).

(** Three instances, two of them for the clustering, and half of the
    features relevant: the fraction 0.5. *)
Definition example_data_args : DataArgs :=
  {| num_instances := 3; clustering_instance_count := 2;
     fraction_relevant_features :=
       float64.div (float64.of_int 1) (float64.of_int 2) |}.

(** A run over no feature at all. *)
Definition example_args_empty (type : string) : Args :=
  {| num_features := 0; noise_type := constants.NO_NOISE;
     hierarchy_type := type; num_interactions := 0;
     include_interaction_only_features := true;
     contiguous_node_names := true; analyze_interactions := false |}.

(** A run over 45 features, of which the fraction 0.7 is relevant. *)
Definition example_args_45 : Args :=
  {| num_features := 45; noise_type := constants.EPSILON_IRRELEVANT;
     hierarchy_type := constants.RANDOM; num_interactions := 0;
     include_interaction_only_features := true;
     contiguous_node_names := false; analyze_interactions := false |}.

Definition example_data_args_07 : DataArgs :=
  {| num_instances := 3; clustering_instance_count := 0;
     fraction_relevant_features :=
       float64.div (float64.of_int 7) (float64.of_int 10) |}.

(** Every node of the list carries a description and a rejection flag. *)
Definition labelled (nodes : list Node) : Prop :=
  Forall (fun node => is_Some (description (attrs_of node))
                      /\ is_Some (rejected (attrs_of node))) nodes.

End simulation.

(** * Properties of [model.py] *)

Section model_properties.

Context {A : model.Arith} {L : model.Libs A} {T : Type}.
Implicit Types (self : model.Model L) (static_data : model.ndarray L).
Implicit Types (temporal_data : T) (target loss prediction : model.float A).

(** [predict] is [noisy_prediction] followed by the loss. *)
Lemma predict_unfold self target static_data temporal_data :
  model.predict self target static_data temporal_data =
  match model.noisy_prediction self static_data with
  | Ok prediction =>
      Ok (model.sqrt A (model.power A (model.sub A prediction target) 2), prediction)
  | Raise e => Raise e
  end.
Proof. reflexivity. Qed.

(** The prediction is the first entry of what the model function returns on
    the noise drawn. *)
Lemma noisy_prediction_noise self static_data :
  model.noisy_prediction self static_data =
  match model.noise_draw self static_data with
  | Ok noise => model.getitem0 (model.model_fn self static_data noise)
  | Raise e => Raise e
  end.
Proof.
  unfold model.noisy_prediction, model.noise_draw.
  destruct (String.eqb _ constants.EPSILON_IRRELEVANT); [reflexivity|].
  destruct (String.eqb _ constants.ADDITIVE_GAUSSIAN); [|reflexivity].
  destruct (model.checked_normal _ _ _); reflexivity.
Qed.

(** The only [NotImplementedError] of [predict] is the one of the final
    [else]: it is raised exactly when the noise type is neither
    epsilon-irrelevant nor additive-Gaussian. *)
Lemma predict_not_implemented_iff self target static_data temporal_data :
  model.predict self target static_data temporal_data
    = Raise (NotImplementedError "Unknown noise type")
  <-> model.noise_type self <> constants.EPSILON_IRRELEVANT
      /\ model.noise_type self <> constants.ADDITIVE_GAUSSIAN.
Proof.
  rewrite predict_unfold. unfold model.noisy_prediction, model.checked_normal.
  destruct (String.eqb_spec (model.noise_type self) constants.EPSILON_IRRELEVANT)
    as [eps|eps].
  - split; [|tauto].
    destruct (model.model_fn self static_data _); discriminate.
  - destruct (String.eqb_spec (model.noise_type self) constants.ADDITIVE_GAUSSIAN)
      as [gauss|gauss].
    + split; [|tauto].
      destruct (model.signbit A _); [discriminate|]. simpl.
      destruct (model.model_fn self static_data _); discriminate.
    + tauto.
Qed.

(** [ValueError] is raised exactly by the normal draw of the additive
    Gaussian type, on a noise multiplier whose sign bit is set. *)
Lemma predict_value_error_iff self target static_data temporal_data :
  model.predict self target static_data temporal_data = Raise ValueError
  <-> model.noise_type self = constants.ADDITIVE_GAUSSIAN
      /\ model.signbit A (model.noise_multiplier self) = true.
Proof.
  rewrite predict_unfold. unfold model.noisy_prediction, model.checked_normal.
  destruct (String.eqb_spec (model.noise_type self) constants.EPSILON_IRRELEVANT)
    as [eps|eps].
  - split.
    + destruct (model.model_fn self static_data _); discriminate.
    + intros [gauss _]. rewrite eps in gauss. discriminate gauss.
  - destruct (String.eqb_spec (model.noise_type self) constants.ADDITIVE_GAUSSIAN)
      as [gauss|gauss].
    + destruct (model.signbit A _); simpl.
      * tauto.
      * split; [|intros [_ ?]; discriminate].
        destruct (model.model_fn self static_data _); discriminate.
    + split; [discriminate|tauto].
Qed.

(** With a supported noise type, a multiplier NumPy accepts as a scale and
    a model function that returns a non-empty array, [predict] returns. *)
Lemma predict_returns self target static_data temporal_data :
  model.noise_type self = constants.EPSILON_IRRELEVANT
  \/ (model.noise_type self = constants.ADDITIVE_GAUSSIAN
      /\ model.signbit A (model.noise_multiplier self) = false) ->
  (forall n, model.model_fn self static_data n <> []) ->
  is_Ok (model.predict self target static_data temporal_data).
Proof.
  intros supported nonempty. rewrite predict_unfold.
  unfold model.noisy_prediction, model.checked_normal.
  destruct supported as [-> | [-> ->]]; simpl;
    match goal with
    | |- context [model.model_fn self static_data ?n] =>
        pose proof (nonempty n) as ne;
        destruct (model.model_fn self static_data n); [congruence|]
    end; simpl; eexists; reflexivity.
Qed.

End model_properties.

(** ** Signs in binary64 *)

Section binary64_signs.








End binary64_signs.

(** C2 (the code at the failing input).  A model configured with the
    no-noise type does not predict: [predict] falls through to its final
    [else] and raises the error meant for unknown noise types. *)
Theorem predict_no_noise_raises (A : model.Arith) (L : model.Libs A) (T : Type)
  (fn : model.ndarray L -> model.noise_arg A -> list (model.float A))
  (multiplier target : model.float A)
  (static_data : model.ndarray L) (temporal_data : T) :
  model.predict
    {| model.model_fn := fn; model.noise_multiplier := multiplier;
       model.noise_type := constants.NO_NOISE |}
    target static_data temporal_data
  = Raise (NotImplementedError "Unknown noise type").
Proof. reflexivity. Qed.





(** * Properties of [simulation.py] *)

(** ** Fallible traversals *)

Section traversals.

Context {A B : Type}.

Lemma mapM_result_Forall2 (f : A -> result B) (l : list A) (l' : list B) :
  simulation.mapM_result f l = Ok l' -> Forall2 (fun a b => f a = Ok b) l l'.
Proof.
  revert l'. induction l as [|a l IH]; simpl; intros l' run.
  - injection run as <-. constructor.
  - destruct (f a) as [b|] eqn:fa; [|discriminate].
    destruct (simulation.mapM_result f l) as [bs|]; [|discriminate].
    injection run as <-. constructor; auto.
Qed.

Lemma mapM_result_Ok (f : A -> result B) (l : list A) :
  Forall (fun a => is_Ok (f a)) l -> is_Ok (simulation.mapM_result f l).
Proof.
  induction 1 as [|a l [b fa] _ [bs run]]; simpl.
  - eexists; reflexivity.
  - rewrite fa, run. eexists; reflexivity.
Qed.

Lemma mapM_result_total (f : A -> result B) (g : A -> B) (l : list A) :
  Forall (fun a => f a = Ok (g a)) l -> simulation.mapM_result f l = Ok (map g l).
Proof.
  induction 1 as [|a l fa _ run]; simpl; [reflexivity|].
  rewrite fa, run. reflexivity.
Qed.

Lemma filterM_result_total (f : A -> result bool) (g : A -> bool) (l : list A) :
  Forall (fun a => f a = Ok (g a)) l ->
  simulation.filterM_result f l = Ok (List.filter g l).
Proof.
  induction 1 as [|a l fa _ run]; simpl; [reflexivity|].
  rewrite fa, run. destruct (g a); reflexivity.
Qed.

End traversals.

(** ** Trees *)

Lemma Node_induction (P : simulation.Node -> Prop) :
  (forall a cs, Forall P cs -> P (simulation.mkNode a cs)) -> forall n, P n.
Proof.
  intros step. fix rec 1. intros [a cs]. apply step.
  induction cs as [|c cs IH]; constructor; [apply rec|exact IH].
Qed.

Lemma PreOrderIter_self (n : simulation.Node) : In n (simulation.PreOrderIter n).
Proof. destruct n. simpl. auto. Qed.

Lemma PreOrderIter_children (t n c : simulation.Node) :
  In n (simulation.PreOrderIter t) -> In c (simulation.children n) ->
  In c (simulation.PreOrderIter t).
Proof.
  revert n c. induction t as [a cs IH] using Node_induction. intros n c.
  simpl. intros [<-|below] child.
  - right. simpl in child. apply in_flat_map. exists c. split; [exact child|].
    apply PreOrderIter_self.
  - right. apply in_flat_map in below as (k & kin & below).
    apply in_flat_map. exists k. split; [exact kin|].
    rewrite Forall_forall in IH. eapply IH; eauto.
    apply list_elem_of_In; exact kin.
Qed.

Lemma PostOrderIter_self (n : simulation.Node) : In n (simulation.PostOrderIter n).
Proof. destruct n. simpl. apply in_or_app. right. left. reflexivity. Qed.

Lemma PostOrderIter_Forall (P : simulation.Node -> Prop) (a : simulation.attrs)
  (cs : list simulation.Node) :
  Forall (fun c => Forall P (simulation.PostOrderIter c)) cs ->
  P (simulation.mkNode a cs) ->
  Forall P (simulation.PostOrderIter (simulation.mkNode a cs)).
Proof.
  intros below here. simpl. apply Forall_app. split; [|repeat constructor; exact here].
  apply Forall_flat_map. exact below.
Qed.

Lemma PostOrderIter_subtree (t n m : simulation.Node) :
  In n (simulation.PostOrderIter t) -> In m (simulation.PostOrderIter n) ->
  In m (simulation.PostOrderIter t).
Proof.
  revert n m. induction t as [a cs IH] using Node_induction. intros n m.
  simpl. rewrite !in_app_iff. intros [below|[<-|[]]] sub.
  - left. apply in_flat_map in below as (k & kin & below).
    apply in_flat_map. exists k. split; [exact kin|].
    rewrite Forall_forall in IH. eapply IH; eauto.
    apply list_elem_of_In; exact kin.
  - simpl in sub. rewrite in_app_iff in sub. exact sub.
Qed.

Lemma PostOrderIter_children (t n c : simulation.Node) :
  In n (simulation.PostOrderIter t) -> In c (simulation.children n) ->
  In c (simulation.PostOrderIter t).
Proof.
  intros nin cin. apply (PostOrderIter_subtree t n c nin).
  destruct n as [a cs]. simpl in *. apply in_or_app. left.
  apply in_flat_map. exists c. split; [exact cin|apply PostOrderIter_self].
Qed.

Lemma getattr_Some {A} (field : simulation.attrs -> option A)
  (node : simulation.Node) (v : A) :
  field (simulation.attrs_of node) = Some v -> simulation.getattr field node = Ok v.
Proof. unfold simulation.getattr. intros ->. reflexivity. Qed.

(** ** Relevance annotation *)

Section annotation.

Import simulation.

Implicit Types (node root : Node) (probs : list Q).
Implicit Types (relevant_feature_map : gmap (gset nat) Q) (features : gset nat).

Lemma int_str (n : nat) : int (str n) = Ok n.
Proof.
  unfold int, str.
  assert (digits : Nat.to_uint n <> Decimal.Nil).
  { intros nil. pose proof (DecimalNat.Unsigned.of_to n) as back.
    rewrite nil in back. simpl in back. subst n. discriminate nil. }
  rewrite (NilZero.usu _ digits), DecimalNat.Unsigned.of_to. reflexivity.
Qed.

Lemma annotate_leaf_unfold relevant_feature_map features probs (a : attrs) node' :
  annotate_leaf relevant_feature_map features probs a = Ok node' ->
  exists d coeff prob,
    node' = mkNode (set_leaf_relevance d coeff prob a) [].
Proof.
  unfold annotate_leaf. intros run.
  destruct (getattr static_indices (mkNode a [])) as [static|]; [|discriminate].
  cbv beta iota delta [mbind result_bind] in run.
  destruct (int static) as [i|]; [|discriminate].
  destruct (getitem probs i) as [prob|]; [|discriminate].
  destruct (relevant_feature_map !! _) as [coeff|];
    [destruct (truthy coeff)|]; try destruct (bool_decide _);
    injection run as <-; eauto.
Qed.

Lemma annotate_unfold relevant_feature_map features probs (a : attrs)
  (c : Node) (cs : list Node) node' :
  annotate relevant_feature_map features probs (mkNode a (c :: cs)) = Ok node' ->
  exists cs',
    Forall2 (fun k k' => annotate relevant_feature_map features probs k = Ok k')
      (c :: cs) cs'
    /\ annotate_internal a cs' = Ok node'.
Proof.
  simpl.
  destruct (annotate relevant_feature_map features probs c) as [c'|] eqn:first;
    [|discriminate].
  destruct (mapM_result _ cs) as [cs'|] eqn:rest; [|discriminate].
  intros visit. exists (c' :: cs'). split; [|exact visit].
  constructor; [exact first|]. apply mapM_result_Forall2, rest.
Qed.

Lemma annotate_internal_unfold (a : attrs) (cs' : list Node) node' :
  annotate_internal a cs' = Ok node' ->
  Forall (fun c => is_Some (description (attrs_of c))) cs'
  /\ node' = mkNode (set_description
                       (if some_child_relevant cs' then RELEVANT else IRRELEVANT) a) cs'.
Proof.
  unfold annotate_internal. intros run.
  destruct (mapM_result (getattr description) cs') as [ds|] eqn:reads; [|discriminate].
  cbv beta iota delta [mbind result_bind] in run. injection run as <-.
  apply mapM_result_Forall2 in reads.
  assert (same : existsb (fun d => negb (is_IRRELEVANT d)) ds = some_child_relevant cs'
                 /\ Forall (fun c => is_Some (description (attrs_of c))) cs').
  { induction reads as [|c d cs ds read _ [IH1 IH2]]; [split; [reflexivity|constructor]|].
    unfold getattr in read. destruct (description (attrs_of c)) as [d'|] eqn:has;
      [|discriminate].
    injection read as ->. split.
    - simpl. rewrite has, IH1. reflexivity.
    - constructor; [eexists; exact has|exact IH2]. }
  destruct same as [-> has]. auto.
Qed.

Lemma annotate_rules relevant_feature_map features probs root root' :
  annotate relevant_feature_map features probs root = Ok root' ->
  Forall annotation_rule (PostOrderIter root').
Proof.
  revert root'. induction root as [a cs IH] using Node_induction. intros root' run.
  destruct cs as [|c cs].
  - simpl in run. apply annotate_leaf_unfold in run as (d & coeff & prob & ->).
    simpl. repeat constructor. exists d. split; [reflexivity|discriminate].
  - apply annotate_unfold in run as (cs' & kids & visit).
    apply annotate_internal_unfold in visit as (has & ->).
    apply PostOrderIter_Forall.
    + clear has. induction kids as [|k k' ks ks' run _ IHkids]; constructor.
      * inversion IH; subst. auto.
      * inversion IH; subst. auto.
    + eexists. split; [reflexivity|]. intros _. reflexivity.
Qed.

Lemma some_child_relevant_false (cs : list Node) :
  Forall (fun c => is_Some (description (attrs_of c))) cs ->
  some_child_relevant cs = false <-> Forall irrelevant cs.
Proof.
  unfold some_child_relevant, irrelevant.
  induction 1 as [|c cs [d has] _ IH]; simpl.
  - split; [constructor|reflexivity].
  - rewrite orb_false_iff, IH, has. split.
    + intros [here rest]. constructor; [|exact rest].
      destruct d; try discriminate. exact has.
    + intros all. inversion all as [|? ? here rest]; subst.
      rewrite has in here. injection here as ->. auto.
Qed.

(** A node that follows the rule, like all nodes below it, is irrelevant
    exactly when all the leaves below it are. *)
Lemma irrelevant_iff_leaves node :
  Forall annotation_rule (PostOrderIter node) ->
  irrelevant node <-> (forall leaf, In leaf (leaves node) -> irrelevant leaf).
Proof.
  induction node as [a cs IH] using Node_induction. intros rules.
  destruct cs as [|c cs].
  - simpl. split; [intros here leaf [<-|[]]; exact here|].
    intros all. apply all. left. reflexivity.
  - simpl in rules. apply Forall_app in rules as [below here].
    inversion here as [|? ? (d & has & rule) _]; subst.
    specialize (rule eq_refl). cbn [attrs_of children] in has, rule.
    assert (kids : Forall (fun k => Forall annotation_rule (PostOrderIter k)) (c :: cs))
      by (apply Forall_flat_map; exact below).
    assert (described : Forall (fun k => is_Some (description (attrs_of k))) (c :: cs)).
    { eapply Forall_impl; [exact kids|]. intros k krules.
      rewrite Forall_forall in krules.
      destruct (krules k) as (dk & hask & _);
        [apply list_elem_of_In, PostOrderIter_self|].
      eexists; exact hask. }
    assert (step : irrelevant (mkNode a (c :: cs)) <-> Forall irrelevant (c :: cs)).
    { rewrite <- (some_child_relevant_false _ described).
      unfold irrelevant. cbn [attrs_of]. rewrite has, rule.
      destruct (some_child_relevant (c :: cs)); split; congruence. }
    rewrite step. change (leaves (mkNode a (c :: cs))) with (flat_map leaves (c :: cs)).
    rewrite Forall_forall. split.
    + intros all leaf lin. apply in_flat_map in lin as (k & kin & lin).
      rewrite Forall_forall in IH, kids.
      apply (IH k); [apply list_elem_of_In, kin|apply kids, list_elem_of_In, kin| |exact lin].
      apply all, list_elem_of_In, kin.
    + intros all k kin. apply list_elem_of_In in kin.
      rewrite Forall_forall in IH, kids.
      apply (IH k); [apply list_elem_of_In, kin|apply kids, list_elem_of_In, kin|].
      intros leaf lin. apply all. apply in_flat_map. exists k. auto.
Qed.

Lemma annotate_leaf_idempotent relevant_feature_map features probs (a : attrs) node' :
  annotate_leaf relevant_feature_map features probs a = Ok node' ->
  annotate_leaf relevant_feature_map features probs (attrs_of node') = Ok node'.
Proof.
  unfold annotate_leaf. intros run.
  destruct (getattr static_indices (mkNode a [])) as [static|] eqn:reads;
    [|discriminate].
  cbv beta iota delta [mbind result_bind] in run.
  destruct (int static) as [i|] eqn:parses; [|discriminate].
  destruct (getitem probs i) as [prob|] eqn:indexed; [|discriminate].
  assert (again : forall d coeff,
             getattr static_indices
               (mkNode (set_leaf_relevance d coeff prob a) []) = Ok static)
    by (intros; exact reads).
  destruct (relevant_feature_map !! _) as [coeff|] eqn:looked;
    [destruct (truthy coeff) eqn:nonzero|]; try destruct (bool_decide _) eqn:member;
    injection run as <-; cbn [attrs_of]; rewrite again;
    cbv beta iota delta [mbind result_bind];
    rewrite parses, indexed, looked, ?nonzero, ?member; reflexivity.
Qed.

Lemma annotate_idempotent relevant_feature_map features probs root root' :
  annotate relevant_feature_map features probs root = Ok root' ->
  annotate relevant_feature_map features probs root' = Ok root'.
Proof.
  revert root'. induction root as [a cs IH] using Node_induction. intros root' run.
  destruct cs as [|c cs].
  - simpl in run. assert (shape := run).
    apply annotate_leaf_unfold in shape as (d & coeff & prob & ->).
    apply annotate_leaf_idempotent in run. exact run.
  - apply annotate_unfold in run as (cs' & kids & visit).
    apply annotate_internal_unfold in visit as (has & ->).
    assert (again : Forall (fun k' => annotate relevant_feature_map features probs k'
                                      = Ok k') cs').
    { clear has. induction kids as [|k k' ks ks' run _ IHkids]; constructor.
      - inversion IH; subst. auto.
      - inversion IH; subst. auto. }
    inversion kids as [|? c' ? cs'' _ _]; subst.
    cbn [annotate].
    rewrite (mapM_result_total _ (fun k => k)) by exact again.
    rewrite map_id. unfold annotate_internal.
    rewrite (mapM_result_total _
               (fun k => default IRRELEVANT (description (attrs_of k)))).
    + cbv beta iota delta [mbind result_bind]. do 2 f_equal.
      assert (same : existsb (fun d => negb (is_IRRELEVANT d))
                       (map (fun k => default IRRELEVANT (description (attrs_of k)))
                            (c' :: cs''))
                     = some_child_relevant (c' :: cs'')).
      { clear -has. unfold some_child_relevant.
        induction has as [|k ks [d hasd] _ IHhas]; [reflexivity|].
        simpl. rewrite hasd, IHhas. reflexivity. }
      rewrite same. destruct (some_child_relevant (c' :: cs'')); reflexivity.
    + eapply Forall_impl; [exact has|]. intros k [d hasd].
      rewrite hasd. apply getattr_Some, hasd.
Qed.

Lemma annotate_returns relevant_feature_map features probs root :
  leaves_indexed probs root ->
  is_Ok (annotate relevant_feature_map features probs root).
Proof.
  induction root as [a cs IH] using Node_induction. intros indexed.
  destruct cs as [|c cs].
  - destruct (indexed (mkNode a [])) as (i & static & range); [left; reflexivity|].
    simpl in static. simpl. unfold annotate_leaf, getattr. simpl. rewrite static.
    cbv beta iota delta [mbind result_bind]. rewrite int_str.
    unfold getitem. destruct (lookup_lt_is_Some_2 probs i range) as [prob ->].
    destruct (relevant_feature_map !! _) as [coeff|];
      [destruct (truthy coeff)|]; try destruct (bool_decide _);
      eexists; reflexivity.
  - assert (kids : Forall (fun k => is_Ok (annotate relevant_feature_map features probs k))
                     (c :: cs)).
    { rewrite Forall_forall in IH. apply Forall_forall. intros k kin. apply IH; [exact kin|].
      intros leaf lin. apply indexed.
      change (In leaf (flat_map leaves (c :: cs))). apply in_flat_map.
      exists k. split; [apply list_elem_of_In, kin|exact lin]. }
    destruct (mapM_result_Ok _ _ kids) as [cs' run].
    cbn [annotate]. rewrite run. unfold annotate_internal.
    assert (described : Forall (fun k' => is_Ok (getattr description k')) cs').
    { apply mapM_result_Forall2 in run. clear -run.
      induction run as [|k k' ks ks' run _ IHrun]; constructor; [|exact IHrun].
      apply annotate_rules in run. rewrite Forall_forall in run.
      destruct (run k') as (d & has & _); [apply list_elem_of_In, PostOrderIter_self|].
      exists d. apply getattr_Some, has. }
    destruct (mapM_result_Ok _ _ described) as [ds ->].
    eexists; reflexivity.
Qed.

Lemma some_child_relevant_true (cs : list Node) :
  Forall (fun c => is_Some (description (attrs_of c))) cs ->
  some_child_relevant cs = true <-> exists c, In c cs /\ ~ irrelevant c.
Proof.
  unfold some_child_relevant, irrelevant.
  induction 1 as [|k ks [d has] _ IH]; simpl.
  - split; [discriminate|intros (c & [] & _)].
  - rewrite orb_true_iff, IH, has. split.
    + intros [here|(c & cin & relevant)].
      * exists k. split; [left; reflexivity|]. rewrite has.
        destruct d; try discriminate; congruence.
      * exists c. auto.
    + intros (c & [<-|cin] & relevant).
      * left. rewrite has in relevant. destruct d; try reflexivity. congruence.
      * right. exists c. auto.
Qed.

(** C7.  After the relevance annotation every node is irrelevant exactly
    when all the leaves below it are; every internal node is marked
    [RELEVANT] exactly when some child is not irrelevant, and is irrelevant
    otherwise; and annotating the annotated hierarchy again returns it
    unchanged. *)
Theorem relevance_annotation root relevant_feature_map probs root' :
  update_hierarchy_relevance root relevant_feature_map probs = Ok root' ->
  Forall (fun node =>
            (irrelevant node <->
             forall leaf, In leaf (leaves node) -> irrelevant leaf)
            /\ (is_leaf node = false ->
                (description (attrs_of node) = Some RELEVANT <->
                 exists c, In c (children node) /\ ~ irrelevant c)
                /\ (description (attrs_of node) = Some RELEVANT \/ irrelevant node)))
    (PostOrderIter root')
  /\ update_hierarchy_relevance root' relevant_feature_map probs = Ok root'.
Proof.
  unfold update_hierarchy_relevance. intros run.
  split; [|eapply annotate_idempotent; exact run].
  apply annotate_rules in run. assert (rules := run).
  rewrite Forall_forall in rules. apply Forall_forall. intros n nin. split.
  - apply irrelevant_iff_leaves. apply Forall_forall. intros k kin.
    apply rules. apply list_elem_of_In. apply list_elem_of_In in nin, kin.
    eapply PostOrderIter_subtree; eauto.
  - intros internal. destruct (rules n nin) as (d & has & rule).
    specialize (rule internal).
    assert (described : Forall (fun c => is_Some (description (attrs_of c)))
                          (children n)).
    { apply Forall_forall. intros c cin. destruct (rules c) as (dc & hasc & _).
      - apply list_elem_of_In. apply list_elem_of_In in nin, cin.
        eapply PostOrderIter_children; eauto.
      - eexists; exact hasc. }
    rewrite <- (some_child_relevant_true _ described). unfold irrelevant.
    rewrite has, rule.
    destruct (some_child_relevant (children n)); split;
      try (split; congruence); auto.
Qed.

(** [update_hierarchy_relevance] returns on every hierarchy whose leaves name
    features that have a probability. *)
Lemma update_hierarchy_relevance_returns root relevant_feature_map probs :
  leaves_indexed probs root ->
  is_Ok (update_hierarchy_relevance root relevant_feature_map probs).
Proof. apply annotate_returns. Qed.

End annotation.

Lemma relevance_annotation_witness :
  exists root',
    simulation.update_hierarchy_relevance simulation.example_hierarchy
      simulation.example_map simulation.example_probs = Ok root'
    /\ simulation.update_hierarchy_relevance root'
         simulation.example_map simulation.example_probs = Ok root'.
Proof.
  eexists. split; [vm_compute; reflexivity|].
  refine (proj2 (relevance_annotation simulation.example_hierarchy
                   simulation.example_map simulation.example_probs _ _)).
  vm_compute; reflexivity.
Defined.

(** ** Ground-truth p-values *)

Section pvalues.

Import simulation.

Implicit Types (node root : Node) (p q : Q).

Lemma foldl_Qmin_le (l : list Q) (x : Q) :
  (foldl Qmin x l <= x)%Q /\ Forall (fun q => (foldl Qmin x l <= q)%Q) l.
Proof.
  revert x. induction l as [|y l IH]; intros x; simpl.
  - split; [apply Qle_refl|constructor].
  - destruct (IH (Qmin x y)) as [head rest]. split.
    + eapply Qle_trans; [exact head|apply Q.le_min_l].
    + constructor; [|exact rest].
      eapply Qle_trans; [exact head|apply Q.le_min_r].
Qed.

Lemma foldl_Qmin_pos (l : list Q) (x : Q) :
  (0 < x)%Q -> Forall (fun q => (0 < q)%Q) l -> (0 < foldl Qmin x l)%Q.
Proof.
  revert x. induction l as [|y l IH]; intros x xpos pos; simpl; [exact xpos|].
  inversion pos; subst. apply IH; [|assumption].
  apply Q.min_glb_lt; assumption.
Qed.

Lemma min_Q_le (l : list Q) (m : Q) :
  min_Q l = Ok m -> Forall (fun q => (m <= q)%Q) l.
Proof.
  destruct l as [|x l]; simpl; [discriminate|]. intros [= <-].
  destruct (foldl_Qmin_le l x). constructor; assumption.
Qed.

Lemma min_Q_pos (l : list Q) (m : Q) :
  min_Q l = Ok m -> Forall (fun q => (0 < q)%Q) l -> (0 < m)%Q.
Proof.
  destruct l as [|x l]; simpl; [discriminate|]. intros [= <-] pos.
  inversion pos; subst. apply foldl_Qmin_pos; assumption.
Qed.

Lemma foldl_Qmin_glb (l : list Q) (x bound : Q) :
  (bound <= x)%Q -> Forall (fun q => (bound <= q)%Q) l -> (bound <= foldl Qmin x l)%Q.
Proof.
  revert x. induction l as [|y l IH]; intros x xlow low; simpl; [exact xlow|].
  inversion low; subst. apply IH; [|assumption].
  apply Q.min_glb; assumption.
Qed.

Lemma min_Q_glb (l : list Q) (m bound : Q) :
  min_Q l = Ok m -> Forall (fun q => (bound <= q)%Q) l -> (bound <= m)%Q.
Proof.
  destruct l as [|x l]; simpl; [discriminate|]. intros [= <-] low.
  inversion low; subst. apply foldl_Qmin_glb; assumption.
Qed.

(** The lowered p-value of a leaf is at most the baseline. *)
Lemma lowered_pvalue_le (c b : Q) : (lowered_pvalue c b <= 1 # 1000)%Q.
Proof.
  unfold lowered_pvalue. destruct (Qeq_bool _ 0); [apply Qle_refl|apply Q.le_min_l].
Qed.

(** It is at least 1e-10 when the coefficient and the probability lie
    between 0 and 1. *)
Lemma lowered_pvalue_ge (c b : Q) :
  (0 <= c <= 1)%Q -> (0 <= b <= 1)%Q -> (1 # 10000000000 <= lowered_pvalue c b)%Q.
Proof.
  intros [clow chigh] [blow bhigh]. unfold lowered_pvalue.
  set (cube := ((c * b) ^ 3)%Q).
  assert (product : (0 <= c * b <= 1)%Q).
  { split; [apply Qmult_le_0_compat; assumption|].
    apply Qle_trans with (1 * b)%Q; [|lra].
    apply Qmult_le_compat_r; assumption. }
  assert (range : (0 <= cube <= 1)%Q).
  { unfold cube. split; [apply Qpower_0_le; tauto|].
    change ((c * b) ^ 3)%Q with ((c * b) * ((c * b) * (c * b)))%Q.
    assert (square : (0 <= (c * b) * (c * b) <= 1)%Q) by nra.
    nra. }
  destruct (Qeq_bool cube 0) eqn:zero; [discriminate|].
  apply Qeq_bool_neq in zero.
  assert (pos : (0 < cube)%Q).
  { destruct range as [low _]. apply Qle_lteq in low as [?|eq]; [assumption|].
    symmetry in eq. tauto. }
  apply Q.min_glb; [discriminate|].
  apply Qle_shift_div_l; [exact pos|].
  apply Qle_trans with ((1 # 10000000000) * 1)%Q; [|lra].
  apply Qmult_le_l; [reflexivity|tauto].
Qed.

Lemma leaf_pvalue_formula node p :
  leaf_pvalue node = Ok p ->
  exists c, poly_coeff (attrs_of node) = Some c /\
    if truthy c then
      exists b, bin_prob (attrs_of node) = Some b /\ p = lowered_pvalue c b
    else p = (1 # 1000)%Q.
Proof.
  intros run. unfold leaf_pvalue, getattr in run.
  destruct (poly_coeff (attrs_of node)) as [c|]; [|discriminate].
  cbv beta iota delta [mbind result_bind] in run.
  exists c. split; [reflexivity|].
  destruct (truthy c); [|congruence].
  destruct (bin_prob (attrs_of node)) as [b|]; [|discriminate].
  exists b. split; [reflexivity|].
  unfold lowered_pvalue.
  destruct (Qeq_bool ((c * b) ^ 3) 0); congruence.
Qed.

Lemma leaf_pvalue_rule node p :
  leaf_pvalue node = Ok p ->
  exists c, poly_coeff (attrs_of node) = Some c /\
    if truthy c then
      exists b, bin_prob (attrs_of node) = Some b /\
        (p <= 1 # 1000)%Q /\
        ((Qabs (c * b) <= away_from_overflow)%Q -> p = lowered_pvalue c b)
    else p = (1 # 1000)%Q.
Proof.
  intros run. apply leaf_pvalue_formula in run as (c & hasc & shape).
  exists c. split; [exact hasc|].
  destruct (truthy c); [|exact shape].
  destruct shape as (b & hasb & ->). exists b. split; [exact hasb|].
  split; [apply lowered_pvalue_le|reflexivity].
Qed.

Lemma leaf_pvalue_pos node p :
  leaf_pvalue node = Ok p ->
  (forall c b, poly_coeff (attrs_of node) = Some c ->
               bin_prob (attrs_of node) = Some b -> (0 <= c /\ 0 <= b)%Q) ->
  (0 < p)%Q.
Proof.
  intros run nonneg. unfold leaf_pvalue, getattr in run.
  destruct (poly_coeff (attrs_of node)) as [c|]; [|discriminate].
  cbv beta iota delta [mbind result_bind] in run.
  destruct (truthy c); [|injection run as <-; reflexivity].
  destruct (bin_prob (attrs_of node)) as [b|]; [|discriminate].
  destruct (nonneg c b eq_refl eq_refl) as [cpos bpos].
  set (cube := ((c * b) ^ 3)%Q) in *.
  assert (cube_nonneg : (0 <= cube)%Q)
    by (apply Qpower_0_le, Qmult_le_0_compat; assumption).
  destruct (Qeq_bool cube 0) eqn:zero; injection run as <-; [reflexivity|].
  apply Qeq_bool_neq in zero.
  assert (pos : (0 < cube)%Q).
  { apply Qle_lteq in cube_nonneg as [?|eq]; [assumption|]. symmetry in eq. tauto. }
  apply Q.min_glb_lt; [reflexivity|].
  apply Qlt_shift_div_l; [exact pos|]. rewrite Qmult_0_l. reflexivity.
Qed.

Lemma assign_pvalues_unfold (a : attrs) (cs : list Node) root' :
  assign_pvalues (mkNode a cs) = Ok root' ->
  exists cs', Forall2 (fun c c' => assign_pvalues c = Ok c') cs cs'
              /\ pvalue_visit a cs' = Ok root'.
Proof.
  simpl. destruct (mapM_result assign_pvalues cs) as [cs'|] eqn:run; [|discriminate].
  intros visit. exists cs'. split; [|exact visit].
  apply mapM_result_Forall2, run.
Qed.

Lemma pvalue_visit_unfold (a : attrs) (cs' : list Node) root' :
  pvalue_visit a cs' = Ok root' ->
  exists d p,
    description a = Some d /\ root' = mkNode (set_pvalue p a) cs' /\
    (if negb (is_IRRELEVANT d) then
       if is_leaf (mkNode a cs') then leaf_pvalue (mkNode a cs')
       else
         pvalues ← mapM_result (getattr pvalue) cs';
         lowest ← min_Q pvalues;
         Ok ((999 # 1000) * lowest)%Q
     else Ok 1%Q) = Ok p.
Proof.
  intros visit. unfold pvalue_visit in visit.
  destruct (getattr description (mkNode a cs')) as [d|] eqn:has; [|discriminate].
  cbv beta iota delta [mbind result_bind] in visit.
  match type of visit with
  | match ?m with _ => _ end = _ => destruct m as [p|] eqn:run; [|discriminate]
  end.
  injection visit as <-. exists d, p.
  unfold getattr in has. simpl in has.
  destruct (description a); [|discriminate]. injection has as ->. auto.
Qed.

Lemma pvalue_visit_rule (a : attrs) (cs' : list Node) root' :
  pvalue_visit a cs' = Ok root' -> pvalue_rule root'.
Proof.
  intros visit. apply pvalue_visit_unfold in visit as (d & p & has & -> & run).
  exists d, p. simpl. split; [exact has|]. split; [reflexivity|].
  destruct (is_IRRELEVANT d); simpl in run; [congruence|].
  destruct cs' as [|c cs'].
  - apply leaf_pvalue_rule in run. exact run.
  - change (is_leaf (mkNode a (c :: cs'))) with false in run.
    cbv beta iota delta [mbind result_bind] in run.
    destruct (mapM_result (getattr pvalue) (c :: cs')) as [pvalues|] eqn:reads;
      [|discriminate].
    destruct (min_Q pvalues) as [lowest|] eqn:low; [|discriminate].
    exists pvalues, lowest. split; [reflexivity|]. split; congruence.
Qed.

Lemma assign_pvalues_rules root root' :
  assign_pvalues root = Ok root' -> Forall pvalue_rule (PostOrderIter root').
Proof.
  revert root'. induction root as [a cs IH] using Node_induction. intros root' run.
  apply assign_pvalues_unfold in run as (cs' & kids & visit).
  assert (rule := pvalue_visit_rule _ _ _ visit).
  apply pvalue_visit_unfold in visit as (d & p & _ & -> & _).
  apply PostOrderIter_Forall; [|exact rule].
  clear rule. induction kids as [|c c' cs cs' run _ IHkids]; constructor.
  - inversion IH; subst. auto.
  - inversion IH; subst. auto.
Qed.

(** With non-negative coefficients and probabilities every p-value is
    positive. *)
Lemma assign_pvalues_positive root root' :
  assign_pvalues root = Ok root' -> nonnegative_leaves root ->
  Forall (fun node => exists p, pvalue (attrs_of node) = Some p /\ (0 < p)%Q)
    (PostOrderIter root').
Proof.
  revert root'. induction root as [a cs IH] using Node_induction.
  intros root' run nonneg.
  apply assign_pvalues_unfold in run as (cs' & kids & visit).
  apply pvalue_visit_unfold in visit as (d & p & _ & -> & value).
  assert (below : Forall (fun c' => Forall
                   (fun node => exists p, pvalue (attrs_of node) = Some p /\ (0 < p)%Q)
                   (PostOrderIter c')) cs').
  { assert (leaves_below : forall c, In c cs -> nonnegative_leaves c).
    { intros c cin leaf lin. apply nonneg. destruct cs as [|c0 cs0]; [destruct cin|].
      simpl. change (In leaf (flat_map leaves (c0 :: cs0))).
      apply in_flat_map. exists c. auto. }
    clear value nonneg.
    induction kids as [|c c' cs cs' run _ IHkids]; constructor.
    - inversion IH; subst. apply H1; [exact run|]. apply leaves_below. left. reflexivity.
    - inversion IH; subst. apply IHkids; [assumption|].
      intros k kin. apply leaves_below. right. exact kin. }
  apply PostOrderIter_Forall; [exact below|].
  exists p. split; [reflexivity|].
  destruct (is_IRRELEVANT d); simpl in value; [injection value as <-; reflexivity|].
  destruct cs' as [|c' cs'].
  - inversion kids; subst. apply (leaf_pvalue_pos _ _ value).
    intros c b. apply (nonneg (mkNode a [])). left. reflexivity.
  - change (is_leaf (mkNode a (c' :: cs'))) with false in value.
    cbv beta iota delta [mbind result_bind] in value.
    destruct (mapM_result (getattr pvalue) (c' :: cs')) as [pvalues|] eqn:reads;
      [|discriminate].
    destruct (min_Q pvalues) as [lowest|] eqn:low; [|discriminate].
    injection value as <-.
    assert (0 < lowest)%Q.
    { apply (min_Q_pos _ _ low). apply mapM_result_Forall2 in reads.
      clear low kids. revert reads below. generalize (c' :: cs'). intros kidlist reads.
      induction reads as [|k q ks qs read _ IHreads]; intros below; constructor.
      - inversion below as [|? ? here _]; subst. rewrite Forall_forall in here.
        destruct (here k) as (q' & has & pos).
        { apply list_elem_of_In, PostOrderIter_self. }
        unfold getattr in read. rewrite has in read. congruence.
      - inversion below; subst. auto. }
    lra.
Qed.

(** The p-values read off a list of nodes. *)
Lemma pvalues_read_bound (P : Q -> Prop) (nodes : list Node) (pvalues : list Q) :
  Forall2 (fun n r => getattr pvalue n = Ok r) nodes pvalues ->
  (forall c, In c nodes -> forall q, pvalue (attrs_of c) = Some q -> P q) ->
  Forall P pvalues.
Proof.
  intros reads. induction reads as [|n r l rs read _ IHreads]; intros bound;
    constructor.
  - unfold getattr in read.
    destruct (pvalue (attrs_of n)) as [r'|] eqn:hasr; [|discriminate].
    injection read as <-. apply (bound n); [left; reflexivity|exact hasr].
  - apply IHreads. intros c cin. apply bound. right. exact cin.
Qed.

Lemma pvalues_read_member (nodes : list Node) (pvalues : list Q) (c : Node) (q : Q) :
  Forall2 (fun n r => getattr pvalue n = Ok r) nodes pvalues ->
  In c nodes -> pvalue (attrs_of c) = Some q -> In q pvalues.
Proof.
  intros reads. induction reads as [|n r l rs read _ IHreads]; intros cin value;
    [destruct cin|].
  destruct cin as [<-|cin].
  - left. unfold getattr in read. rewrite value in read. congruence.
  - right. auto.
Qed.

Lemma pvalue_rule_below node :
  pvalue_rule node ->
  children_away_from_underflow node ->
  is_leaf node = false -> description (attrs_of node) <> Some IRRELEVANT ->
  below_children node.
Proof.
  intros (d & p & has & value & rule) away internal relevant p' value' c cin q cvalue.
  assert (p' = p) as -> by congruence.
  destruct (is_IRRELEVANT d) eqn:irrelevant.
  { destruct d; try discriminate. congruence. }
  unfold is_leaf in internal. unfold children_away_from_underflow in away.
  destruct (children node) as [|k ks]; [discriminate|].
  destruct rule as (pvalues & lowest & reads & low & ->).
  apply mapM_result_Forall2 in reads.
  assert (above : (away_from_underflow <= lowest)%Q).
  { apply (min_Q_glb _ _ _ low).
    apply (pvalues_read_bound _ _ _ reads). exact away. }
  assert (least : (lowest <= q)%Q).
  { apply min_Q_le in low. rewrite Forall_forall in low. apply low.
    apply list_elem_of_In. eapply pvalues_read_member; eauto. }
  assert (0 < away_from_underflow)%Q by reflexivity.
  lra.
Qed.

(** The p-value of a relevant internal node is at most that of each child
    when these are not negative. *)
Lemma pvalue_rule_not_above node :
  pvalue_rule node ->
  (forall c, In c (children node) ->
   forall q, pvalue (attrs_of c) = Some q -> (0 <= q)%Q) ->
  is_leaf node = false -> description (attrs_of node) <> Some IRRELEVANT ->
  not_above_children node.
Proof.
  intros (d & p & has & value & rule) pos internal relevant p' value' c cin q cvalue.
  assert (p' = p) as -> by congruence.
  destruct (is_IRRELEVANT d) eqn:irrelevant.
  { destruct d; try discriminate. congruence. }
  unfold is_leaf in internal.
  destruct (children node) as [|k ks]; [discriminate|].
  destruct rule as (pvalues & lowest & reads & low & ->).
  apply mapM_result_Forall2 in reads.
  assert (above : (0 <= lowest)%Q).
  { apply (min_Q_glb _ _ _ low).
    apply (pvalues_read_bound _ _ _ reads). exact pos. }
  assert (least : (lowest <= q)%Q).
  { apply min_Q_le in low. rewrite Forall_forall in low. apply low.
    apply list_elem_of_In. eapply pvalues_read_member; eauto. }
  lra.
Qed.

(** A relevant leaf has at most the baseline. *)
Lemma pvalue_rule_leaf node p :
  pvalue_rule node -> is_leaf node = true -> pvalue (attrs_of node) = Some p ->
  (p <= 1 # 1000)%Q \/ (description (attrs_of node) = Some IRRELEVANT /\ p = 1%Q).
Proof.
  intros (d & p' & has & value & rule) leaf value'.
  assert (p' = p) as -> by congruence.
  destruct (is_IRRELEVANT d) eqn:irrelevant.
  { right. destruct d; try discriminate. auto. }
  left. unfold is_leaf in leaf.
  destruct (children node); [|discriminate].
  destruct rule as (c & _ & rule).
  destruct (truthy c).
  - destruct rule as (b & _ & small & _). exact small.
  - subst p. apply Qle_refl.
Qed.

(** *** The p-values are assigned on every annotated hierarchy *)

Lemma annotate_annotated relevant_feature_map features probs root root' :
  annotate relevant_feature_map features probs root = Ok root' ->
  Forall annotated_node (PostOrderIter root').
Proof.
  revert root'. induction root as [a cs IH] using Node_induction. intros root' run.
  destruct cs as [|c cs].
  - simpl in run. apply annotate_leaf_unfold in run as (d & coeff & prob & ->).
    simpl. repeat constructor; eexists; reflexivity.
  - apply annotate_unfold in run as (cs' & kids & visit).
    apply annotate_internal_unfold in visit as (has & ->).
    apply PostOrderIter_Forall.
    + clear has. induction kids as [|k k' ks ks' run _ IHkids]; constructor.
      * inversion IH; subst. auto.
      * inversion IH; subst. auto.
    + split; [eexists; reflexivity|].
      inversion kids; subst. discriminate.
Qed.

Lemma assign_pvalues_returns root :
  Forall annotated_node (PostOrderIter root) -> is_Ok (assign_pvalues root).
Proof.
  induction root as [a cs IH] using Node_induction. intros annotated.
  simpl in annotated. apply Forall_app in annotated as [below here].
  inversion here as [|? ? [[d has] leaf] _]; subst.
  assert (kids : exists cs', Forall2 (fun c c' => assign_pvalues c = Ok c') cs cs').
  { apply Forall_flat_map in below. clear -IH below.
    induction IH as [|c cs head _ IHcs].
    - exists []. constructor.
    - inversion below; subst. destruct head as [c' run]; [assumption|].
      destruct IHcs as [cs' rest]; [assumption|].
      exists (c' :: cs'). constructor; assumption. }
  destruct kids as [cs' kids].
  assert (run : mapM_result assign_pvalues cs = Ok cs').
  { clear -kids. induction kids as [|c c' cs cs' run _ IHkids]; [reflexivity|].
    simpl. rewrite run. simpl in IHkids. rewrite IHkids. reflexivity. }
  cbn [assign_pvalues]. rewrite run. unfold pvalue_visit.
  rewrite (getattr_Some description (mkNode a cs') d) by exact has.
  cbv beta iota delta [mbind result_bind].
  destruct (is_IRRELEVANT d); simpl; [eexists; reflexivity|].
  destruct cs' as [|c' cs'].
  - inversion kids; subst. destruct (leaf eq_refl) as [[coeff hasc] [prob hasp]].
    simpl in hasc, hasp.
    change (is_leaf (mkNode a [])) with true. cbv iota.
    unfold leaf_pvalue, getattr. simpl. rewrite hasc.
    cbv beta iota delta [mbind result_bind].
    destruct (truthy coeff); [|eexists; reflexivity].
    rewrite hasp. cbv beta iota delta [mbind result_bind].
    destruct (Qeq_bool _ 0); eexists; reflexivity.
  - change (is_leaf (mkNode a (c' :: cs'))) with false. cbv iota.
    destruct (mapM_result_Ok (getattr pvalue) (c' :: cs')) as [pvalues reads].
    { clear -kids. induction kids as [|k k' ks ks' run _ IHkids]; constructor;
        [|exact IHkids].
      destruct k as [ak ks0]. apply assign_pvalues_unfold in run as (ks1 & _ & visit).
      apply pvalue_visit_unfold in visit as (dk & pk & _ & -> & _).
      eexists. apply getattr_Some. reflexivity. }
    rewrite reads. cbv beta iota delta [mbind result_bind].
    apply mapM_result_Forall2 in reads. inversion reads; subst.
    eexists; reflexivity.
Qed.

(** [compare_with_ground_truth] returns on every hierarchy that
    [update_hierarchy_relevance] has annotated. *)
Lemma pvalues_after_annotation root relevant_feature_map probs root' :
  update_hierarchy_relevance root relevant_feature_map probs = Ok root' ->
  is_Ok (compare_with_ground_truth root').
Proof.
  intros run. unfold update_hierarchy_relevance in run.
  apply annotate_annotated, assign_pvalues_returns in run as [t run].
  unfold compare_with_ground_truth. rewrite run. eexists; reflexivity.
Qed.

(** C3 (amended).  After [compare_with_ground_truth] every node follows
    [pvalue_rule]: an irrelevant node, internal or leaf, has p-value 1; a
    relevant leaf has the baseline 0.001 when its coefficient is zero and
    min(0.001, 1e-10 / (coefficient * probability)^3) otherwise, so at most
    the baseline in both cases; a relevant internal node has 0.999 times the
    least p-value of its children.  The p-value of a relevant internal node
    is therefore strictly less than the p-value of each of its children
    when these are at least 1e-300. *)
Theorem ground_truth_pvalues root root' :
  assign_pvalues root = Ok root' ->
  Forall pvalue_rule (PostOrderIter root')
  /\ Forall (fun node =>
               is_leaf node = true ->
               description (attrs_of node) <> Some IRRELEVANT ->
               forall p, pvalue (attrs_of node) = Some p -> (p <= 1 # 1000)%Q)
       (PostOrderIter root')
  /\ Forall (fun node =>
               is_leaf node = false ->
               description (attrs_of node) <> Some IRRELEVANT ->
               children_away_from_underflow node ->
               below_children node) (PostOrderIter root').
Proof.
  intros run. assert (rules := assign_pvalues_rules _ _ run).
  split; [exact rules|].
  rewrite Forall_forall in rules. split.
  - apply Forall_forall. intros n nin leaf relevant p value.
    destruct (pvalue_rule_leaf n p (rules n nin) leaf value) as [low|[bad _]];
      [exact low|contradiction].
  - apply Forall_forall. intros n nin internal relevant away.
    apply pvalue_rule_below; auto.
Qed.

End pvalues.

Lemma ground_truth_pvalues_witness :
  exists root',
    simulation.assign_pvalues simulation.example_annotated = Ok root'
    /\ Forall simulation.pvalue_rule (simulation.PostOrderIter root')
    /\ simulation.pvalue (simulation.attrs_of root') = Some (998001 # 1000000000)%Q
    /\ simulation.below_children root'.
Proof.
  eexists.
  assert (run : simulation.assign_pvalues simulation.example_annotated = Ok ?[root'])
    by (vm_compute; reflexivity).
  destruct (ground_truth_pvalues _ _ run) as (rules & _ & strict).
  split; [exact run|]. split; [exact rules|]. split; [reflexivity|].
  rewrite Forall_forall in strict.
  apply strict.
  - apply list_elem_of_In. do 6 right. left. reflexivity.
  - reflexivity.
  - discriminate.
  - intros c [<-|[<-|[]]] q [= <-]; vm_compute; discriminate.
Defined.

(** C3 (as stated) fails twice on [example_annotated]: the irrelevant
    internal node "4" gets the p-value 1 of its children, and the leaf "2",
    whose coefficient 0.001 is not zero, keeps the baseline 0.001. *)
Lemma pvalues_not_strict :
  exists root' node child leaf c,
    simulation.assign_pvalues simulation.example_annotated = Ok root'
    /\ In node (simulation.PostOrderIter root')
    /\ simulation.is_leaf node = false
    /\ In child (simulation.children node)
    /\ simulation.pvalue (simulation.attrs_of node) = Some 1%Q
    /\ simulation.pvalue (simulation.attrs_of child) = Some 1%Q
    /\ ~ simulation.below_children node
    /\ In leaf (simulation.PostOrderIter root')
    /\ simulation.is_leaf leaf = true
    /\ simulation.poly_coeff (simulation.attrs_of leaf) = Some c
    /\ ~ (c == 0)%Q
    /\ simulation.pvalue (simulation.attrs_of leaf) = Some (1 # 1000)%Q.
Proof.
  eexists. eexists. eexists. eexists. eexists.
  split; [vm_compute; reflexivity|].
  split; [right; right; left; reflexivity|].
  split; [reflexivity|].
  split; [left; reflexivity|].
  split; [reflexivity|].
  split; [reflexivity|].
  split.
  { intros below. specialize (below 1%Q eq_refl _ (or_introl eq_refl) 1%Q eq_refl).
    discriminate below. }
  split; [right; right; right; left; reflexivity|].
  split; [reflexivity|].
  split; [reflexivity|].
  split; [discriminate|reflexivity].
Qed.

(** ** Outer nodes *)

Section outer_nodes.

Import simulation.

Implicit Types (nodes : list Node) (node tree : Node).

Lemma is_outer_no_rejected_child node :
  is_Some (rejected (attrs_of node)) ->
  Forall (fun c => is_Some (rejected (attrs_of c))) (children node) ->
  is_outer node = Ok (no_rejected_child node).
Proof.
  intros [r flag] flags. unfold is_outer, no_rejected_child, is_rejected.
  rewrite (getattr_Some _ _ _ flag), flag. simpl.
  destruct r; [|reflexivity].
  rewrite (mapM_result_total _ is_rejected).
  - simpl. f_equal. clear flags.
    induction (children node) as [|c cs IH]; simpl; [reflexivity|].
    rewrite IH. reflexivity.
  - eapply Forall_impl; [exact flags|]. intros c [b cflag].
    unfold is_rejected. rewrite cflag. apply getattr_Some, cflag.
Qed.

Lemma labelled_children tree :
  labelled (PreOrderIter tree) ->
  Forall (fun node => Forall (fun c => is_Some (rejected (attrs_of c)))
                        (children node)) (PreOrderIter tree).
Proof.
  intros lab. apply Forall_forall. intros n nin. apply Forall_forall. intros c cin.
  unfold labelled in lab. rewrite Forall_forall in lab.
  apply lab. apply list_elem_of_In. apply list_elem_of_In in nin, cin.
  eapply PreOrderIter_children; eauto.
Qed.

Lemma selected_outer_labelled nodes :
  labelled nodes ->
  Forall (fun node => Forall (fun c => is_Some (rejected (attrs_of c)))
                        (children node)) nodes ->
  selected_nodes nodes true false = Ok (List.filter no_rejected_child nodes).
Proof.
  intros lab kids. unfold selected_nodes. simpl.
  apply filterM_result_total. unfold labelled in lab.
  rewrite Forall_forall in lab, kids. apply Forall_forall.
  intros n nin. apply is_outer_no_rejected_child; [apply lab, nin|apply kids, nin].
Qed.

(** Below a node that is not rejected, a hierarchical tree has no rejected
    node. *)
Lemma quiet_subtree tree :
  hierarchical tree = true -> is_rejected tree = false ->
  forall d, In d (PreOrderIter tree) -> is_rejected d = false.
Proof.
  induction tree as [a cs IH] using Node_induction. intros hier quiet d.
  simpl. intros [<-|below]; [exact quiet|].
  apply in_flat_map in below as (c & cin & below).
  simpl in hier. rewrite forallb_forall in hier.
  specialize (hier c cin). apply andb_true_iff in hier as [up down].
  rewrite Forall_forall in IH. apply (IH c); auto.
  - apply list_elem_of_In, cin.
  - rewrite quiet in up. destruct (is_rejected c); [discriminate|reflexivity].
Qed.

Lemma hierarchical_subtree tree :
  hierarchical tree = true ->
  forall n, In n (PreOrderIter tree) -> hierarchical n = true.
Proof.
  induction tree as [a cs IH] using Node_induction. intros hier n.
  simpl. intros [<-|below]; [exact hier|].
  apply in_flat_map in below as (c & cin & below).
  simpl in hier. rewrite forallb_forall in hier.
  specialize (hier c cin). apply andb_true_iff in hier as [_ down].
  rewrite Forall_forall in IH. apply (IH c); auto. apply list_elem_of_In, cin.
Qed.

(** In a hierarchical tree the two readings of "outer" agree. *)
Lemma child_or_descendant node :
  hierarchical node = true ->
  no_rejected_child node = no_rejected_descendant node.
Proof.
  intros hier. unfold no_rejected_child, no_rejected_descendant.
  destruct (is_rejected node) eqn:rej; [simpl|reflexivity].
  apply eq_true_iff_eq. rewrite !forallb_forall. split.
  - intros quiet d din. unfold descendants in din.
    apply in_flat_map in din as (c & cin & below).
    destruct node as [a cs]. simpl in *. rewrite forallb_forall in hier.
    specialize (hier c cin). apply andb_true_iff in hier as [_ down].
    rewrite (quiet_subtree c down); auto.
    specialize (quiet c cin). destruct (is_rejected c); [discriminate|reflexivity].
  - intros quiet c cin. apply quiet. unfold descendants.
    apply in_flat_map. exists c. split; [exact cin|apply PreOrderIter_self].
Qed.

(** C4 (amended).  On a discovery tree whose nodes carry rejection flags, the
    nodes kept for the outer-nodes metrics are exactly the rejected nodes
    none of whose children is rejected; they are the rejected nodes with no
    rejected descendant when the rejections respect the hierarchy. *)
Theorem outer_nodes_selection tree :
  labelled (PreOrderIter tree) ->
  selected_nodes (PreOrderIter tree) true false
    = Ok (List.filter no_rejected_child (PreOrderIter tree))
  /\ (hierarchical tree = true ->
      selected_nodes (PreOrderIter tree) true false
        = Ok (List.filter no_rejected_descendant (PreOrderIter tree))).
Proof.
  intros lab.
  assert (sel := selected_outer_labelled _ lab (labelled_children _ lab)).
  split; [exact sel|]. intros hier. rewrite sel. f_equal.
  apply filter_ext_in. intros n nin. apply child_or_descendant.
  eapply hierarchical_subtree; eauto.
Qed.

End outer_nodes.

Lemma skipped_level_labelled : simulation.labelled (simulation.PreOrderIter simulation.skipped_level).
Proof.
  unfold simulation.labelled. simpl.
  repeat constructor; eexists; reflexivity.
Qed.

Lemma outer_nodes_selection_witness :
  simulation.selected_nodes (simulation.PreOrderIter simulation.skipped_level) true false
  = Ok (List.filter simulation.no_rejected_child
          (simulation.PreOrderIter simulation.skipped_level)).
Proof.
  exact (proj1 (outer_nodes_selection simulation.skipped_level skipped_level_labelled)).
Defined.

(** C4 (as stated) fails: in [skipped_level] the root is kept for the
    outer-nodes metrics although the leaf "0" below it is rejected. *)
Lemma outer_nodes_not_frontier :
  exists kept,
    simulation.selected_nodes (simulation.PreOrderIter simulation.skipped_level) true false
      = Ok kept
    /\ In simulation.skipped_level kept
    /\ simulation.no_rejected_descendant simulation.skipped_level = false
    /\ kept <> List.filter simulation.no_rejected_descendant
                (simulation.PreOrderIter simulation.skipped_level).
Proof.
  eexists. split; [reflexivity|]. split; [left; reflexivity|].
  split; [reflexivity|]. discriminate.
Qed.

(** ** Evaluation *)

Section evaluation.

Import simulation.

Implicit Types (nodes : list Node) (node : Node) (args : Args).
Implicit Types (relevant_feature_map : gmap (gset nat) Q).
Implicit Types (feature_id_map : gmap nat nat).

Lemma get_relevant_rejected_labelled nodes (outer leaves : bool) :
  labelled nodes ->
  Forall (fun node => Forall (fun c => is_Some (rejected (attrs_of c)))
                        (children node)) nodes ->
  outer && leaves = false ->
  is_Ok (get_relevant_rejected nodes outer leaves).
Proof.
  intros lab kids exclusive. unfold get_relevant_rejected, selected_nodes.
  rewrite exclusive.
  assert (sel : exists nodes', (if outer then filterM_result is_outer nodes
                 else if leaves
                      then Ok (filter (fun node => is_leaf node = true) nodes)
                      else Ok nodes) = Ok nodes' /\ labelled nodes').
  { destruct outer; [|destruct leaves].
    - exists (List.filter no_rejected_child nodes). split.
      + apply filterM_result_total. unfold labelled in lab.
        rewrite Forall_forall in lab, kids. apply Forall_forall.
        intros n nin.
        apply is_outer_no_rejected_child; [apply lab, nin|apply kids, nin].
      + unfold labelled in *. rewrite Forall_forall in *. intros n nin.
        apply lab. apply list_elem_of_In in nin. apply filter_In in nin.
        apply list_elem_of_In. tauto.
    - eexists. split; [reflexivity|]. unfold labelled in *.
      apply Forall_forall. intros n nin. apply list_elem_of_filter in nin.
      rewrite Forall_forall in lab. apply lab. tauto.
    - eexists. split; [reflexivity|assumption]. }
  destruct sel as (nodes' & -> & lab'). simpl.
  destruct (mapM_result_Ok
              (fun node => d ← getattr description node;
                           Ok (if is_IRRELEVANT d then 0 else 1)) nodes')
    as [rel ->].
  { eapply Forall_impl; [exact lab'|]. intros n [[d has] _]. unfold getattr.
    rewrite has. eexists; reflexivity. }
  simpl.
  destruct (mapM_result_Ok
              (fun node => r ← getattr rejected node;
                           Ok (if (r : bool) then 1 else 0)) nodes')
    as [rej ->].
  { eapply Forall_impl; [exact lab'|]. intros n [_ [r has]]. unfold getattr.
    rewrite has. eexists; reflexivity. }
  simpl. eexists; reflexivity.
Qed.

(** [evaluate] is the three scorings followed by the interaction metrics. *)
Lemma evaluate_interactions (L : Libs) args relevant_feature_map feature_id_map
  (tree interactions_tree : Node) (res : Results) :
  evaluate L args relevant_feature_map feature_id_map tree interactions_tree = Ok res ->
  exists precision recall,
    get_precision_recall_interactions args relevant_feature_map feature_id_map
      interactions_tree = Ok (precision, recall)
    /\ INTERACTIONS_FDR res = (1 - precision)%Q
    /\ INTERACTIONS_POWER res = recall.
Proof.
  unfold evaluate.
  destruct (get_relevant_rejected _ false false) as [[rel rej]|]; [|discriminate].
  simpl. destruct (precision_recall_fscore_support L rel rej).
  destruct (get_relevant_rejected _ true false) as [[orel orej]|]; [|discriminate].
  simpl. destruct (precision_recall_fscore_support L orel orej).
  destruct (get_relevant_rejected _ false true) as [[brel brej]|]; [|discriminate].
  simpl. destruct (precision_recall_fscore_support L brel brej).
  destruct (get_precision_recall_interactions _ _ _ _) as [[p r]|]; [|discriminate].
  simpl. intros [= <-]. exists p, r. auto.
Qed.

Lemma evaluate_returns (L : Libs) args relevant_feature_map feature_id_map
  (tree interactions_tree : Node) :
  labelled (PreOrderIter tree) ->
  is_Ok (get_precision_recall_interactions args relevant_feature_map
           feature_id_map interactions_tree) ->
  is_Ok (evaluate L args relevant_feature_map feature_id_map tree interactions_tree).
Proof.
  intros lab [[p r] inter]. unfold evaluate.
  assert (kids : Forall (fun node => Forall (fun c => is_Some (rejected (attrs_of c)))
                           (children node)) (PreOrderIter tree)).
  { apply Forall_forall. intros n nin. apply Forall_forall. intros c cin.
    unfold labelled in lab. rewrite Forall_forall in lab.
    apply lab. apply list_elem_of_In. apply list_elem_of_In in nin, cin.
    eapply PreOrderIter_children; eauto. }
  destruct (get_relevant_rejected_labelled (PreOrderIter tree) false false lab kids eq_refl)
    as [[rel rej] ->].
  simpl. destruct (precision_recall_fscore_support L rel rej).
  destruct (get_relevant_rejected_labelled (PreOrderIter tree) true false lab kids eq_refl)
    as [[orel orej] ->].
  simpl. destruct (precision_recall_fscore_support L orel orej).
  destruct (get_relevant_rejected_labelled (PreOrderIter tree) false true lab kids eq_refl)
    as [[brel brej] ->].
  simpl. destruct (precision_recall_fscore_support L brel brej).
  rewrite inter. simpl. eexists; reflexivity.
Qed.

(** C1 (amended).  When the interaction analysis is disabled, or enabled with
    no true positive among the tested pairs, the interaction precision and
    recall are (0, 0); the evaluation result then reports the interaction
    FDR as 1 - 0 = 1 and the interaction power as 0, whatever the relevance
    map, the feature-id map and the discovery trees, and [evaluate] returns
    on every labelled discovery tree. *)
Theorem interactions_fallback (L : Libs) args relevant_feature_map feature_id_map
  (tree interactions_tree : Node) :
  analyze_interactions args = false
  \/ (exists t, tally_loop relevant_feature_map feature_id_map
                  (children interactions_tree) no_tally = Ok t /\ tp t = 0) ->
  get_precision_recall_interactions args relevant_feature_map feature_id_map
    interactions_tree = Ok (0, 0)%Q
  /\ (forall res,
        evaluate L args relevant_feature_map feature_id_map tree interactions_tree
          = Ok res ->
        INTERACTIONS_FDR res = 1%Q /\ INTERACTIONS_POWER res = 0%Q)
  /\ (labelled (PreOrderIter tree) ->
      is_Ok (evaluate L args relevant_feature_map feature_id_map tree
               interactions_tree)).
Proof.
  intros fallback.
  assert (zero : get_precision_recall_interactions args relevant_feature_map
                   feature_id_map interactions_tree = Ok (0, 0)%Q).
  { unfold get_precision_recall_interactions.
    destruct (analyze_interactions args); [|reflexivity].
    destruct fallback as [?|(t & run & none)]; [discriminate|].
    simpl. rewrite run. simpl. rewrite none. reflexivity. }
  split; [exact zero|]. split.
  - intros res run. apply evaluate_interactions in run as (p & r & inter & -> & ->).
    rewrite zero in inter. injection inter as <- <-. split; reflexivity.
  - intros lab. apply evaluate_returns; [exact lab|]. rewrite zero.
    eexists; reflexivity.
Qed.

End evaluation.

Lemma interactions_fallback_witness :
  simulation.get_precision_recall_interactions (simulation.example_args true)
    simulation.example_map ∅ simulation.example_interactions = Ok (0, 0)%Q.
Proof.
  refine (proj1 (interactions_fallback simulation.example_libs
                   (simulation.example_args true) simulation.example_map ∅
                   simulation.skipped_level simulation.example_interactions _)).
  right. eexists. split; vm_compute; reflexivity.
Defined.

(** C1 (as stated) fails: with the interaction analysis disabled the
    evaluation result reports the interaction FDR as 1, not 0. *)
Lemma interactions_disabled_fdr_one :
  exists res,
    simulation.evaluate simulation.example_libs (simulation.example_args false)
      simulation.example_map ∅ simulation.skipped_level
      simulation.example_interactions = Ok res
    /\ simulation.INTERACTIONS_FDR res = 1%Q
    /\ simulation.INTERACTIONS_POWER res = 0%Q
    /\ ~ (simulation.INTERACTIONS_FDR res == 0)%Q.
Proof.
  eexists. split; [vm_compute; reflexivity|].
  split; [reflexivity|]. split; [reflexivity|]. discriminate.
Qed.

(** ** Hierarchies and contiguous names *)

Section hierarchy.

Import simulation.

Implicit Types (node root : Node) (feature_id_map : gmap nat nat).

Lemma mapM_state_unfold {A B S} (f : A -> S -> result (B * S))
  (a : A) (l : list A) (s : S) (r : list B * S) :
  mapM_state f (a :: l) s = Ok r ->
  exists b s1 bs s2,
    f a s = Ok (b, s1) /\ mapM_state f l s1 = Ok (bs, s2) /\ r = (b :: bs, s2).
Proof.
  simpl. destruct (f a s) as [[b s1]|]; [|discriminate].
  destruct (mapM_state f l s1) as [[bs s2]|] eqn:rest; [|discriminate].
  intros [= <-]. exists b, s1, bs, s2. auto.
Qed.

Lemma leaves_PostOrderIter node leaf :
  In leaf (leaves node) -> In leaf (PostOrderIter node).
Proof.
  induction node as [a cs IH] using Node_induction.
  destruct cs as [|c cs].
  - simpl. intros [<-|[]]. left. reflexivity.
  - change (leaves (mkNode a (c :: cs))) with (flat_map leaves (c :: cs)).
    intros lin. apply in_flat_map in lin as (k & kin & lin).
    change (In leaf (flat_map PostOrderIter (c :: cs) ++ [mkNode a (c :: cs)])).
    apply in_or_app. left. apply in_flat_map. exists k. split; [exact kin|].
    rewrite Forall_forall in IH. apply IH; [apply list_elem_of_In, kin|exact lin].
Qed.

Lemma renamed_list_step (cs : list Node) :
  Forall (fun c => forall i m c' j m',
            contiguous c (i, m) = Ok (c', (j, m')) -> renamed c i m c' j m') cs ->
  forall i m cs' j m',
    mapM_state contiguous cs (i, m) = Ok (cs', (j, m')) ->
    renamed_list cs i m cs' j m'.
Proof.
  induction 1 as [|c cs head _ IH]; intros i m cs' j m' run.
  - injection run as <- <- <-. split; simpl; auto; try constructor; lia.
  - apply mapM_state_unfold in run as (c' & [i1 m1] & cs1 & [j1 m1'] & first & rest & eq).
    injection eq as -> -> ->.
    apply head in first. apply IH in rest.
    destruct first as [next1 idx1 kept1 leaves1 count1 before1 [min1 own1]].
    destruct rest as [next2 idx2 kept2 leaves2 each2 before2 length2].
    split.
    + simpl. rewrite length_app. lia.
    + simpl. rewrite map_app, length_app, seq_app, map_app, idx1, idx2.
      rewrite <- next1. reflexivity.
    + intros k small. rewrite kept2 by lia. apply kept1, small.
    + simpl. apply Forall2_app; [|exact leaves2].
      eapply Forall2_impl; [exact leaves1|].
      intros leaf leaf' (original & k & feature & has & named & mapped & bound).
      exists original, k. rewrite kept2 by exact bound.
      repeat split; auto. lia.
    + constructor.
      * split; [exact count1|]. split; [exact min1|].
        exists (i1 - 1). split; [exact own1|].
        assert (0 < length (PostOrderIter c'))
          by (destruct c'; simpl; rewrite length_app; simpl; lia).
        lia.
      * exact each2.
    + simpl. apply Forall_app. auto.
    + simpl. congruence.
Qed.

Lemma contiguous_visit_internal (a : attrs) (c' : Node) (cs' : list Node)
  (i : nat) (m : gmap nat nat) node' st' :
  contiguous_visit a (c' :: cs') (i, m) = Ok (node', st') ->
  exists lo hi sizes nm,
    node' = mkNode (set_contiguous i lo hi (foldr Nat.add 0 sizes) nm a) (c' :: cs')
    /\ st' = (S i, m)
    /\ mapM_result (getattr num_base_features) (c' :: cs') = Ok sizes.
Proof.
  unfold contiguous_visit. intros run.
  destruct (mapM_result (getattr min_child_idx) (c' :: cs')) as [mins|]; [|discriminate].
  cbv beta iota delta [mbind result_bind] in run.
  destruct (min_nat mins) as [lo|]; [|discriminate].
  destruct (mapM_result (getattr idx) (c' :: cs')) as [idxs|]; [|discriminate].
  destruct (max_nat idxs) as [hi|]; [|discriminate].
  destruct (mapM_result (getattr num_base_features) (c' :: cs')) as [sizes|] eqn:reads;
    [|discriminate].
  injection run as <- <-. eauto 10.
Qed.

Lemma leaves_internal (a : attrs) (c : Node) (cs : list Node) :
  leaves (mkNode a (c :: cs)) = flat_map leaves (c :: cs).
Proof. reflexivity. Qed.

Lemma contiguous_renamed node :
  forall i m node' j m',
    contiguous node (i, m) = Ok (node', (j, m')) -> renamed node i m node' j m'.
Proof.
  induction node as [a cs IH] using Node_induction. intros i m node' j m' run.
  cbn [contiguous] in run.
  destruct (mapM_state contiguous cs (i, m)) as [[cs' [i1 m1]]|] eqn:kids;
    [|discriminate].
  apply (renamed_list_step cs IH) in kids.
  destruct kids as [next idxs kept leaves_ok each before same].
  destruct cs' as [|c' cs'].
  - destruct cs as [|c cs]; [|discriminate same]. simpl in next.
    unfold contiguous_visit in run.
    destruct (getattr static_indices _) as [static|] eqn:reads; [|discriminate].
    cbv beta iota delta [mbind result_bind] in run.
    destruct (int static) as [original|] eqn:parses; [|discriminate].
    injection run as <- <- <-.
    split; simpl.
    + lia.
    + replace i1 with i by lia. reflexivity.
    + intros k small. rewrite lookup_insert_ne by lia. apply kept, small.
    + repeat constructor. exists original, i1. unfold feature_of.
      change (getattr static_indices (mkNode a []))
        with (getattr static_indices
                (mkNode (set_contiguous i1 i1 i1 1 (str i1) a) [])).
      rewrite reads. simpl. rewrite lookup_insert_eq.
      repeat split; auto.
    + reflexivity.
    + repeat constructor. exists i1. split; [reflexivity|]. intros c [].
    + split; [eexists; reflexivity|]. f_equal. lia.
  - destruct cs as [|c cs]; [discriminate same|].
    apply contiguous_visit_internal in run
      as (lo & hi & sizes & nm & -> & [= -> ->] & reads).
    assert (total : foldr Nat.add 0 sizes = length (flat_map leaves (c' :: cs'))).
    { apply mapM_result_Forall2 in reads. clear -reads each.
      induction reads as [|k size ks sizes read _ IHreads]; [reflexivity|].
      inversion each as [|? ? (count & _) rest]; subst.
      unfold getattr in read. rewrite count in read. injection read as <-.
      simpl. rewrite length_app, IHreads by exact rest. reflexivity. }
    split.
    + cbn [PostOrderIter]. rewrite length_app. cbn [length]. lia.
    + cbn [PostOrderIter]. rewrite map_app, length_app, seq_app, map_app, idxs.
      cbn [length seq map]. rewrite <- next. reflexivity.
    + exact kept.
    + rewrite !leaves_internal. eapply Forall2_impl; [exact leaves_ok|].
      intros leaf leaf' (original & k & ?). exists original, k. intuition lia.
    + rewrite leaves_internal. simpl. f_equal. exact total.
    + cbn [PostOrderIter]. apply Forall_app. split; [exact before|].
      repeat constructor. exists i1. split; [reflexivity|].
      intros k kin. rewrite Forall_forall in each.
      destruct (each k) as (_ & _ & ik & has & bound); [apply list_elem_of_In, kin|].
      exists ik. auto.
    + split; [eexists; reflexivity|]. simpl. f_equal. lia.
Qed.

(** The renaming returns on every hierarchy whose leaves name a feature. *)
Lemma contiguous_returns node :
  (forall leaf, In leaf (leaves node) -> is_Ok (feature_of leaf)) ->
  forall st, is_Ok (contiguous node st).
Proof.
  induction node as [a cs IH] using Node_induction. intros named [i m].
  assert (kids : forall st, is_Ok (mapM_state contiguous cs st)).
  { assert (below : forall c, In c cs -> forall leaf, In leaf (leaves c) ->
                                         is_Ok (feature_of leaf)).
    { intros c cin leaf lin. apply named. destruct cs as [|c0 cs0]; [destruct cin|].
      rewrite leaves_internal. apply in_flat_map. eauto. }
    clear named. induction IH as [|c cs head _ IHcs]; intros st.
    - eexists; reflexivity.
    - destruct (head (fun leaf => below c (or_introl eq_refl) leaf) st) as [[c' st1] run].
      destruct (IHcs (fun k kin => below k (or_intror kin)) st1) as [[cs' st2] rest].
      simpl. rewrite run, rest. eexists; reflexivity. }
  destruct (kids (i, m)) as [[cs' [i1 m1]] run].
  cbn [contiguous]. rewrite run.
  assert (inv := renamed_list_step cs
                   (Forall_impl _ _ _ IH (fun c _ => contiguous_renamed c)) _ _ _ _ _ run).
  destruct inv as [_ _ _ _ each _ same].
  destruct cs' as [|c' cs'].
  - destruct cs as [|c cs]; [|discriminate same].
    destruct (named (mkNode a [])) as [original feature]; [left; reflexivity|].
    unfold feature_of in feature. unfold contiguous_visit.
    change (getattr static_indices (mkNode (set_contiguous i1 i1 i1 1 (str i1) a) []))
      with (getattr static_indices (mkNode a [])).
    destruct (getattr static_indices (mkNode a [])) as [static|]; [|discriminate].
    cbv beta iota delta [mbind result_bind] in feature |- *.
    rewrite feature. eexists; reflexivity.
  - unfold contiguous_visit.
    destruct (mapM_result_Ok (getattr min_child_idx) (c' :: cs')) as [mins reads1].
    { eapply Forall_impl; [exact each|]. intros k (_ & [lo has] & _).
      exists lo. apply getattr_Some, has. }
    destruct (mapM_result_Ok (getattr idx) (c' :: cs')) as [idxs reads2].
    { eapply Forall_impl; [exact each|]. intros k (_ & _ & ik & has & _).
      exists ik. apply getattr_Some, has. }
    destruct (mapM_result_Ok (getattr num_base_features) (c' :: cs')) as [sizes reads3].
    { eapply Forall_impl; [exact each|]. intros k (has & _).
      eexists. apply getattr_Some, has. }
    rewrite reads1. cbv beta iota delta [mbind result_bind].
    assert (exists lo, min_nat mins = Ok lo) as [lo ->].
    { apply mapM_result_Forall2 in reads1. inversion reads1; subst.
      eexists; reflexivity. }
    rewrite reads2.
    assert (exists hi, max_nat idxs = Ok hi) as [hi ->].
    { apply mapM_result_Forall2 in reads2. inversion reads2; subst.
      eexists; reflexivity. }
    rewrite reads3. eexists; reflexivity.
Qed.

(** *** The random hierarchy *)

(** A round of pairing keeps the leaves, in their order, and leaves no node
    out. *)
Lemma pair_up_leaves (nodes : list Node) (node_count : nat) :
  flat_map leaves (fst (pair_up node_count nodes)) = flat_map leaves nodes.
Proof.
  revert node_count. induction nodes as [nodes IH] using (induction_ltof1 _ (@length _)).
  unfold ltof in IH. intros node_count.
  destruct nodes as [|l [|r rest]]; simpl.
  - reflexivity.
  - rewrite !app_nil_r. reflexivity.
  - specialize (IH rest ltac:(simpl; lia) (S node_count)).
    destruct (pair_up (S node_count) rest) as [parents count]. simpl in *.
    rewrite IH, app_nil_r, app_assoc. reflexivity.
Qed.

Lemma pair_up_nonempty (nodes : list Node) (node_count : nat) :
  nodes <> [] -> fst (pair_up node_count nodes) <> [].
Proof.
  destruct nodes as [|l [|r rest]]; simpl; [congruence|discriminate|].
  destruct (pair_up (S node_count) rest). discriminate.
Qed.

Lemma pair_rounds_leaves (node_count : nat) (nodes : list Node) :
  flat_map leaves (pair_rounds node_count nodes) = flat_map leaves nodes.
Proof.
  funelim (pair_rounds node_count nodes).
  - rewrite H. apply pair_up_leaves.
  - reflexivity.
Qed.

Lemma pair_rounds_single (node_count : nat) (nodes : list Node) :
  nodes <> [] -> exists hierarchy_root, pair_rounds node_count nodes = [hierarchy_root].
Proof.
  funelim (pair_rounds node_count nodes); intros nonempty.
  - apply H. apply pair_up_nonempty, nonempty.
  - destruct nodes as [|node [|other rest]]; [congruence|eauto|simpl in n; lia].
Qed.

Lemma feature_leaves_are_leaves (l : list Node) (n : nat) :
  Permutation l (feature_leaves n) -> flat_map leaves l = l.
Proof.
  intros perm.
  assert (all : Forall (fun node => leaves node = [node]) l).
  { apply Forall_forall. intros node nin. apply list_elem_of_In in nin.
    apply (Permutation_in _ perm) in nin. unfold feature_leaves in nin.
    apply in_map_iff in nin as (i & <- & _). reflexivity. }
  clear perm. induction all as [|node l here _ IH]; [reflexivity|].
  simpl. rewrite here, IH. reflexivity.
Qed.

(** [gen_random_hierarchy] returns for at least one feature, and the leaves
    of its hierarchy are the shuffled feature leaves. *)
Lemma gen_random_hierarchy_leaves (L : Libs) (args : Args) (g : rng L) :
  LibsLaws L -> 0 < num_features args ->
  exists hierarchy_root,
    gen_random_hierarchy L args g = Ok (hierarchy_root, snd (shuffle L g (feature_leaves (num_features args))))
    /\ leaves hierarchy_root = fst (shuffle L g (feature_leaves (num_features args)))
    /\ Permutation (leaves hierarchy_root) (feature_leaves (num_features args)).
Proof.
  intros laws positive. unfold gen_random_hierarchy.
  pose proof (shuffle_Permutation L laws _ g (feature_leaves (num_features args))) as perm.
  destruct (shuffle L g (feature_leaves (num_features args))) as [nodes g1]. simpl in *.
  assert (nonempty : nodes <> []).
  { intros ->. apply Permutation_nil in perm. unfold feature_leaves in perm.
    apply (f_equal (@length _)) in perm. rewrite length_map, length_seq in perm.
    simpl in perm. lia. }
  destruct (pair_rounds_single (length nodes) nodes nonempty) as [hierarchy_root single].
  pose proof (pair_rounds_leaves (length nodes) nodes) as kept.
  rewrite single in *. simpl in kept. rewrite app_nil_r in kept.
  rewrite (feature_leaves_are_leaves _ _ perm) in kept.
  exists hierarchy_root. simpl. rewrite kept. auto.
Qed.

(** *** [gen_hierarchy] *)

Lemma build_hierarchy_flag (L : Libs) (args : Args) (b : bool)
  (data : matrix L) (g : rng L) :
  build_hierarchy L (set_contiguous_node_names b args) data g
  = build_hierarchy L args data g.
Proof. reflexivity. Qed.

Lemma gen_hierarchy_plain (L : Libs) (args : Args) (data : matrix L) (g : rng L) :
  gen_hierarchy L (set_contiguous_node_names false args) data g
  = match build_hierarchy L args data g with
    | Ok (hierarchy_root, g1) => Ok (hierarchy_root, ∅, g1)
    | Raise e => Raise e
    end.
Proof.
  unfold gen_hierarchy. rewrite build_hierarchy_flag.
  destruct (build_hierarchy L args data g) as [[root g1]|]; reflexivity.
Qed.

Lemma gen_hierarchy_contiguous (L : Libs) (args : Args) (data : matrix L) (g : rng L) :
  gen_hierarchy L (set_contiguous_node_names true args) data g
  = match build_hierarchy L args data g with
    | Ok (hierarchy_root, g1) =>
        match contiguous hierarchy_root (0, ∅) with
        | Ok (hierarchy_root', st) => Ok (hierarchy_root', snd st, g1)
        | Raise e => Raise e
        end
    | Raise e => Raise e
    end.
Proof.
  unfold gen_hierarchy. rewrite build_hierarchy_flag.
  destruct (build_hierarchy L args data g) as [[root g1]|]; [|reflexivity].
  simpl. destruct (contiguous root (0, ∅)) as [[root' st]|]; reflexivity.
Qed.

Lemma set_contiguous_node_names_id (args : Args) :
  set_contiguous_node_names (contiguous_node_names args) args = args.
Proof. destruct args. reflexivity. Qed.

(** C9.  When [gen_hierarchy] renames the nodes contiguously, the hierarchy
    it returns has, leaf for leaf, the leaves of the hierarchy it returns
    without renaming, and the feature-id map sends the new contiguous id of
    every leaf (its index and its name) to the original feature index of
    that leaf. *)
Theorem feature_id_map_roundtrip (L : Libs) (args : Args) (data : matrix L)
  (g g' : rng L) (root : Node) (feature_id_map : gmap nat nat) :
  gen_hierarchy L (set_contiguous_node_names true args) data g
    = Ok (root, feature_id_map, g') ->
  exists original_root,
    gen_hierarchy L (set_contiguous_node_names false args) data g
      = Ok (original_root, ∅, g')
    /\ Forall2 (fun leaf leaf' =>
                  exists original,
                    feature_of leaf = Ok original
                    /\ leaf_mapped feature_id_map original leaf')
         (leaves original_root) (leaves root).
Proof.
  rewrite gen_hierarchy_contiguous, gen_hierarchy_plain.
  destruct (build_hierarchy L args data g) as [[root0 g1]|]; [|discriminate].
  destruct (contiguous root0 (0, ∅)) as [[root' [j m]]|] eqn:run; [|discriminate].
  intros [= -> <- ->]. exists root0. split; [reflexivity|].
  apply contiguous_renamed in run. destruct run as [_ _ _ mapped _ _ _].
  eapply Forall2_impl; [exact mapped|].
  intros leaf leaf' (original & k & feature & has & named & looked & _).
  exists original. split; [exact feature|]. exists k. auto.
Qed.

End hierarchy.

(** ** The hierarchy of the clusters *)

Section clusters.

Import simulation.

Implicit Types (nodes : list Node) (free : list nat) (rows rest : list (nat * nat)).

Lemma named_later_false (i : nat) rest :
  i ∉ named rest -> named_later i rest = false.
Proof.
  unfold named_later, named. induction rest as [|[l r] rest IH]; [reflexivity|].
  simpl. rewrite !not_elem_of_cons. intros (nl & nr & later).
  rewrite IH by exact later.
  destruct (Nat.eqb_spec l i); [congruence|].
  destruct (Nat.eqb_spec r i); [congruence|]. reflexivity.
Qed.

Lemma leaves_at_app nodes (node : Node) (i : nat) :
  i < length nodes -> leaves_at (nodes ++ [node]) i = leaves_at nodes i.
Proof. intros small. unfold leaves_at. rewrite lookup_app_l by exact small. reflexivity. Qed.

Lemma leaves_at_new nodes (node : Node) :
  leaves_at (nodes ++ [node]) (length nodes) = leaves node.
Proof.
  unfold leaves_at. rewrite lookup_app_r by lia.
  rewrite Nat.sub_diag. reflexivity.
Qed.

Lemma flat_map_leaves_at_app nodes (node : Node) free :
  (forall i, i ∈ free -> i < length nodes) ->
  flat_map (leaves_at (nodes ++ [node])) free = flat_map (leaves_at nodes) free.
Proof.
  induction free as [|i free IH]; intros range; [reflexivity|].
  simpl. rewrite leaves_at_app, IH.
  - reflexivity.
  - intros k kin. apply range. right. exact kin.
  - apply range. left.
Qed.

Lemma forest_step (n idx : nat) nodes free (l r : nat) rest :
  forest n nodes free ((l, r) :: rest) ->
  exists left_node right_node free',
    nodes !! l = Some left_node /\ nodes !! r = Some right_node
    /\ named_later l rest = false
    /\ (Nat.eqb r l || named_later r rest = false)
    /\ forest n (nodes ++ [mkNode (new_attrs (str (idx + n)) None)
                             [left_node; right_node]]) free' rest.
Proof.
  intros [nodup range is_free rest_nodup bounds perm count last_free].
  simpl in rest_nodup. apply NoDup_cons in rest_nodup as [l_once rest_nodup].
  apply NoDup_cons in rest_nodup as [r_once rest_nodup].
  apply not_elem_of_cons in l_once as [l_r l_once].
  destruct (bounds 0 (l, r) eq_refl) as [l_small r_small]. simpl in l_small, r_small.
  rewrite Nat.add_0_r in l_small, r_small.
  assert (l_free : l ∈ free) by (apply is_free; [simpl; left|exact l_small]).
  assert (r_free : r ∈ free) by (apply is_free; [simpl; right; left|exact r_small]).
  destruct (lookup_lt_is_Some_2 nodes l l_small) as [left_node at_l].
  destruct (lookup_lt_is_Some_2 nodes r r_small) as [right_node at_r].
  apply elem_of_Permutation in l_free as [free1 split1].
  assert (r_free1 : r ∈ free1).
  { rewrite split1 in r_free. apply elem_of_cons in r_free as [->|?]; [congruence|assumption]. }
  apply elem_of_Permutation in r_free1 as [free2 split2].
  assert (split : free ≡ₚ l :: r :: free2) by (rewrite split1, split2; reflexivity).
  exists left_node, right_node, (length nodes :: free2).
  split; [exact at_l|]. split; [exact at_r|].
  split; [apply named_later_false, l_once|].
  split.
  { rewrite (named_later_false _ _ r_once).
    destruct (Nat.eqb_spec r l); [congruence|reflexivity]. }
  assert (nodup2 : NoDup (l :: r :: free2)) by (rewrite <- split; exact nodup).
  apply NoDup_cons in nodup2 as [l_out nodup2].
  apply NoDup_cons in nodup2 as [r_out nodup2].
  assert (range2 : forall i, i ∈ free2 -> i < length nodes).
  { intros i iin. apply range. rewrite split. do 2 right. exact iin. }
  split.
  - apply NoDup_cons. split; [|exact nodup2].
    intros bad. apply range2 in bad. lia.
  - intros i iin. rewrite length_app. simpl.
    apply elem_of_cons in iin as [->|iin]; [lia|]. apply range2 in iin. lia.
  - intros i inamed small. rewrite length_app in small. simpl in small.
    destruct (decide (i = length nodes)) as [->|other]; [left|right].
    assert (i ∈ free) by (apply is_free; [simpl; do 2 right; exact inamed|lia]).
    rewrite split in H. apply elem_of_cons in H as [->|H]; [contradiction|].
    apply elem_of_cons in H as [->|H]; [contradiction|exact H].
  - exact rest_nodup.
  - intros j row at_j. rewrite length_app. simpl.
    destruct (bounds (S j) row at_j). lia.
  - cbn [flat_map]. rewrite leaves_at_new, flat_map_leaves_at_app by exact range2.
    rewrite <- perm, split. cbn [flat_map].
    assert (leaves_at nodes l = leaves left_node) as ->
      by (unfold leaves_at; rewrite at_l; reflexivity).
    assert (leaves_at nodes r = leaves right_node) as ->
      by (unfold leaves_at; rewrite at_r; reflexivity).
    rewrite leaves_internal. cbn [flat_map].
    rewrite app_nil_r, app_assoc. reflexivity.
  - simpl. apply Permutation_length in split. simpl in *. lia.
  - rewrite length_app. simpl. replace (length nodes + 1 - 1) with (length nodes) by lia.
    left.
Qed.

Lemma clusters_loop_forest (n : nat) rest :
  forall idx nodes free,
    forest n nodes free rest ->
    exists nodes' hierarchy_root,
      clusters_loop n idx nodes rest = Ok nodes'
      /\ last nodes' = Some hierarchy_root
      /\ Permutation (leaves hierarchy_root) (feature_leaves n).
Proof.
  induction rest as [|[l r] rest IH]; intros idx nodes free inv.
  - destruct inv as [_ range _ _ _ perm count last_free].
    destruct free as [|i [|k free]]; try discriminate count.
    apply list_elem_of_singleton in last_free. subst i.
    assert (length nodes - 1 < length nodes) by (apply range; left).
    destruct (lookup_lt_is_Some_2 nodes (length nodes - 1) H) as [root at_last].
    exists nodes, root. split; [reflexivity|].
    split; [rewrite last_lookup; replace (pred (length nodes)) with (length nodes - 1) by lia;
            exact at_last|].
    simpl in perm. unfold leaves_at in perm. rewrite at_last, app_nil_r in perm.
    exact perm.
  - destruct (forest_step n idx nodes free l r rest inv)
      as (left_node & right_node & free' & at_l & at_r & l_once & r_once & inv').
    destruct (IH (S idx) _ _ inv') as (nodes' & root & run & at_last & perm).
    exists nodes', root. split; [|auto].
    cbn [clusters_loop]. unfold getitem. rewrite at_l, at_r.
    cbv beta iota delta [mbind result_bind]. rewrite l_once.
    apply orb_false_iff in r_once as [-> ->]. exact run.
Qed.

Lemma feature_leaves_lookup (n i : nat) :
  i < n ->
  feature_leaves n !! i = Some (mkNode (new_attrs (str i) (Some (str i))) []).
Proof.
  intros small. unfold feature_leaves. rewrite list_lookup_fmap.
  rewrite lookup_seq_lt by exact small. reflexivity.
Qed.

Lemma forest_start (n : nat) rows :
  valid_linkage n rows -> forest n (feature_leaves n) (seq 0 n) rows.
Proof.
  intros (count & nodup & bounds).
  assert (size : length (feature_leaves n) = n)
    by (unfold feature_leaves; rewrite length_map, length_seq; reflexivity).
  split.
  - apply NoDup_seq.
  - intros i iin. apply elem_of_seq in iin. lia.
  - intros i _ small. apply elem_of_seq. lia.
  - exact nodup.
  - intros j row at_j. rewrite size. apply (bounds j row at_j).
  - assert (same : forall k m, k + m <= n ->
               flat_map (leaves_at (feature_leaves n)) (seq k m)
               = map (fun idx => mkNode (new_attrs (str idx) (Some (str idx))) [])
                     (seq k m)).
    { intros k m. revert k. induction m as [|m IHm]; intros k fits; [reflexivity|].
      simpl. unfold leaves_at at 1. rewrite feature_leaves_lookup by lia.
      simpl. f_equal. apply IHm. lia. }
    rewrite same by lia. reflexivity.
  - rewrite length_seq. symmetry. exact count.
  - rewrite size. apply elem_of_seq. lia.
Qed.

(** Over a valid linkage matrix [gen_hierarchy_from_clusters] returns a
    hierarchy whose leaves are the feature leaves, each once. *)
Lemma gen_hierarchy_from_clusters_leaves (args : Args) rows :
  valid_linkage (num_features args) rows ->
  exists hierarchy_root,
    gen_hierarchy_from_clusters args rows = Ok hierarchy_root
    /\ Permutation (leaves hierarchy_root) (feature_leaves (num_features args)).
Proof.
  intros valid. apply forest_start in valid.
  destruct (clusters_loop_forest _ _ 0 _ _ valid) as (nodes' & root & run & at_last & perm).
  exists root. unfold gen_hierarchy_from_clusters. rewrite run. simpl.
  rewrite at_last. auto.
Qed.

Lemma feature_leaves_named (n : nat) (leaf : Node) :
  In leaf (feature_leaves n) -> exists i, i < n /\ feature_of leaf = Ok i.
Proof.
  unfold feature_leaves. intros lin. apply in_map_iff in lin as (i & <- & iin).
  apply in_seq in iin. exists i. split; [lia|].
  unfold feature_of, getattr. simpl. apply int_str.
Qed.

(** Both builders return a hierarchy whose leaves are the feature leaves,
    each once. *)
Lemma build_hierarchy_leaves (L : Libs) (args : Args) (data : matrix L) (g : rng L) :
  LibsLaws L ->
  (hierarchy_type args = constants.RANDOM /\ 0 < num_features args)
  \/ (hierarchy_type args = constants.CLUSTER_FROM_DATA
      /\ valid_clusters L data (num_features args)) ->
  exists hierarchy_root g1,
    build_hierarchy L args data g = Ok (hierarchy_root, g1)
    /\ Permutation (leaves hierarchy_root) (feature_leaves (num_features args)).
Proof.
  intros laws [[random positive]|[clustered valid]]; unfold build_hierarchy.
  - rewrite random. simpl.
    destruct (gen_random_hierarchy_leaves L args g laws positive)
      as (root & run & _ & perm).
    rewrite run. eauto.
  - rewrite clustered. simpl.
    destruct valid as (clusters & linked & valid). rewrite linked. simpl.
    destruct (gen_hierarchy_from_clusters_leaves args _ valid) as (root & run & perm).
    rewrite run. simpl. eauto.
Qed.

(** C8 (amended).  With contiguous node names enabled, for every hierarchy
    built over N features (at random for N > 0, or from a valid linkage
    matrix) [gen_hierarchy] returns a root whose [num_base_features] is N;
    the loop that computes the derived statistics numbers the nodes 0, 1,
    2, ... along the post-order, each node once, and every child gets a
    smaller index than its parent. *)
Theorem hierarchy_stats (L : Libs) (args : Args) (data : matrix L) (g : rng L) :
  LibsLaws L ->
  (hierarchy_type args = constants.RANDOM /\ 0 < num_features args)
  \/ (hierarchy_type args = constants.CLUSTER_FROM_DATA
      /\ valid_clusters L data (num_features args)) ->
  exists root feature_id_map g',
    gen_hierarchy L (set_contiguous_node_names true args) data g
      = Ok (root, feature_id_map, g')
    /\ num_base_features (attrs_of root) = Some (num_features args)
    /\ map (fun node => idx (attrs_of node)) (PostOrderIter root)
       = map Some (seq 0 (length (PostOrderIter root)))
    /\ Forall children_before (PostOrderIter root).
Proof.
  intros laws built.
  destruct (build_hierarchy_leaves L args data g laws built) as (root0 & g1 & run & perm).
  assert (named_leaves : forall leaf, In leaf (leaves root0) -> is_Ok (feature_of leaf)).
  { intros leaf lin. apply (Permutation_in _ perm) in lin.
    apply feature_leaves_named in lin as (i & _ & feature). exists i. exact feature. }
  destruct (contiguous_returns root0 named_leaves (0, ∅)) as [[root [j m]] renaming].
  exists root, m, g1. rewrite gen_hierarchy_contiguous, run, renaming.
  split; [reflexivity|].
  apply contiguous_renamed in renaming.
  destruct renaming as [_ idxs _ mapped count before _].
  split; [|split; [exact idxs|exact before]].
  rewrite count. f_equal. apply Forall2_length in mapped. rewrite <- mapped.
  apply Permutation_length in perm. rewrite perm.
  unfold feature_leaves. rewrite length_map, length_seq. reflexivity.
Qed.

End clusters.

(** The example libraries obey the laws. *)
Lemma example_libs_laws : simulation.LibsLaws simulation.example_libs.
Proof.
  split.
  - intros A g l. simpl. symmetry. apply Permutation_rev.
  - intros A g l k v. simpl. rewrite <- !list_elem_of_In. apply subseteq_take.
  - intros g n. simpl. apply repeat_length.
Qed.

(** A valid linkage matrix over four observations. *)
Example linkage_of_four : simulation.valid_linkage 4 [(0, 1); (2, 3); (4, 5)].
Proof.
  split; [reflexivity|]. split.
  - simpl. apply (bool_decide_unpack _). vm_compute. exact I.
  - intros [|[|[|j]]] row; simpl; intros [= <-]; simpl; lia.
Qed.

Lemma feature_id_map_roundtrip_witness :
  exists root feature_id_map g' original_root,
    simulation.gen_hierarchy simulation.example_libs
      (simulation.set_contiguous_node_names true (simulation.example_args false))
      [] 0 = Ok (root, feature_id_map, g')
    /\ simulation.gen_hierarchy simulation.example_libs
         (simulation.set_contiguous_node_names false (simulation.example_args false))
         [] 0 = Ok (original_root, ∅, g')
    /\ Forall2 (fun leaf leaf' =>
                  exists original,
                    simulation.feature_of leaf = Ok original
                    /\ simulation.leaf_mapped feature_id_map original leaf')
         (simulation.leaves original_root) (simulation.leaves root).
Proof.
  eexists. eexists. eexists.
  assert (run : simulation.gen_hierarchy simulation.example_libs
                  (simulation.set_contiguous_node_names true
                     (simulation.example_args false)) [] 0 = Ok (?[root], ?[map], ?[g]))
    by (vm_compute; reflexivity).
  destruct (feature_id_map_roundtrip simulation.example_libs
              (simulation.example_args false) [] 0 _ _ _ run) as (original_root & plain & same).
  exists original_root. split; [exact run|]. split; [exact plain|exact same].
Defined.

Lemma hierarchy_stats_witness :
  exists root feature_id_map g',
    simulation.gen_hierarchy simulation.example_libs
      (simulation.set_contiguous_node_names true (simulation.example_args false))
      [] 0 = Ok (root, feature_id_map, g')
    /\ simulation.num_base_features (simulation.attrs_of root) = Some 4
    /\ map (fun node => simulation.idx (simulation.attrs_of node))
         (simulation.PostOrderIter root)
       = map Some (seq 0 (length (simulation.PostOrderIter root)))
    /\ Forall simulation.children_before (simulation.PostOrderIter root).
Proof.
  apply (hierarchy_stats simulation.example_libs (simulation.example_args false) [] 0).
  - exact example_libs_laws.
  - left. split; [reflexivity|simpl; lia].
Defined.

(** C8 (as stated) fails: without contiguous node names the root of the
    hierarchy built over four features carries no [num_base_features]. *)
Lemma plain_names_no_stats :
  exists root feature_id_map g',
    simulation.gen_hierarchy simulation.example_libs (simulation.example_args false)
      [] 0 = Ok (root, feature_id_map, g')
    /\ simulation.num_base_features (simulation.attrs_of root) = None
    /\ simulation.num_base_features (simulation.attrs_of root)
       <> Some (simulation.num_features (simulation.example_args false)).
Proof.
  eexists. eexists. eexists. split; [vm_compute; reflexivity|].
  split; [reflexivity|discriminate].
Qed.
(** ** The relevance map *)

Section relevance_map.

Import simulation.

Implicit Types (m : gmap (gset nat) Q) (relevant : gset nat) (args : Args).

Lemma combinations2_members {A} (l : list A) (a b : A) :
  In (a, b) (combinations2 l) -> In a l /\ In b l /\ (NoDup l -> a <> b).
Proof.
  induction l as [|c l IH]; simpl; [intros []|].
  rewrite in_app_iff, in_map_iff. intros [(k & [= <- <-] & kin)|later].
  - split; [left; reflexivity|]. split; [right; exact kin|].
    intros nodup eq. apply NoDup_cons in nodup as [fresh _].
    apply fresh. rewrite eq. apply list_elem_of_In, kin.
  - destruct (IH later) as (ain & bin & distinct).
    split; [right; exact ain|]. split; [right; exact bin|].
    intros nodup. apply distinct. apply NoDup_cons in nodup. tauto.
Qed.

Lemma sorted_members (s : gset nat) (i : nat) : In i (sorted s) <-> i ∈ s.
Proof.
  unfold sorted. rewrite <- list_elem_of_In, merge_sort_Permutation.
  apply elem_of_elements.
Qed.

Lemma sorted_NoDup (s : gset nat) : NoDup (sorted s).
Proof. unfold sorted. rewrite merge_sort_Permutation. apply NoDup_elements. Qed.

(** The keys the interaction loop adds are the frozensets of its pairs. *)
Lemma interaction_loop_keys (L : Libs) (sym_features : list symbol)
  (pairs : list (nat * nat)) m (poly : expr) (g : rng L) m' poly' g' :
  interaction_loop L sym_features pairs m poly g = Ok (m', poly', g') ->
  forall key, key ∈ dom m' ->
    key ∈ dom m \/ exists a b, In (a, b) pairs /\ key = {[a; b]}.
Proof.
  revert m poly g. induction pairs as [|[a b] pairs IH]; intros m poly g run key kin.
  - injection run as <- <- <-. left. exact kin.
  - cbn [interaction_loop] in run. destruct (uniform L g) as [coefficient g1].
    destruct (getitem sym_features a) as [xa|]; [|discriminate].
    destruct (getitem sym_features b) as [xb|]; [|discriminate].
    cbv beta iota delta [mbind result_bind] in run.
    destruct (IH _ _ _ run key kin) as [old|(a' & b' & pin & ->)].
    + rewrite dom_insert in old. apply elem_of_union in old as [new|old].
      * apply elem_of_singleton in new. right. exists a, b. split; [left; reflexivity|exact new].
      * left. exact old.
    + right. exists a', b'. split; [right; exact pin|reflexivity].
Qed.

(** [update_interaction_terms] by cases: the non-zero float, no interaction
    to draw, and the loop over the pairs drawn. *)
Lemma update_interaction_terms_cases (L : Libs) args relevant m
  (sym_features : list symbol) (poly : expr) (g : rng L) :
  update_interaction_terms L args relevant m sym_features poly g =
  if too_many_interactions args relevant then Raise TypeError
  else if Nat.eqb (num_interactions args) 0
          || Nat.eqb (num_pairs (size relevant)) 0
       then Ok (m, poly, g)
       else
         let '(interaction_pairs, g1) :=
           choice L g (combinations2 (sorted relevant)) (num_interactions args) in
         interaction_loop L sym_features interaction_pairs m poly g1.
Proof.
  unfold update_interaction_terms, too_many_interactions.
  destruct (Nat.ltb_spec (num_pairs (size relevant)) (num_interactions args))
    as [more|enough].
  - destruct (Nat.eqb_spec (num_pairs (size relevant)) 0) as [none|some].
    + rewrite none. simpl. rewrite orb_true_r. reflexivity.
    + destruct (Nat.ltb_spec 0 (num_pairs (size relevant))); [reflexivity|lia].
  - rewrite andb_false_r.
    destruct (Nat.eqb_spec (num_interactions args) 0) as [none|some];
      [reflexivity|].
    destruct (Nat.eqb_spec (num_pairs (size relevant)) 0); [lia|reflexivity].
Qed.

Lemma update_interaction_terms_Ok (L : Libs) args relevant m
  (sym_features : list symbol) (poly : expr) (g : rng L) m' poly' g' :
  update_interaction_terms L args relevant m sym_features poly g = Ok (m', poly', g') ->
  (m' = m /\ poly' = poly /\ g' = g)
  \/ (let '(interaction_pairs, g1) :=
        choice L g (combinations2 (sorted relevant)) (num_interactions args) in
      interaction_loop L sym_features interaction_pairs m poly g1)
     = Ok (m', poly', g').
Proof.
  rewrite update_interaction_terms_cases.
  destruct (too_many_interactions args relevant); [discriminate|].
  destruct (_ || _); [|auto].
  intros [= <- <- <-]. auto.
Qed.

(** Every key [update_interaction_terms] adds is a pair of two different
    relevant features. *)
Lemma update_interaction_terms_keys (L : Libs) args relevant m
  (sym_features : list symbol) (poly : expr) (g : rng L) m' poly' g' :
  LibsLaws L ->
  update_interaction_terms L args relevant m sym_features poly g = Ok (m', poly', g') ->
  forall key, key ∈ dom m' ->
    key ∈ dom m
    \/ exists a b, key = {[a; b]} /\ a <> b /\ a ∈ relevant /\ b ∈ relevant.
Proof.
  intros laws run key kin. apply update_interaction_terms_Ok in run as [same|run].
  - destruct same as (<- & _). left. exact kin.
  - match type of run with
    | context [choice L g ?population ?k] =>
        pose proof (choice_subset L laws _ g population k) as drawn;
        destruct (choice L g population k) as [pairs g1]
    end.
    simpl in drawn.
    destruct (interaction_loop_keys L _ _ _ _ _ _ _ _ run key kin)
      as [old|(a & b & pin & ->)]; [left; exact old|].
    right. exists a, b. split; [reflexivity|].
    specialize (drawn (a, b) pin).
    apply combinations2_members in drawn as (ain & bin & distinct).
    rewrite sorted_members in ain, bin.
    split; [apply distinct, sorted_NoDup|]. auto.
Qed.

(** The keys the loop of [update_linear_terms] adds are the singletons of
    the linear features. *)
Lemma linear_keys (coefficients : list Q) (linear_features : list nat) m :
  forall key,
    key ∈ dom (foldl (fun m linear_feature =>
                        <[ ({[linear_feature]} : gset nat)
                           := coefficients !!! linear_feature ]> m)
                     m linear_features)
    <-> key ∈ dom m \/ exists f, In f linear_features /\ key = {[f]}.
Proof.
  revert m. induction linear_features as [|f fs IH]; intros m key; simpl.
  - split; [auto|]. intros [old|(f & [] & _)]. exact old.
  - rewrite IH, dom_insert, elem_of_union, elem_of_singleton. split.
    + intros [[->|old]|(k & kin & ->)]; eauto.
    + intros [old|(k & [<-|kin] & ->)]; eauto.
Qed.

Lemma update_linear_terms_keys (L : Libs) args relevant m
  (sym_features : list symbol) (poly : expr) (g : rng L) m' poly' g' :
  update_linear_terms L args relevant m sym_features poly g = Ok (m', poly', g') ->
  forall key,
    key ∈ dom m' <->
    key ∈ dom m
    \/ exists f, key = {[f]} /\ f ∈ relevant
                 /\ ~ In f (fst (interaction_only_features L args m g)).
Proof.
  unfold update_linear_terms. intros run key.
  destruct (interaction_only_features L args m g) as [interaction_only g1].
  destruct (uniform_size L g1 _) as [values g2].
  destruct (assign_at _ _ values) as [coefficients|]; [|discriminate].
  cbv beta iota delta [mbind result_bind] in run. injection run as <- _ _.
  rewrite linear_keys. simpl. split.
  - intros [old|(f & fin & ->)]; [left; exact old|right].
    exists f. split; [reflexivity|]. apply sorted_members in fin.
    apply elem_of_difference in fin as [fin out].
    split; [exact fin|]. intros bad. apply out, elem_of_list_to_set, list_elem_of_In, bad.
  - intros [old|(f & -> & fin & out)]; [left; exact old|right].
    exists f. split; [|reflexivity]. apply sorted_members.
    apply elem_of_difference. split; [exact fin|].
    intros bad. apply out, list_elem_of_In. apply elem_of_list_to_set in bad. exact bad.
Qed.

Lemma size_pair (a b : nat) : a <> b -> size ({[a; b]} : gset nat) = 2.
Proof.
  intros distinct. rewrite size_union by set_solver.
  rewrite !size_singleton. reflexivity.
Qed.

(** *** The synthesis returns *)

Lemma interaction_loop_returns (L : Libs) (sym_features : list symbol)
  (pairs : list (nat * nat)) m (poly : expr) (g : rng L) :
  Forall (fun p => fst p < length sym_features /\ snd p < length sym_features) pairs ->
  is_Ok (interaction_loop L sym_features pairs m poly g).
Proof.
  intros bounds. revert m poly g.
  induction bounds as [|[a b] pairs [alt blt] _ IH]; intros m poly g.
  - eexists; reflexivity.
  - cbn [interaction_loop]. destruct (uniform L g) as [coefficient g1].
    simpl in alt, blt. unfold getitem.
    destruct (lookup_lt_is_Some_2 _ _ alt) as [xa ->].
    destruct (lookup_lt_is_Some_2 _ _ blt) as [xb ->].
    cbv beta iota delta [mbind result_bind]. apply IH.
Qed.

Lemma sym_features_length args : length (sym_features_of args) = num_features args.
Proof. unfold sym_features_of. rewrite length_map, length_seq. reflexivity. Qed.

Lemma update_interaction_terms_returns (L : Libs) args relevant m
  (poly : expr) (g : rng L) :
  LibsLaws L ->
  (forall i, i ∈ relevant -> i < num_features args) ->
  too_many_interactions args relevant = false ->
  is_Ok (update_interaction_terms L args relevant m (sym_features_of args) poly g).
Proof.
  intros laws bounds enough. rewrite update_interaction_terms_cases, enough.
  destruct (_ || _); [eexists; reflexivity|].
  match goal with
  | |- context [choice L g ?population ?k] =>
      pose proof (choice_subset L laws _ g population k) as subset;
      destruct (choice L g population k) as [pairs g1]
  end.
  apply interaction_loop_returns. apply Forall_forall. intros [a b] pin.
  apply list_elem_of_In in pin.
  apply subset, combinations2_members in pin as (ain & bin & _).
  apply sorted_members in ain, bin. rewrite sym_features_length.
  split; apply bounds; assumption.
Qed.

Lemma update_linear_terms_returns (L : Libs) args relevant m
  (sym_features : list symbol) (poly : expr) (g : rng L) :
  (forall i, i ∈ relevant -> i < num_features args) ->
  is_Ok (update_linear_terms L args relevant m sym_features poly g).
Proof.
  intros bounds. unfold update_linear_terms.
  destruct (interaction_only_features L args m g) as [interaction_only g1].
  destruct (uniform_size L g1 _) as [values g2].
  unfold assign_at.
  match goal with
  | |- context [forallb ?f ?l] => assert (inside : forallb f l = true)
  end.
  { apply forallb_forall. intros i iin. apply Nat.ltb_lt.
    rewrite length_replicate. apply bounds.
    apply sorted_members, elem_of_difference in iin as [iin _]. exact iin. }
  rewrite inside. cbv beta iota delta [mbind result_bind]. eexists; reflexivity.
Qed.

(** [gen_polynomial] returns for each of the three noise types when the
    relevant features are features of the model and no more interactions
    are asked for than they have pairs. *)
Lemma gen_polynomial_returns (L : Libs) args relevant (g : rng L) :
  LibsLaws L ->
  (forall i, i ∈ relevant -> i < num_features args) ->
  too_many_interactions args relevant = false ->
  In (noise_type args)
     [constants.NO_NOISE; constants.EPSILON_IRRELEVANT; constants.ADDITIVE_GAUSSIAN] ->
  is_Ok (gen_polynomial L args relevant g).
Proof.
  intros laws bounds enough known. unfold gen_polynomial.
  destruct (update_interaction_terms_returns L args relevant ∅ [] g laws bounds enough)
    as [[[m1 poly1] g1] ->].
  cbv beta iota delta [mbind result_bind].
  destruct (update_linear_terms_returns L args relevant m1 (sym_features_of args)
              poly1 g1 bounds) as [[[m2 poly2] g2] ->].
  cbv beta iota delta [mbind result_bind].
  destruct known as [<-|[<-|[<-|[]]]]; eexists; reflexivity.
Qed.

(** C6.  In every relevance map [gen_polynomial] synthesizes, each member
    of a key of size 2 is the key of a linear term or one of the
    interaction-only features drawn by [update_linear_terms], and no
    interaction-only feature is the key of a linear term. *)
Theorem relevance_map_members (L : Libs) args relevant (g : rng L)
  vars m (polynomial_fn : expr) g' :
  LibsLaws L ->
  gen_polynomial L args relevant g = Ok (vars, m, polynomial_fn, g') ->
  members_accounted L args relevant g m.
Proof.
  intros laws run. unfold gen_polynomial in run.
  destruct (update_interaction_terms L args relevant ∅ _ [] g)
    as [[[m1 poly1] g1]|] eqn:first; [|discriminate].
  cbv beta iota delta [mbind result_bind] in run.
  destruct (update_linear_terms L args relevant m1 _ poly1 g1)
    as [[[m2 poly2] g2]|] eqn:second; [|discriminate].
  cbv beta iota delta [mbind result_bind] in run.
  assert (m = m2) as ->.
  { destruct (String.eqb _ constants.NO_NOISE); [injection run; congruence|].
    destruct (String.eqb _ constants.EPSILON_IRRELEVANT); [injection run; congruence|].
    destruct (String.eqb _ constants.ADDITIVE_GAUSSIAN); [injection run; congruence|].
    discriminate. }
  exists m1, poly1, g1. split; [exact first|]. simpl.
  pose proof (update_interaction_terms_keys L _ _ _ _ _ _ _ _ _ laws first) as pairs.
  pose proof (update_linear_terms_keys L _ _ _ _ _ _ _ _ _ second) as keys.
  assert (pair_key : forall key, key ∈ dom m1 ->
            exists a b, key = {[a; b]} /\ a <> b /\ a ∈ relevant /\ b ∈ relevant).
  { intros key kin. destruct (pairs key kin) as [empty|found]; [|exact found].
    rewrite dom_empty in empty. apply not_elem_of_empty in empty as []. }
  split.
  - intros key kin two f fin. apply keys in kin as [kin|(k & -> & _)].
    + destruct (pair_key key kin) as (a & b & -> & distinct & ain & bin).
      assert (f ∈ relevant)
        by (apply elem_of_union in fin as [e|e]; apply elem_of_singleton in e;
            subst f; assumption).
      destruct (in_dec Nat.eq_dec f (fst (interaction_only_features L args m1 g1)))
        as [only|linear]; [right; exact only|left].
      apply keys. right. exists f. auto.
    + rewrite size_singleton in two. discriminate.
  - intros f only fkey. apply keys in fkey as [kin|(k & eq & _ & linear)].
    + destruct (pair_key _ kin) as (a & b & eq & distinct & _).
      apply (f_equal size) in eq. rewrite size_singleton, size_pair in eq by exact distinct.
      discriminate.
    + apply singleton_inj in eq. subst k. contradiction.
Qed.

End relevance_map.

Lemma relevance_map_members_witness :
  match simulation.gen_polynomial simulation.example_libs
          (simulation.example_args false) {[0; 1; 3]} 0 with
  | Ok (_, m, _, _) =>
      simulation.members_accounted simulation.example_libs
        (simulation.example_args false) {[0; 1; 3]} 0 m
  | Raise _ => False
  end.
Proof.
  destruct (simulation.gen_polynomial simulation.example_libs
              (simulation.example_args false) {[0; 1; 3]} 0)
    as [[[[vars m] polynomial_fn] g']|e] eqn:run.
  - exact (relevance_map_members simulation.example_libs
             (simulation.example_args false) {[0; 1; 3]} 0 _ _ _ _
             example_libs_laws run).
  - discriminate run.
Defined.
(** ** More on the ground-truth polynomial *)

Section polynomial.

Import simulation.

Implicit Types (m : gmap (gset nat) Q) (relevant : gset nat) (args : Args).

(** The two stages of [gen_polynomial] and the noise it adds last. *)
Lemma gen_polynomial_unfold (L : Libs) args relevant (g : rng L)
  vars m (polynomial_fn : expr) g' :
  gen_polynomial L args relevant g = Ok (vars, m, polynomial_fn, g') ->
  exists m1 poly1 g1 sym_noise sym_model_fn,
    update_interaction_terms L args relevant ∅ (sym_features_of args) [] g
      = Ok (m1, poly1, g1)
    /\ update_linear_terms L args relevant m1 (sym_features_of args) poly1 g1
       = Ok (m, polynomial_fn, g')
    /\ vars = (sym_features_of args, sym_noise, sym_model_fn)
    /\ ((noise_type args = constants.NO_NOISE /\ sym_model_fn = polynomial_fn)
        \/ (noise_type args = constants.EPSILON_IRRELEVANT
            /\ sym_model_fn
               = polynomial_fn ++
                 zip_with (fun ns xi => (fst ns, [snd ns; xi]))
                   (zip (map (fun i => if bool_decide (i ∈ relevant) then 0%Q else 1%Q)
                           (seq 0 (num_features args)))
                        (map noise_i (seq 0 (num_features args))))
                   (sym_features_of args))
        \/ (noise_type args = constants.ADDITIVE_GAUSSIAN
            /\ sym_model_fn = polynomial_fn ++ [(1%Q, [noise])])).
Proof.
  intros run. unfold gen_polynomial in run.
  destruct (update_interaction_terms L args relevant ∅ _ [] g)
    as [[[m1 poly1] g1]|] eqn:first; [|discriminate].
  cbv beta iota delta [mbind result_bind] in run.
  destruct (update_linear_terms L args relevant m1 _ poly1 g1)
    as [[[m2 poly2] g2]|] eqn:second; [|discriminate].
  cbv beta iota delta [mbind result_bind] in run.
  exists m1, poly1, g1.
  destruct (String.eqb_spec (noise_type args) constants.NO_NOISE) as [none|_].
  { injection run as <- <- <- <-. eexists _, _.
    split; [reflexivity|]. split; [exact second|]. split; [reflexivity|].
    left. auto. }
  destruct (String.eqb_spec (noise_type args) constants.EPSILON_IRRELEVANT) as [eps|_].
  { injection run as <- <- <- <-. eexists _, _.
    split; [reflexivity|]. split; [exact second|]. split; [reflexivity|].
    right. left. auto. }
  destruct (String.eqb_spec (noise_type args) constants.ADDITIVE_GAUSSIAN) as [gauss|_].
  { injection run as <- <- <- <-. eexists _, _.
    split; [reflexivity|]. split; [exact second|]. split; [reflexivity|].
    right. right. auto. }
  discriminate.
Qed.

Lemma elem_of_features_of_keys m (i : nat) :
  i ∈ features_of_keys m <-> exists key, key ∈ dom m /\ i ∈ key.
Proof.
  unfold features_of_keys. rewrite elem_of_union_list. split.
  - intros (key & kin & iin). exists key. split; [|exact iin].
    apply elem_of_elements, kin.
  - intros (key & kin & iin). exists key. split; [|exact iin].
    apply elem_of_elements, kin.
Qed.

(** The interaction-only features are drawn among the members of the keys. *)
Lemma interaction_only_members (L : Libs) args m (g : rng L) (f : nat) :
  LibsLaws L ->
  In f (fst (interaction_only_features L args m g)) -> f ∈ features_of_keys m.
Proof.
  intros laws. unfold interaction_only_features.
  destruct (negb _ && _); [|intros []].
  intros drawn. apply (choice_subset L laws) in drawn. apply sorted_members, drawn.
Qed.

(** Every key of the map is a pair of relevant features or the singleton of
    a relevant feature. *)
Lemma gen_polynomial_keys (L : Libs) args relevant (g : rng L)
  vars m (polynomial_fn : expr) g' :
  LibsLaws L ->
  gen_polynomial L args relevant g = Ok (vars, m, polynomial_fn, g') ->
  forall key, key ∈ dom m ->
    (exists f, key = {[f]} /\ f ∈ relevant)
    \/ (exists a b, key = {[a; b]} /\ a <> b /\ a ∈ relevant /\ b ∈ relevant).
Proof.
  intros laws run key kin.
  apply gen_polynomial_unfold in run
    as (m1 & poly1 & g1 & sym_noise & sym_model_fn & first & second & _).
  apply (update_linear_terms_keys L _ _ _ _ _ _ _ _ _ second) in kin
    as [kin|(f & -> & fin & _)]; [|left; eauto].
  apply (update_interaction_terms_keys L _ _ _ _ _ _ _ _ _ laws first) in kin
    as [empty|found]; [|right; exact found].
  rewrite dom_empty in empty. apply not_elem_of_empty in empty as [].
Qed.

(** The members of the keys are the relevant features. *)
Lemma gen_polynomial_features (L : Libs) args relevant (g : rng L)
  vars m (polynomial_fn : expr) g' :
  LibsLaws L ->
  gen_polynomial L args relevant g = Ok (vars, m, polynomial_fn, g') ->
  features_of_keys m = relevant.
Proof.
  intros laws run. pose proof (gen_polynomial_keys L _ _ _ _ _ _ _ laws run) as shape.
  apply gen_polynomial_unfold in run
    as (m1 & poly1 & g1 & sym_noise & sym_model_fn & first & second & _).
  pose proof (update_linear_terms_keys L _ _ _ _ _ _ _ _ _ second) as keys.
  apply set_eq. intros i. rewrite elem_of_features_of_keys. split.
  - intros (key & kin & iin).
    destruct (shape key kin) as [(f & -> & fin)|(a & b & -> & _ & ain & bin)].
    + apply elem_of_singleton in iin. subst i. exact fin.
    + apply elem_of_union in iin as [e|e]; apply elem_of_singleton in e;
        subst i; assumption.
  - intros iin.
    destruct (in_dec Nat.eq_dec i (fst (interaction_only_features L args m1 g1)))
      as [only|linear].
    + apply (interaction_only_members L _ _ _ _ laws), elem_of_features_of_keys in only
        as (key & kin & member).
      exists key. split; [|exact member]. apply keys. left. exact kin.
    + exists {[i]}. split; [|apply elem_of_singleton; reflexivity].
      apply keys. right. exists i. auto.
Qed.

(** X1.  The relevance map that [gen_polynomial] returns has only two kinds
    of keys, the singleton of a relevant feature and the pair of two
    different relevant features, and the members of its keys are exactly
    the relevant features: the set that [update_hierarchy_relevance]
    collects from the keys is the set [gen_polynomial] was given. *)
Theorem relevance_map_covers (L : Libs) args relevant (g : rng L)
  vars m (polynomial_fn : expr) g' :
  LibsLaws L ->
  gen_polynomial L args relevant g = Ok (vars, m, polynomial_fn, g') ->
  (forall key, key ∈ dom m ->
     (exists f, key = {[f]} /\ f ∈ relevant)
     \/ (exists a b, key = {[a; b]} /\ a <> b /\ a ∈ relevant /\ b ∈ relevant))
  /\ features_of_keys m = relevant.
Proof.
  intros laws run. split.
  - apply (gen_polynomial_keys L _ _ _ _ _ _ _ laws run).
  - apply (gen_polynomial_features L _ _ _ _ _ _ _ laws run).
Qed.

(** The interaction loop only fails on an index, and the pairs it has put
    into the map are pairs of features. *)
Lemma interaction_loop_outcome (L : Libs) (sym_features : list symbol)
  (pairs : list (nat * nat)) m (poly : expr) (g : rng L) :
  match interaction_loop L sym_features pairs m poly g with
  | Ok (m', _, _) =>
      forall key, key ∈ dom m' ->
        key ∈ dom m
        \/ exists a b, key = {[a; b]}
                       /\ a < length sym_features /\ b < length sym_features
  | Raise e => e = IndexError
  end.
Proof.
  revert m poly g. induction pairs as [|[a b] pairs IH]; intros m poly g.
  - simpl. auto.
  - cbn [interaction_loop]. destruct (uniform L g) as [coefficient g1].
    unfold getitem.
    destruct (sym_features !! a) as [xa|] eqn:ina; [|reflexivity].
    destruct (sym_features !! b) as [xb|] eqn:inb; [|reflexivity].
    cbv beta iota delta [mbind result_bind].
    specialize (IH (<[ ({[a; b]} : gset nat) := coefficient ]> m)
                  (poly ++ [(coefficient, [xa; xb])]) g1).
    destruct (interaction_loop L sym_features pairs _ _ g1) as [[[m' poly'] g']|e];
      [|exact IH].
    intros key kin. destruct (IH key kin) as [old|found]; [|right; exact found].
    rewrite dom_insert in old. apply elem_of_union in old as [new|old]; [|left; exact old].
    apply elem_of_singleton in new. right. exists a, b.
    split; [exact new|]. split; eapply lookup_lt_Some; eassumption.
Qed.

Lemma update_interaction_terms_outcome (L : Libs) args relevant
  (poly : expr) (g : rng L) :
  too_many_interactions args relevant = false ->
  match update_interaction_terms L args relevant ∅ (sym_features_of args) poly g with
  | Ok (m', _, _) => forall i, i ∈ features_of_keys m' -> i < num_features args
  | Raise e => e = IndexError
  end.
Proof.
  intros enough. rewrite update_interaction_terms_cases, enough.
  destruct (_ || _).
  - intros i iin. apply elem_of_features_of_keys in iin as (key & kin & _).
    rewrite dom_empty in kin. apply not_elem_of_empty in kin as [].
  - destruct (choice L g _ _) as [pairs g1].
    pose proof (interaction_loop_outcome L (sym_features_of args) pairs ∅ poly g1)
      as outcome.
    destruct (interaction_loop L _ pairs ∅ poly g1) as [[[m' poly'] g']|e];
      [|exact outcome].
    intros i iin. apply elem_of_features_of_keys in iin as (key & kin & iin).
    destruct (outcome key kin) as [empty|(a & b & -> & alt & blt)].
    + rewrite dom_empty in empty. apply not_elem_of_empty in empty as [].
    + rewrite sym_features_length in alt, blt.
      apply elem_of_union in iin as [e|e]; apply elem_of_singleton in e;
        subst i; assumption.
Qed.

(** With more interactions asked for than there are pairs, and a pair
    there is, [gen_polynomial] raises the [TypeError] of [rng.choice]. *)
Lemma gen_polynomial_too_many (L : Libs) args relevant (g : rng L) :
  too_many_interactions args relevant = true ->
  gen_polynomial L args relevant g = Raise TypeError.
Proof.
  intros more. unfold gen_polynomial.
  rewrite update_interaction_terms_cases, more. reflexivity.
Qed.

(** X2.  The outcomes of [gen_polynomial] when every relevant feature is a
    feature of the model.  When more interactions are asked for than the
    relevant features have pairs, and they have a pair, it raises
    [TypeError]: the count [min] returns is then a float, which
    [rng.choice] refuses as a size.  In every other case it returns for the
    three noise types and raises
    [NotImplementedError("Unknown noise type")] for every other one. *)
Theorem gen_polynomial_noise_types (L : Libs) args relevant (g : rng L) :
  LibsLaws L ->
  (forall i, i ∈ relevant -> i < num_features args) ->
  (too_many_interactions args relevant = true ->
   gen_polynomial L args relevant g = Raise TypeError)
  /\ (too_many_interactions args relevant = false ->
      (In (noise_type args)
          [constants.NO_NOISE; constants.EPSILON_IRRELEVANT;
           constants.ADDITIVE_GAUSSIAN] ->
       is_Ok (gen_polynomial L args relevant g))
      /\ (~ In (noise_type args)
            [constants.NO_NOISE; constants.EPSILON_IRRELEVANT;
             constants.ADDITIVE_GAUSSIAN] ->
          gen_polynomial L args relevant g
            = Raise (NotImplementedError "Unknown noise type"))).
Proof.
  intros laws bounds. split; [apply gen_polynomial_too_many|].
  intros enough. split; [apply gen_polynomial_returns; assumption|].
  intros unknown. unfold gen_polynomial.
  destruct (update_interaction_terms_returns L args relevant ∅ [] g laws bounds enough)
    as [[[m1 poly1] g1] ->].
  cbv beta iota delta [mbind result_bind].
  destruct (update_linear_terms_returns L args relevant m1 (sym_features_of args)
              poly1 g1 bounds) as [[[m2 poly2] g2] ->].
  cbv beta iota delta [mbind result_bind].
  destruct (String.eqb_spec (noise_type args) constants.NO_NOISE) as [e|_].
  { destruct unknown. rewrite e. left. reflexivity. }
  destruct (String.eqb_spec (noise_type args) constants.EPSILON_IRRELEVANT) as [e|_].
  { destruct unknown. rewrite e. right. left. reflexivity. }
  destruct (String.eqb_spec (noise_type args) constants.ADDITIVE_GAUSSIAN) as [e|_].
  { destruct unknown. rewrite e. right. right. left. reflexivity. }
  reflexivity.
Qed.

(** X3.  When some relevant feature is not a feature of the model (its index
    is [num_features] or more), [gen_polynomial] raises, whatever the noise
    type: [TypeError] when more interactions are asked for than the
    relevant features have pairs (the size is refused before any feature is
    looked up), and [IndexError] otherwise, from the lookup of the feature's
    symbol or from the assignment of the linear coefficients. *)
Theorem gen_polynomial_out_of_range (L : Libs) args relevant (g : rng L) (i : nat) :
  LibsLaws L ->
  i ∈ relevant -> num_features args <= i ->
  gen_polynomial L args relevant g
  = Raise (if too_many_interactions args relevant then TypeError else IndexError).
Proof.
  intros laws iin beyond.
  destruct (too_many_interactions args relevant) eqn:enough;
    [apply gen_polynomial_too_many; exact enough|].
  unfold gen_polynomial.
  pose proof (update_interaction_terms_outcome L args relevant [] g enough) as outcome.
  destruct (update_interaction_terms L args relevant ∅ _ [] g)
    as [[[m1 poly1] g1]|e]; [|subst e; reflexivity].
  cbv beta iota delta [mbind result_bind].
  unfold update_linear_terms.
  pose proof (interaction_only_members L args m1 g1 i laws) as members.
  destruct (interaction_only_features L args m1 g1) as [interaction_only g2].
  destruct (uniform_size L g2 _) as [values g3].
  unfold assign_at.
  match goal with
  | |- context [forallb ?f ?l] => assert (outside : forallb f l = false)
  end.
  { apply not_true_is_false. intros inside.
    rewrite forallb_forall in inside. specialize (inside i).
    rewrite length_replicate in inside.
    assert ((i <? num_features args) = true) as below; [|apply Nat.ltb_lt in below; lia].
    apply inside, sorted_members, elem_of_difference. split; [exact iin|].
    intros only. apply elem_of_list_to_set, list_elem_of_In, members, outcome in only.
    lia. }
  rewrite outside. reflexivity.
Qed.

(** *** What the expressions evaluate to *)

Lemma eval_app (v : symbol -> Q) (e1 e2 : expr) :
  (eval v (e1 ++ e2) == eval v e1 + eval v e2)%Q.
Proof.
  induction e1 as [|term e1 IH]; simpl.
  - ring.
  - rewrite IH. ring.
Qed.

Lemma eval_cons (v : symbol -> Q) (term : Q * list symbol) (e : expr) :
  eval v (term :: e) = (eval_term v term + eval v e)%Q.
Proof. reflexivity. Qed.

Lemma sym_features_lookup args (i : nat) (s : symbol) :
  sym_features_of args !! i = Some s -> s = x i /\ i < num_features args.
Proof.
  unfold sym_features_of. rewrite list_lookup_fmap.
  destruct (seq 0 (num_features args) !! i) as [k|] eqn:found; [|discriminate].
  apply lookup_seq in found as [-> below]. simpl. intros [= <-]. auto.
Qed.

(** A property of the terms is kept by the interaction loop when the term
    of every pair has it. *)
Lemma interaction_loop_terms (L : Libs) args (P : Q * list symbol -> Prop)
  (pairs : list (nat * nat)) m (poly : expr) (g : rng L) m' poly' g' :
  interaction_loop L (sym_features_of args) pairs m poly g = Ok (m', poly', g') ->
  (forall a b c, In (a, b) pairs -> P (c, [x a; x b])) ->
  Forall P poly -> Forall P poly'.
Proof.
  revert m poly g. induction pairs as [|[a b] pairs IH]; intros m poly g run each start.
  - injection run as _ <- _. exact start.
  - cbn [interaction_loop] in run. destruct (uniform L g) as [coefficient g1].
    unfold getitem in run.
    destruct (sym_features_of args !! a) as [xa|] eqn:ina; [|discriminate].
    destruct (sym_features_of args !! b) as [xb|] eqn:inb; [|discriminate].
    cbv beta iota delta [mbind result_bind] in run.
    apply sym_features_lookup in ina as [-> _], inb as [-> _].
    apply (IH _ _ _ run).
    + intros a' b' c pin. apply each. right. exact pin.
    + apply Forall_app. split; [exact start|].
      constructor; [|constructor]. apply each. left. reflexivity.
Qed.

(** Every interaction term is the product of two different relevant
    features. *)
Lemma update_interaction_terms_terms (L : Libs) args relevant m
  (g : rng L) m' poly' g' :
  LibsLaws L ->
  update_interaction_terms L args relevant m (sym_features_of args) [] g
    = Ok (m', poly', g') ->
  Forall (fun term => exists a b, snd term = [x a; x b] /\ a <> b
                                  /\ a ∈ relevant /\ b ∈ relevant) poly'.
Proof.
  intros laws run. apply update_interaction_terms_Ok in run as [same|run].
  - destruct same as (_ & -> & _). constructor.
  - match type of run with
    | context [choice L g ?population ?k] =>
        pose proof (choice_subset L laws _ g population k) as drawn;
        destruct (choice L g population k) as [pairs g1]
    end.
    simpl in drawn. apply (interaction_loop_terms L _ _ _ _ _ _ _ _ _ run); [|constructor].
    intros a b c pin. exists a, b. split; [reflexivity|].
    apply drawn, combinations2_members in pin as (ain & bin & distinct).
    rewrite sorted_members in ain, bin.
    split; [apply distinct, sorted_NoDup|]. auto.
Qed.

(** The array assignment keeps the length and the entries it does not
    name. *)
Lemma assign_at_untouched (coefficients : list Q) (indices : list nat)
  (values coefficients' : list Q) :
  assign_at coefficients indices values = Ok coefficients' ->
  length coefficients' = length coefficients
  /\ forall i, ~ In i indices -> coefficients' !! i = coefficients !! i.
Proof.
  unfold assign_at. destruct (forallb _ indices); [|discriminate].
  intros [= <-]. clear.
  assert (subset : forall iv, In iv (zip indices values) -> In (fst iv) indices).
  { intros [i v] pin. apply list_elem_of_In, elem_of_zip_l, list_elem_of_In in pin.
    exact pin. }
  revert coefficients subset.
  induction (zip indices values) as [|[i v] ivs IH]; intros coefficients subset.
  - simpl. auto.
  - destruct (IH (<[ i := v ]> coefficients)) as [len keep].
    { intros iv ivin. apply subset. right. exact ivin. }
    change (foldl _ coefficients ((i, v) :: ivs))
      with (foldl (fun cs iv => <[ fst iv := snd iv ]> cs) (<[ i := v ]> coefficients) ivs).
    split; [rewrite len; apply length_insert|].
    intros k out. rewrite (keep k out). apply list_lookup_insert_ne.
    intros ->. apply out, (subset (k, v)). left. reflexivity.
Qed.

(** The map after the loop of [update_linear_terms]. *)
Lemma linear_lookups (coefficients : list Q) (linear_features : list nat) m :
  let m' := foldl (fun m linear_feature =>
                     <[ ({[linear_feature]} : gset nat)
                        := coefficients !!! linear_feature ]> m)
                  m linear_features in
  (forall f, In f linear_features -> m' !! ({[f]} : gset nat) = Some (coefficients !!! f))
  /\ (forall key, (forall f, In f linear_features -> key <> {[f]}) -> m' !! key = m !! key).
Proof.
  revert m. induction linear_features as [|f fs IH]; intros m; cbn zeta.
  - split; [intros f []|reflexivity].
  - cbn [foldl]. destruct (IH (<[ ({[f]} : gset nat) := coefficients !!! f ]> m))
      as [added kept]. cbn zeta in added, kept. split.
    + intros k kin. destruct (in_dec Nat.eq_dec k fs) as [later|last].
      * apply added, later.
      * destruct kin as [<-|kin]; [|contradiction].
        rewrite kept; [apply lookup_insert_eq|].
        intros f' fin same. apply last.
        apply singleton_inj in same. subst f'. exact fin.
    + intros key other. rewrite kept.
      * apply lookup_insert_ne. intros <-. apply (other f); [left|]; reflexivity.
      * intros f' fin. apply other. right. exact fin.
Qed.

(** The linear terms: one per feature, with a coefficient that is 0 unless
    the feature is relevant; the map records the coefficient of every
    relevant feature that is not interaction-only and keeps the other
    keys. *)
Lemma update_linear_terms_terms (L : Libs) args relevant m
  (poly : expr) (g : rng L) m' poly' g' :
  update_linear_terms L args relevant m (sym_features_of args) poly g
    = Ok (m', poly', g') ->
  exists coefficients,
    poly' = poly ++ zip_with (fun c s => (c, [s])) coefficients (sym_features_of args)
    /\ length coefficients = num_features args
    /\ (forall i, i ∉ relevant -> i < num_features args ->
        coefficients !! i = Some 0%Q)
    /\ (forall f, f ∈ relevant ->
        ~ In f (fst (interaction_only_features L args m g)) ->
        m' !! ({[f]} : gset nat) = Some (coefficients !!! f))
    /\ (forall key,
          (forall f, f ∈ relevant ->
                     ~ In f (fst (interaction_only_features L args m g)) ->
                     key <> {[f]}) ->
          m' !! key = m !! key)
    /\ (forall f, In f (fst (interaction_only_features L args m g)) ->
        f < num_features args -> coefficients !! f = Some 0%Q).
Proof.
  unfold update_linear_terms. intros run.
  destruct (interaction_only_features L args m g) as [interaction_only g1].
  destruct (uniform_size L g1 _) as [values g2].
  destruct (assign_at _ _ values) as [coefficients|] eqn:assigned; [|discriminate].
  cbv beta iota delta [mbind result_bind] in run. injection run as <- <- _.
  apply assign_at_untouched in assigned as [len keep].
  rewrite length_replicate in len.
  assert (members : forall f, In f (sorted (relevant ∖ list_to_set interaction_only))
                              <-> f ∈ relevant /\ ~ In f interaction_only).
  { intros f. rewrite sorted_members, elem_of_difference.
    rewrite elem_of_list_to_set, list_elem_of_In. tauto. }
  destruct (linear_lookups coefficients
              (sorted (relevant ∖ list_to_set interaction_only)) m) as [added kept].
  cbn zeta in added, kept.
  exists coefficients. split; [reflexivity|]. split; [exact len|]. simpl.
  split; [|split; [|split]].
  - intros i out below. rewrite keep.
    + apply lookup_replicate. auto.
    + intros iin. apply members in iin. tauto.
  - intros f fin out. apply added, members. auto.
  - intros key other. apply kept. intros f fin. apply members in fin. apply other; tauto.
  - intros f only below. rewrite keep.
    + apply lookup_replicate. auto.
    + intros fin. apply members in fin. tauto.
Qed.

(** Two assignments give the linear terms the same value when they agree
    on the features whose coefficient is not 0. *)
Lemma linear_terms_agree (v v' : symbol -> Q) (coefficients : list Q) (k n : nat) :
  (forall j c, coefficients !! j = Some c -> c = 0%Q \/ v (x (k + j)) = v' (x (k + j))) ->
  (eval v (zip_with (fun c s => (c, [s])) coefficients (map x (seq k n)))
   == eval v' (zip_with (fun c s => (c, [s])) coefficients (map x (seq k n))))%Q.
Proof.
  revert k n. induction coefficients as [|c cs IH]; intros k n agree.
  - reflexivity.
  - destruct n as [|n]; [reflexivity|]. cbn [seq map zip_with].
    rewrite !eval_cons, (IH (S k) n).
    + apply Qplus_comp; [|reflexivity]. unfold eval_term. cbn [fst snd foldr].
      destruct (agree 0 c eq_refl) as [->|same].
      * ring.
      * rewrite Nat.add_0_r in same. rewrite same. reflexivity.
    + intros j c' found. specialize (agree (S j) c' found).
      rewrite Nat.add_succ_r in agree. exact agree.
Qed.

(** The polynomial takes the same value under two assignments that agree on
    the relevant features. *)
Lemma polynomial_agree (L : Libs) args relevant (g : rng L)
  vars m (polynomial_fn : expr) g' (v v' : symbol -> Q) :
  LibsLaws L ->
  gen_polynomial L args relevant g = Ok (vars, m, polynomial_fn, g') ->
  (forall i, i ∈ relevant -> v (x i) = v' (x i)) ->
  (eval v polynomial_fn == eval v' polynomial_fn)%Q.
Proof.
  intros laws run agree.
  apply gen_polynomial_unfold in run
    as (m1 & poly1 & g1 & sym_noise & sym_model_fn & first & second & _).
  apply (update_interaction_terms_terms L _ _ _ _ _ _ _ laws) in first.
  apply update_linear_terms_terms in second
    as (coefficients & -> & len & zero & _).
  rewrite !eval_app. apply Qplus_comp.
  - clear -first agree. induction first as [|[c syms] terms here _ IH]; [reflexivity|].
    rewrite !eval_cons, IH. destruct here as (a & b & shape & _ & ain & bin).
    simpl in shape. subst syms. unfold eval_term. cbn [fst snd foldr].
    rewrite (agree a ain), (agree b bin). reflexivity.
  - apply linear_terms_agree. intros j c found. simpl.
    destruct (decide (j ∈ relevant)) as [jin|out]; [right; apply agree, jin|left].
    assert (j < num_features args)
      by (rewrite <- len; eapply lookup_lt_Some; eassumption).
    rewrite (zero j out) in found by assumption. congruence.
Qed.

(** X4.  The targets depend on the relevant features only: for a polynomial
    of [gen_polynomial], two instances that agree on every relevant feature
    get equal targets from [gen_targets]. *)
Theorem targets_of_relevant_features (L : Libs) args relevant (g : rng L)
  vars m (polynomial_fn : expr) g' (instance1 instance2 : list nat) (t1 t2 : Q) :
  LibsLaws L ->
  gen_polynomial L args relevant g = Ok (vars, m, polynomial_fn, g') ->
  (forall i, i ∈ relevant -> instance1 !! i = instance2 !! i) ->
  gen_targets args polynomial_fn [instance1; instance2] = Ok [t1; t2] ->
  (t1 == t2)%Q.
Proof.
  intros laws run agree targets. unfold gen_targets, mapM_result, lambdify in targets.
  destruct (length instance1 =? _); [|discriminate].
  destruct (length instance2 =? _); [|discriminate].
  injection targets as <- <-.
  apply (polynomial_agree L _ _ _ _ _ _ _ _ _ laws run).
  intros i iin. simpl. rewrite !list_lookup_total_alt, (agree i iin). reflexivity.
Qed.

(** The noise terms of the epsilon-irrelevant model. *)
Lemma noise_terms_eval (v : symbol -> Q) relevant (k n : nat) :
  (eval v (zip_with (fun ns xi => (fst ns, [snd ns; xi]))
             (zip (map (fun i => if bool_decide (i ∈ relevant) then 0%Q else 1%Q)
                     (seq k n))
                  (map noise_i (seq k n)))
             (map x (seq k n)))
   == foldr (fun i total =>
               (if bool_decide (i ∈ relevant) then 0
                else v (noise_i i) * v (x i)) + total) 0 (seq k n))%Q.
Proof.
  revert k. induction n as [|n IH]; intros k; [reflexivity|].
  cbn [seq map zip zip_with foldr]. rewrite eval_cons, IH.
  apply Qplus_comp; [|reflexivity]. unfold eval_term. cbn [fst snd foldr].
  destruct (bool_decide (k ∈ relevant)); ring.
Qed.

(** X5.  The model expression of [gen_polynomial] is the polynomial plus the
    noise of its type: nothing without noise, the symbol [noise] for the
    additive Gaussian type and, for the epsilon-irrelevant type, the sum of
    [noise_i * x_i] over the features that are not relevant, so that no
    noise symbol multiplies a relevant feature. *)
Theorem model_expression (L : Libs) args relevant (g : rng L)
  sym_features sym_noise (sym_model_fn : expr) m (polynomial_fn : expr) g'
  (v : symbol -> Q) :
  gen_polynomial L args relevant g
    = Ok ((sym_features, sym_noise, sym_model_fn), m, polynomial_fn, g') ->
  (eval v sym_model_fn
   == eval v polynomial_fn
      + (if String.eqb (noise_type args) constants.NO_NOISE then 0
         else if String.eqb (noise_type args) constants.EPSILON_IRRELEVANT
              then irrelevant_noise v relevant (num_features args)
              else v noise))%Q.
Proof.
  intros run. apply gen_polynomial_unfold in run
    as (m1 & poly1 & g1 & sn & sm & _ & _ & [= _ _ <-] & [[-> ->]|[[-> ->]|[-> ->]]]).
  - simpl. ring.
  - simpl. rewrite eval_app. apply Qplus_comp; [reflexivity|].
    apply noise_terms_eval.
  - simpl. rewrite eval_app. apply Qplus_comp; [reflexivity|].
    unfold eval, eval_term. simpl. ring.
Qed.

(** The linear terms under the values of an instance in which feature [i]
    alone is set. *)
Lemma linear_terms_unit (v : symbol -> Q) (i : nat) (coefficients : list Q) (k : nat) :
  v (x i) = 1%Q -> (forall j, j <> i -> v (x j) = 0%Q) ->
  (eval v (zip_with (fun c s => (c, [s])) coefficients
             (map x (seq k (length coefficients))))
   == if bool_decide (k <= i)%nat then default 0 (coefficients !! (i - k)%nat) else 0)%Q.
Proof.
  intros one zero. revert k.
  induction coefficients as [|c cs IH]; intros k.
  - simpl. destruct (bool_decide _); reflexivity.
  - cbn [length seq map zip_with]. rewrite eval_cons, IH.
    unfold eval_term. cbn [fst snd foldr].
    destruct (decide (k = i)) as [->|other].
    + rewrite one, Nat.sub_diag. rewrite bool_decide_eq_false_2 by lia.
      rewrite bool_decide_eq_true_2 by lia. simpl. ring.
    + rewrite (zero k other). case_bool_decide as above.
      * rewrite bool_decide_eq_true_2 by lia.
        replace (i - k) with (S (i - S k)) by lia. simpl. ring.
      * rewrite bool_decide_eq_false_2 by lia. ring.
Qed.

(** X6.  The target of the instance in which one feature alone is set is the
    coefficient the relevance map records for the singleton of that feature,
    and 0 when the map has no such key: the linear coefficients of the map
    are those of the polynomial, and the interaction terms vanish there. *)
Theorem target_of_unit_instance (L : Libs) args relevant (g : rng L)
  vars m (polynomial_fn : expr) g' (i : nat) (t : Q) :
  LibsLaws L ->
  gen_polynomial L args relevant g = Ok (vars, m, polynomial_fn, g') ->
  i < num_features args ->
  gen_targets args polynomial_fn [unit_instance (num_features args) i] = Ok [t] ->
  (t == default 0 (m !! ({[i]} : gset nat)))%Q.
Proof.
  intros laws run below targets.
  unfold gen_targets, mapM_result, lambdify in targets.
  destruct (_ =? _); [|discriminate]. injection targets as <-.
  set (v := feature_values (unit_instance (num_features args) i)).
  assert (one : v (x i) = 1%Q).
  { unfold v, feature_values, unit_instance.
    rewrite list_lookup_total_insert_eq by (rewrite length_replicate; exact below).
    reflexivity. }
  assert (zero : forall j, j <> i -> v (x j) = 0%Q).
  { intros j other. unfold v, feature_values, unit_instance.
    rewrite list_lookup_total_insert_ne by auto.
    rewrite list_lookup_total_alt.
    destruct (decide (j < num_features args)) as [inside|outside].
    - rewrite lookup_replicate_2 by exact inside. reflexivity.
    - rewrite lookup_ge_None_2 by (rewrite length_replicate; lia). reflexivity. }
  clearbody v.
  apply gen_polynomial_unfold in run
    as (m1 & poly1 & g1 & sym_noise & sym_model_fn & first & second & _).
  pose proof (update_interaction_terms_terms L _ _ _ _ _ _ _ laws first) as pairs.
  pose proof (update_interaction_terms_keys L _ _ _ _ _ _ _ _ _ laws first) as keys.
  apply update_linear_terms_terms in second
    as (coefficients & -> & len & irrelevant0 & linear & others & only0).
  assert (no_single : m1 !! ({[i]} : gset nat) = None).
  { apply not_elem_of_dom. intros kin.
    destruct (keys _ kin) as [empty|(a & b & same & distinct & _)].
    - rewrite dom_empty in empty. apply not_elem_of_empty in empty as [].
    - apply (f_equal size) in same.
      rewrite size_singleton, size_pair in same by exact distinct. discriminate. }
  rewrite eval_app.
  assert (eval v poly1 == 0)%Q as ->.
  { clear -pairs one zero.
    induction pairs as [|[c syms] terms here _ IH]; [reflexivity|].
    rewrite eval_cons, IH. destruct here as (a & b & shape & distinct & _).
    simpl in shape. subst syms. unfold eval_term. cbn [fst snd foldr].
    destruct (decide (a = i)) as [->|other].
    - rewrite (zero b) by auto. ring.
    - rewrite (zero a other). ring. }
  pose proof (linear_terms_unit v i coefficients 0 one zero) as at_unit.
  rewrite bool_decide_eq_true_2, Nat.sub_0_r, len in at_unit by lia.
  unfold sym_features_of. rewrite at_unit, Qplus_0_l.
  destruct (decide (i ∈ relevant)) as [iin|out].
  - destruct (in_dec Nat.eq_dec i (fst (interaction_only_features L args m1 g1)))
      as [only|lin].
    + rewrite others, no_single, only0 by (auto; intros f _ out ->%singleton_inj; auto).
      reflexivity.
    + rewrite (linear i iin lin), list_lookup_total_alt. reflexivity.
  - rewrite others, no_single, irrelevant0 by (auto; intros f fin _ ->%singleton_inj; auto).
    reflexivity.
Qed.

End polynomial.

Section polynomial_examples.

Import simulation.

Lemma relevance_map_covers_witness :
  match gen_polynomial example_libs (example_args false) {[0; 1; 3]} 0 with
  | Ok (_, m, _, _) => features_of_keys m = {[0; 1; 3]}
  | Raise _ => False
  end.
Proof.
  destruct (gen_polynomial example_libs (example_args false) {[0; 1; 3]} 0)
    as [[[[vars m] polynomial_fn] g']|e] eqn:run.
  - exact (proj2 (relevance_map_covers _ _ _ _ _ _ _ _ example_libs_laws run)).
  - discriminate run.
Defined.

Lemma example_features_in_range (i : nat) :
  i ∈ ({[0; 1; 3]} : gset nat) -> i < num_features (example_args false).
Proof. intros iin. set_unfold in iin. simpl. lia. Qed.

Lemma gen_polynomial_noise_types_witness :
  is_Ok (gen_polynomial example_libs (example_args false) {[0; 1; 3]} 0)
  /\ gen_polynomial example_libs example_args_five {[0; 1; 3]} 0 = Raise TypeError.
Proof.
  destruct (gen_polynomial_noise_types example_libs (example_args false)
              {[0; 1; 3]} 0 example_libs_laws example_features_in_range)
    as [_ enough].
  destruct (gen_polynomial_noise_types example_libs example_args_five
              {[0; 1; 3]} 0 example_libs_laws example_features_in_range)
    as [more _].
  split.
  - apply enough; [vm_compute; reflexivity|]. right. left. reflexivity.
  - apply more. vm_compute. reflexivity.
Defined.

Lemma gen_polynomial_out_of_range_witness :
  gen_polynomial example_libs (example_args false) {[0; 7]} 0 = Raise IndexError
  /\ gen_polynomial example_libs example_args_five {[0; 1; 7]} 0 = Raise TypeError.
Proof.
  assert (enough : too_many_interactions (example_args false) {[0; 7]} = false)
    by (vm_compute; reflexivity).
  assert (more : too_many_interactions example_args_five {[0; 1; 7]} = true)
    by (vm_compute; reflexivity).
  split.
  - rewrite (gen_polynomial_out_of_range example_libs (example_args false) {[0; 7]} 0 7
               example_libs_laws).
    + rewrite enough. reflexivity.
    + apply elem_of_union. right. apply elem_of_singleton. reflexivity.
    + simpl. lia.
  - rewrite (gen_polynomial_out_of_range example_libs example_args_five {[0; 1; 7]} 0 7
               example_libs_laws).
    + rewrite more. reflexivity.
    + apply elem_of_union. right. apply elem_of_singleton. reflexivity.
    + simpl. lia.
Defined.

Lemma targets_of_relevant_features_witness :
  match gen_polynomial example_libs (example_args false) {[0; 1; 3]} 0 with
  | Ok (_, _, polynomial_fn, _) =>
      match gen_targets (example_args false) polynomial_fn [[1; 0; 0; 1]; [1; 0; 1; 1]] with
      | Ok [t1; t2] => (t1 == t2)%Q
      | _ => False
      end
  | Raise _ => False
  end.
Proof.
  destruct (gen_polynomial example_libs (example_args false) {[0; 1; 3]} 0)
    as [[[[vars m] polynomial_fn] g']|e] eqn:run; [|discriminate run].
  destruct (gen_targets (example_args false) polynomial_fn [[1; 0; 0; 1]; [1; 0; 1; 1]])
    as [[|t1 [|t2 [|t3 ts]]]|e] eqn:targets; try discriminate targets.
  refine (targets_of_relevant_features _ _ _ _ _ _ _ _ _ _ _ _
            example_libs_laws run _ targets).
  intros i iin. set_unfold in iin. destruct iin as [[->| ->]| ->]; reflexivity.
Defined.

Lemma model_expression_witness :
  match gen_polynomial example_libs (example_args false) {[0; 1; 3]} 0 with
  | Ok ((_, _, sym_model_fn), _, polynomial_fn, _) =>
      Qeq (eval (fun _ => 1%Q) sym_model_fn)
          (eval (fun _ => 1%Q) polynomial_fn
           + irrelevant_noise (fun _ => 1%Q) {[0; 1; 3]} 4)
  | Raise _ => False
  end.
Proof.
  destruct (gen_polynomial example_libs (example_args false) {[0; 1; 3]} 0)
    as [[[[[[sym_features sym_noise] sym_model_fn] m] polynomial_fn] g']|e] eqn:run;
    [|discriminate run].
  exact (model_expression _ _ _ _ _ _ _ _ _ _ (fun _ => 1%Q) run).
Defined.

Lemma target_of_unit_instance_witness :
  match gen_polynomial example_libs (example_args false) {[0; 1; 3]} 0 with
  | Ok (_, m, polynomial_fn, _) =>
      match gen_targets (example_args false) polynomial_fn [unit_instance 4 1] with
      | Ok [t] => Qeq t (default 0%Q (m !! ({[1]} : gset nat)))
      | _ => False
      end
  | Raise _ => False
  end.
Proof.
  destruct (gen_polynomial example_libs (example_args false) {[0; 1; 3]} 0)
    as [[[[vars m] polynomial_fn] g']|e] eqn:run; [|discriminate run].
  destruct (gen_targets (example_args false) polynomial_fn [unit_instance 4 1])
    as [[|t [|t2 ts]]|e] eqn:targets; try discriminate targets.
  refine (target_of_unit_instance _ _ _ _ _ _ _ _ 1 t example_libs_laws run _ targets).
  simpl. lia.
Defined.

End polynomial_examples.
(** ** Relevant features and synthesized data *)

Section data.

Import simulation.

Implicit Types (args : Args) (more : DataArgs).

Lemma filter_length_Permutation {A} (f : A -> bool) (l l' : list A) :
  Permutation l l' -> length (List.filter f l) = length (List.filter f l').
Proof.
  induction 1 as [|a l l' _ IH|a b l|l l' l'' _ IH1 _ IH2]; simpl.
  - reflexivity.
  - destruct (f a); simpl; congruence.
  - destruct (f a), (f b); reflexivity.
  - congruence.
Qed.

(** Counting the indices whose entry passes a test counts the entries. *)
Lemma filter_indices_length {A} `{Inhabited A} (f : A -> bool) (l : list A) (k : nat) :
  length (List.filter (fun i => f (l !!! (i - k))) (seq k (length l)))
  = length (List.filter f l).
Proof.
  revert k. induction l as [|a l IH]; intros k; [reflexivity|].
  cbn [length seq List.filter]. rewrite Nat.sub_diag. cbn [lookup_total list_lookup_total].
  assert (rest : List.filter (fun i => f ((a :: l) !!! (i - k))) (seq (S k) (length l))
                 = List.filter (fun i => f (l !!! (i - S k))) (seq (S k) (length l))).
  { apply List.filter_ext_in. intros i iin. apply in_seq in iin.
    replace (i - k) with (S (i - S k)) by lia. reflexivity. }
  rewrite rest. destruct (f a); simpl; rewrite IH; reflexivity.
Qed.

Lemma filter_seq_NoDup (f : nat -> bool) (k n : nat) : NoDup (List.filter f (seq k n)).
Proof. apply NoDup_ListNoDup, List.NoDup_filter, List.seq_NoDup. Qed.

Lemma filter_replicate (f : Q -> bool) (q : Q) (n : nat) :
  length (List.filter f (replicate n q)) = if f q then n else 0.
Proof.
  induction n as [|n IH]; simpl.
  - destruct (f q); reflexivity.
  - destruct (f q); simpl; rewrite IH; reflexivity.
Qed.

(** [get_relevant_features] by cases: the two conversions that may raise,
    and the draw. *)
Lemma get_relevant_features_Ok (L : Libs) args more (g : rng L) relevant g1 :
  get_relevant_features L args more g = Ok (relevant, g1) ->
  exists features rounded,
    float_of_int (Z.of_nat (num_features args)) = Ok features
    /\ round (float64.mul features (fraction_relevant_features more)) = Ok rounded
    /\ let start :=
         map (fun _ => 1%Q)
           (take (Z.to_nat (Z.max 1 rounded)) (replicate (num_features args) 0%Q))
         ++ drop (Z.to_nat (Z.max 1 rounded)) (replicate (num_features args) 0%Q) in
       relevant
       = list_to_set
           (List.filter (fun idx => truthy (fst (shuffle L g start) !!! idx))
              (seq 0 (num_features args))).
Proof.
  unfold get_relevant_features.
  destruct (float_of_int _) as [features|]; [|discriminate].
  cbv beta iota delta [mbind result_bind].
  destruct (round _) as [rounded|] eqn:near; [|discriminate].
  cbv beta iota delta [mbind result_bind]. cbv zeta.
  destruct (shuffle L g _) as [coefficients g'] eqn:shuffled.
  intros [= <- <-]. exists features, rounded.
  split; [reflexivity|]. split; [exact near|].
  cbv zeta. rewrite shuffled. reflexivity.
Qed.

(** The relevant features are features of the model. *)
Lemma get_relevant_features_range (L : Libs) args more (g : rng L) relevant g1 (i : nat) :
  get_relevant_features L args more g = Ok (relevant, g1) ->
  i ∈ relevant -> i < num_features args.
Proof.
  intros run. apply get_relevant_features_Ok in run as (features & rounded & _ & _ & ->).
  intros iin. apply elem_of_list_to_set, list_elem_of_In in iin.
  apply List.filter_In in iin as [iin _]. apply in_seq in iin. lia.
Qed.

(** X7.  [get_relevant_features] returns when the product of the number of
    features and the fraction, taken in binary64, is finite, and raises the
    error of the conversion or of [round] otherwise.  When it returns, it
    returns features of the model only, and as many as asked for:
    max(1, round(num_features * fraction)) of them, with the binary64
    product rounded, or all the features when that count exceeds their
    number. *)
Theorem relevant_features_count (L : Libs) args more (g : rng L) :
  LibsLaws L ->
  match get_relevant_features L args more g with
  | Ok (relevant, _) =>
      exists features rounded,
        float_of_int (Z.of_nat (num_features args)) = Ok features
        /\ round (float64.mul features (fraction_relevant_features more)) = Ok rounded
        /\ (forall i, i ∈ relevant -> i < num_features args)
        /\ size relevant
           = Nat.min (num_features args) (Z.to_nat (Z.max 1 rounded))
  | Raise e =>
      float_of_int (Z.of_nat (num_features args)) = Raise e
      \/ exists features,
           float_of_int (Z.of_nat (num_features args)) = Ok features
           /\ round (float64.mul features (fraction_relevant_features more)) = Raise e
  end.
Proof.
  intros laws.
  destruct (get_relevant_features L args more g) as [[relevant g1]|e] eqn:run.
  - apply get_relevant_features_Ok in run as (features & rounded & conv & near & ->).
    exists features, rounded. split; [exact conv|]. split; [exact near|].
    split.
    { intros i iin. apply elem_of_list_to_set, list_elem_of_In in iin.
      apply List.filter_In in iin as [iin _]. apply in_seq in iin. lia. }
    set (count := Z.to_nat (Z.max 1 rounded)).
    set (start := map _ _ ++ _).
    pose proof (shuffle_Permutation L laws _ g start) as shuffled.
    destruct (shuffle L g start) as [coefficients g']. simpl in shuffled. simpl.
    rewrite size_list_to_set by apply filter_seq_NoDup.
    assert (len : length coefficients = num_features args).
    { rewrite shuffled. unfold start.
      rewrite length_app, length_map, length_take, length_drop, length_replicate. lia. }
    pose proof (filter_indices_length truthy coefficients 0) as counted.
    erewrite List.filter_ext in counted
      by (intros i; rewrite Nat.sub_0_r; reflexivity).
    rewrite len in counted.
    rewrite counted, (filter_length_Permutation truthy _ _ shuffled).
    unfold start. rewrite List.filter_app, length_app.
    rewrite drop_replicate, filter_replicate.
    assert (ones : forall l : list Q,
               length (List.filter truthy (map (fun _ => 1%Q) l)) = length l).
    { induction l as [|q l IH]; simpl; congruence. }
    rewrite ones, length_take, length_replicate. simpl. lia.
  - unfold get_relevant_features in run.
    destruct (float_of_int _) as [features|e'];
      cbv beta iota delta [mbind result_bind] in run;
      [|left; congruence].
    right. exists features. split; [reflexivity|].
    destruct (round _) as [rounded|e''];
      cbv beta iota delta [mbind result_bind] in run;
      [|congruence].
    cbv zeta in run. destruct (shuffle L g _). discriminate run.
Qed.

(** X8.  The first step of the pipeline composes: on the relevant features
    that [get_relevant_features] has drawn, [gen_polynomial] raises no
    [IndexError]; it returns for each of the three noise types, unless more
    interactions are asked for than the features drawn have pairs, when it
    raises [TypeError]. *)
Theorem polynomial_of_relevant_features (L : Libs) args more (g : rng L)
  relevant g1 :
  LibsLaws L ->
  get_relevant_features L args more g = Ok (relevant, g1) ->
  (too_many_interactions args relevant = true ->
   gen_polynomial L args relevant g1 = Raise TypeError)
  /\ (too_many_interactions args relevant = false ->
      In (noise_type args)
         [constants.NO_NOISE; constants.EPSILON_IRRELEVANT;
          constants.ADDITIVE_GAUSSIAN] ->
      is_Ok (gen_polynomial L args relevant g1)).
Proof.
  intros laws run. split; [apply gen_polynomial_too_many|].
  intros enough known. apply gen_polynomial_returns; try assumption.
  intros i. apply (get_relevant_features_range L args more g relevant g1 i run).
Qed.

Lemma rows_to_length {A} (k : Z) (data : list A) :
  (0 <= k)%Z -> length (rows_to k data) = Nat.min (Z.to_nat k) (length data).
Proof.
  intros nonneg. unfold rows_to. rewrite (proj2 (Z.leb_le 0 k) nonneg).
  apply length_take.
Qed.

(** The shape of what [synthesize_data] returns. *)
Lemma synthesize_data_shape_lemma (L : Libs) (D : DataLibs L) args more (g : rng L) :
  LibsLaws L -> DataLibsLaws D ->
  (0 <= num_instances more)%Z -> (0 <= clustering_instance_count more)%Z ->
  exists probs test_data clustering_data g',
    synthesize_data L D args more g = Ok (probs, test_data, clustering_data, g')
    /\ length probs = num_features args
    /\ length test_data = Z.to_nat (num_instances more)
    /\ length clustering_data
       = (if (clustering_instance_count more =? 0)%Z
          then Z.to_nat (num_instances more)
          else Z.to_nat (clustering_instance_count more))
    /\ Forall (fun row => length row = num_features args) (test_data ++ clustering_data)
    /\ (test_data `prefix_of` clustering_data \/ clustering_data `prefix_of` test_data).
Proof.
  intros laws dlaws ni cic. unfold synthesize_data.
  pose proof (uniform_size_length L laws g (num_features args)) as plen.
  destruct (uniform_size L g (num_features args)) as [probs g1]. simpl in plen.
  set (rows := Z.max (num_instances more) (clustering_instance_count more)).
  assert ((rows <? 0)%Z = false) as -> by (apply Z.ltb_ge; lia).
  pose proof (binomial_rows D dlaws g1 1 probs (Z.to_nat rows)) as dlen.
  pose proof (binomial_columns D dlaws g1 1 probs (Z.to_nat rows)) as columns.
  destruct (binomial D g1 1 probs (Z.to_nat rows)) as [data g2]. simpl in dlen, columns.
  assert (wide : forall l, (forall row, In row l -> In row data) ->
                           Forall (fun row => length row = num_features args) l).
  { intros l sub. apply Forall_forall. intros row rin.
    rewrite <- plen. apply columns, sub, list_elem_of_In, rin. }
  assert (taken : forall k row, In row (rows_to k data) -> In row data).
  { intros k row. unfold rows_to. rewrite <- !list_elem_of_In.
    destruct (0 <=? k)%Z; apply subseteq_take. }
  destruct (Z.eqb_spec (clustering_instance_count more) 0) as [zero|positive]; simpl.
  - exists probs, data, data, g2. split; [reflexivity|]. split; [exact plen|].
    split; [lia|]. split; [lia|]. split; [|left; reflexivity].
    apply wide. intros row rin. apply in_app_iff in rin. tauto.
  - destruct (Z.ltb_spec (num_instances more) (clustering_instance_count more))
      as [fewer|more_instances].
    + exists probs, (rows_to (num_instances more) data),
        (rows_to (clustering_instance_count more) data), g2.
      split; [reflexivity|]. split; [exact plen|].
      rewrite !rows_to_length by assumption.
      split; [lia|]. split; [lia|]. split.
      * apply wide. intros row rin. apply in_app_iff in rin as [rin|rin];
          eapply taken; exact rin.
      * left. unfold rows_to.
        rewrite (proj2 (Z.leb_le 0 _) ni), (proj2 (Z.leb_le 0 _) cic).
        exists (take (Z.to_nat (clustering_instance_count more)
                      - Z.to_nat (num_instances more))
                  (drop (Z.to_nat (num_instances more)) data)).
        rewrite take_take_drop. f_equal. lia.
    + exists probs, data, (rows_to (clustering_instance_count more) data), g2.
      split; [reflexivity|]. split; [exact plen|].
      rewrite !rows_to_length by assumption.
      split; [lia|]. split; [lia|]. split.
      * apply wide. intros row rin. apply in_app_iff in rin as [rin|rin];
          [exact rin|eapply taken; exact rin].
      * right. unfold rows_to. rewrite (proj2 (Z.leb_le 0 _) cic).
        apply prefix_take.
Qed.

(** X9.  With non-negative instance counts [synthesize_data] returns one
    probability per feature, [num_instances] rows of test data and, for the
    clustering, [clustering_instance_count] rows, or all the test data when
    that count is 0; every row has one entry per feature, and of the two
    matrices the shorter holds the first rows of the longer. *)
Theorem synthesize_data_shape (L : Libs) (D : DataLibs L) args more (g : rng L) :
  LibsLaws L -> DataLibsLaws D ->
  (0 <= num_instances more)%Z -> (0 <= clustering_instance_count more)%Z ->
  exists probs test_data clustering_data g',
    synthesize_data L D args more g = Ok (probs, test_data, clustering_data, g')
    /\ length probs = num_features args
    /\ length test_data = Z.to_nat (num_instances more)
    /\ length clustering_data
       = (if (clustering_instance_count more =? 0)%Z
          then Z.to_nat (num_instances more)
          else Z.to_nat (clustering_instance_count more))
    /\ Forall (fun row => length row = num_features args) (test_data ++ clustering_data)
    /\ (test_data `prefix_of` clustering_data \/ clustering_data `prefix_of` test_data).
Proof.
  apply synthesize_data_shape_lemma.
Qed.

Lemma gen_targets_returns args (polynomial_fn : expr) (data : list (list nat)) :
  Forall (fun row => length row = num_features args) data ->
  exists targets,
    gen_targets args polynomial_fn data = Ok targets /\ length targets = length data.
Proof.
  intros wide. unfold gen_targets.
  exists (map (fun instance => eval (feature_values instance) polynomial_fn) data).
  split; [|apply length_map]. apply mapM_result_total.
  apply Forall_forall. intros row rin. rewrite Forall_forall in wide.
  unfold lambdify. rewrite sym_features_length, (wide row rin), Nat.eqb_refl.
  reflexivity.
Qed.

(** X10.  On the test data of [synthesize_data], [gen_targets] returns for
    every polynomial, and the three datasets that [write_data] then creates
    have one entry per instance: [num_instances] record identifiers, targets
    and rows of static data. *)
Theorem datasets_of_one_length (L : Libs) (D : DataLibs L) args more (g : rng L)
  (polynomial_fn : expr) probs test_data clustering_data g' :
  LibsLaws L -> DataLibsLaws D ->
  (0 <= num_instances more)%Z -> (0 <= clustering_instance_count more)%Z ->
  synthesize_data L D args more g = Ok (probs, test_data, clustering_data, g') ->
  exists targets,
    gen_targets args polynomial_fn test_data = Ok targets
    /\ let '(record_ids, written_targets, static) := write_data more test_data targets in
       length record_ids = Z.to_nat (num_instances more)
       /\ length written_targets = Z.to_nat (num_instances more)
       /\ length static = Z.to_nat (num_instances more).
Proof.
  intros laws dlaws ni cic run.
  destruct (synthesize_data_shape_lemma L D args more g laws dlaws ni cic)
    as (probs0 & test0 & clustering0 & g0 & run0 & _ & tlen & _ & wide & _).
  rewrite run in run0. injection run0 as <- <- <- <-.
  apply Forall_app in wide as [wide _].
  destruct (gen_targets_returns args polynomial_fn test_data wide) as (targets & ok & len).
  exists targets. split; [exact ok|]. unfold write_data.
  rewrite length_map, length_seq. lia.
Qed.

End data.

Section data_examples.

Import simulation.

Lemma example_data_libs_laws : DataLibsLaws example_data_libs.
Proof.
  split.
  - intros g n probs rows. apply length_replicate.
  - intros g n probs rows row rin. simpl in rin.
    apply list_elem_of_In, elem_of_replicate in rin as [-> _]. apply length_replicate.
Qed.

Lemma relevant_features_count_witness :
  match get_relevant_features example_libs example_args_45 example_data_args_07 0 with
  | Ok (relevant, _) => size relevant = 31
  | Raise _ => False
  end.
Proof.
  pose proof (relevant_features_count example_libs example_args_45
                example_data_args_07 0 example_libs_laws) as counted.
  destruct (get_relevant_features example_libs example_args_45
              example_data_args_07 0) as [[relevant g1]|e].
  - destruct counted as (features & rounded & conv & near & _ & count).
    vm_compute in conv. injection conv as <-.
    vm_compute in near. injection near as <-.
    exact count.
  - destruct counted as [conv|(features & conv & near)].
    + vm_compute in conv. discriminate conv.
    + vm_compute in conv. injection conv as <-.
      vm_compute in near. discriminate near.
Defined.

Lemma polynomial_of_relevant_features_witness :
  match get_relevant_features example_libs (example_args false)
          example_data_args 0 with
  | Ok (relevant, g1) =>
      is_Ok (gen_polynomial example_libs (example_args false) relevant g1)
  | Raise _ => False
  end.
Proof.
  destruct (get_relevant_features example_libs (example_args false)
              example_data_args 0) as [[relevant g1]|e] eqn:run.
  - apply (polynomial_of_relevant_features example_libs (example_args false)
             example_data_args 0 relevant g1 example_libs_laws run).
    + vm_compute in run. injection run as <- _. vm_compute. reflexivity.
    + right. left. reflexivity.
  - vm_compute in run. discriminate run.
Defined.

Lemma synthesize_data_shape_witness :
  exists probs test_data clustering_data g',
    synthesize_data example_libs example_data_libs (example_args false)
      example_data_args 0 = Ok (probs, test_data, clustering_data, g')
    /\ length probs = 4
    /\ length test_data = 3
    /\ length clustering_data = 2
    /\ Forall (fun row => length row = 4) (test_data ++ clustering_data)
    /\ (test_data `prefix_of` clustering_data \/ clustering_data `prefix_of` test_data).
Proof.
  apply (synthesize_data_shape example_libs example_data_libs (example_args false)
           example_data_args 0 example_libs_laws example_data_libs_laws);
    simpl; lia.
Defined.

Lemma datasets_of_one_length_witness :
  match synthesize_data example_libs example_data_libs (example_args false)
          example_data_args 0 with
  | Ok (_, test_data, _, _) =>
      exists targets,
        gen_targets (example_args false) [(1 # 2, [x 0; x 1])]%Q test_data = Ok targets
        /\ let '(record_ids, written_targets, static) :=
             write_data example_data_args test_data targets in
           length record_ids = 3 /\ length written_targets = 3 /\ length static = 3
  | Raise _ => False
  end.
Proof.
  destruct (synthesize_data example_libs example_data_libs (example_args false)
              example_data_args 0)
    as [[[[probs test_data] clustering_data] g']|e] eqn:run; [|discriminate run].
  refine (datasets_of_one_length _ _ _ _ _ _ _ _ _ _
            example_libs_laws example_data_libs_laws _ _ run); simpl; lia.
Defined.

End data_examples.
(** ** More on the hierarchies *)

Section hierarchies.

Import simulation.

Implicit Types (node root : Node) (nodes : list Node) (args : Args).

(** *** The renaming keeps the features *)

Lemma contiguous_leaf_case (a : attrs) (i : nat) (m : gmap nat nat) node' st' :
  contiguous (mkNode a []) (i, m) = Ok (node', st') ->
  exists static original,
    static_indices a = Some static /\ int static = Ok original
    /\ node' = mkNode (set_contiguous i i i 1 (str i) a) []
    /\ st' = (S i, <[ i := original ]> m).
Proof.
  cbn [contiguous mapM_state]. unfold contiguous_visit, getattr. simpl.
  destruct (static_indices a) as [static|]; [|discriminate].
  cbv beta iota delta [mbind result_bind].
  destruct (int static) as [original|] eqn:parses; [|discriminate].
  intros [= <- <-]. exists static, original. auto.
Qed.

Lemma contiguous_internal_case (a : attrs) (c : Node) (cs : list Node)
  (i : nat) (m : gmap nat nat) node' st' :
  contiguous (mkNode a (c :: cs)) (i, m) = Ok (node', st') ->
  exists c' cs' i1 m1 lo hi size nm mins idxs,
    mapM_state contiguous (c :: cs) (i, m) = Ok (c' :: cs', (i1, m1))
    /\ node' = mkNode (set_contiguous i1 lo hi size nm a) (c' :: cs')
    /\ st' = (S i1, m1)
    /\ mapM_result (getattr min_child_idx) (c' :: cs') = Ok mins
    /\ min_nat mins = Ok lo
    /\ mapM_result (getattr idx) (c' :: cs') = Ok idxs
    /\ max_nat idxs = Ok hi.
Proof.
  cbn [contiguous]. intros run.
  destruct (mapM_state contiguous (c :: cs) (i, m)) as [[cs' [i1 m1]]|] eqn:kids;
    [|discriminate].
  pose proof kids as shape.
  apply mapM_state_unfold in shape as (c' & s1 & cs'' & s2 & _ & _ & [= -> _]).
  unfold contiguous_visit in run.
  destruct (mapM_result (getattr min_child_idx) (c' :: cs'')) as [mins|] eqn:reads1;
    [|discriminate].
  cbv beta iota delta [mbind result_bind] in run.
  destruct (min_nat mins) as [lo|] eqn:least; [|discriminate].
  cbv beta iota delta [mbind result_bind] in run.
  destruct (mapM_result (getattr idx) (c' :: cs'')) as [idxs|] eqn:reads2;
    [|discriminate].
  cbv beta iota delta [mbind result_bind] in run.
  destruct (max_nat idxs) as [hi|] eqn:most; [|discriminate].
  cbv beta iota delta [mbind result_bind] in run.
  destruct (mapM_result (getattr num_base_features) (c' :: cs'')) as [sizes|];
    [|discriminate].
  cbv beta iota delta [mbind result_bind] in run. injection run as <- <-.
  exists c', cs'', i1, m1, lo, hi. eexists _, _. exists mins, idxs.
  repeat (split; [first [reflexivity|assumption]|]). exact most.
Qed.

(** The renaming keeps the static indices of the leaves, in their order,
    and changes the feature-id map at the indices of the leaves only. *)
Lemma contiguous_kept node :
  forall i m node' j m',
    contiguous node (i, m) = Ok (node', (j, m')) ->
    Forall2 (fun leaf leaf' =>
               static_indices (attrs_of leaf') = static_indices (attrs_of leaf))
      (leaves node) (leaves node')
    /\ (forall k, (forall leaf', In leaf' (leaves node') ->
                                 idx (attrs_of leaf') <> Some k) ->
                  m' !! k = m !! k).
Proof.
  induction node as [a cs IH] using Node_induction. intros i m node' j m' run.
  destruct cs as [|c cs].
  - apply contiguous_leaf_case in run
      as (static & original & has & parses & -> & [= -> ->]).
    split; [repeat constructor|].
    intros k other. apply lookup_insert_ne. intros <-.
    apply (other _ (or_introl eq_refl)). reflexivity.
  - apply contiguous_internal_case in run
      as (c' & cs' & i1 & m1 & lo & hi & size & nm & mins & idxs
          & kids & -> & [= -> ->] & _).
    rewrite !leaves_internal.
    revert kids. generalize (c' :: cs'). generalize (c :: cs) IH i m.
    clear. intros cs IH. induction IH as [|c cs head _ IHcs]; intros i m cs' kids.
    + injection kids as <- _ <-. split; [constructor|reflexivity].
    + apply mapM_state_unfold in kids
        as (c' & [i0 m0] & cs'' & [i2 m2] & first & rest & [= -> -> ->]).
      destruct (head _ _ _ _ _ first) as [same kept].
      destruct (IHcs _ _ _ rest) as [same_rest kept_rest].
      cbn [flat_map]. split; [apply Forall2_app; assumption|].
      intros k other. rewrite kept_rest, kept; [reflexivity| |];
        intros leaf' lin; apply other, in_app_iff; auto.
Qed.

(** The leaves of every hierarchy [gen_hierarchy] returns carry the static
    indices "0", ..., "N - 1", each of them once. *)
Lemma gen_hierarchy_statics (L : Libs) args (data : matrix L) (g : rng L) :
  LibsLaws L ->
  (hierarchy_type args = constants.RANDOM /\ 0 < num_features args)
  \/ (hierarchy_type args = constants.CLUSTER_FROM_DATA
      /\ valid_clusters L data (num_features args)) ->
  exists root feature_id_map g',
    gen_hierarchy L args data g = Ok (root, feature_id_map, g')
    /\ Permutation (map (fun leaf => static_indices (attrs_of leaf)) (leaves root))
         (map (fun i => Some (str i)) (seq 0 (num_features args))).
Proof.
  intros laws built.
  destruct (build_hierarchy_leaves L args data g laws built)
    as (plain & g1 & build & perm).
  assert (statics : Permutation
                      (map (fun leaf => static_indices (attrs_of leaf)) (leaves plain))
                      (map (fun i => Some (str i)) (seq 0 (num_features args)))).
  { rewrite perm. unfold feature_leaves. rewrite map_map. reflexivity. }
  rewrite <- (set_contiguous_node_names_id args).
  destruct (contiguous_node_names args).
  - rewrite gen_hierarchy_contiguous, build.
    destruct (contiguous_returns plain) with (st := (0, ∅ : gmap nat nat))
      as [[root [j m']] run].
    { intros leaf lin. apply (Permutation_in _ perm) in lin.
      apply feature_leaves_named in lin as (i & _ & ->). eexists; reflexivity. }
    rewrite run. exists root, m', g1. split; [reflexivity|].
    apply contiguous_kept in run as [same _].
    assert (map (fun leaf => static_indices (attrs_of leaf)) (leaves root)
            = map (fun leaf => static_indices (attrs_of leaf)) (leaves plain)) as ->;
      [|exact statics].
    clear -same. induction same as [|leaf leaf' ls ls' here _ IHsame]; [reflexivity|].
    simpl. rewrite IHsame, here. reflexivity.
  - rewrite gen_hierarchy_plain, build. exists plain, ∅, g1. auto.
Qed.

(** X11.  The hierarchy that [gen_hierarchy] builds over N features, at
    random (N > 0) or from a valid linkage matrix, with or without
    contiguous names, covers the features: the feature indices its leaves
    name are 0, ..., N - 1, each of them once. *)
Theorem hierarchy_covers_features (L : Libs) args (data : matrix L) (g : rng L) :
  LibsLaws L ->
  (hierarchy_type args = constants.RANDOM /\ 0 < num_features args)
  \/ (hierarchy_type args = constants.CLUSTER_FROM_DATA
      /\ valid_clusters L data (num_features args)) ->
  exists root feature_id_map g',
    gen_hierarchy L args data g = Ok (root, feature_id_map, g')
    /\ Permutation (map feature_of (leaves root)) (map Ok (seq 0 (num_features args))).
Proof.
  intros laws built.
  destruct (gen_hierarchy_statics L args data g laws built)
    as (root & feature_id_map & g' & run & statics).
  exists root, feature_id_map, g'. split; [exact run|].
  apply (Permutation_map (fun static : option string =>
                            match static with
                            | Some s => int s
                            | None => Raise AttributeError
                            end)) in statics.
  rewrite !map_map in statics.
  erewrite (map_ext _ feature_of), (map_ext _ Ok) in statics; [exact statics| |].
  - intros i. apply int_str.
  - intros leaf. unfold feature_of, getattr.
    destruct (static_indices (attrs_of leaf)); reflexivity.
Qed.

(** *** The random hierarchy *)

Lemma pair_induction {A} (P : list A -> Prop) :
  P [] -> (forall a, P [a]) -> (forall a b l, P l -> P (a :: b :: l)) ->
  forall l, P l.
Proof.
  intros empty single step.
  assert (both : forall l, P l /\ forall a, P (a :: l)).
  { induction l as [|b l [here next]]; split; auto. }
  intros l. apply both.
Qed.

Lemma pair_rounds_short (node_count : nat) nodes :
  length nodes <= 1 -> pair_rounds node_count nodes = nodes.
Proof.
  intros short. funelim (pair_rounds node_count nodes); [lia|reflexivity].
Qed.

(** What every round of pairing keeps holds of the nodes left at the end;
    the invariant may mention the number of rounds done and the running
    node count. *)
Lemma pair_rounds_invariant (I : nat -> nat -> list Node -> Prop) :
  (forall round node_count nodes,
     1 < length nodes -> I round node_count nodes ->
     I (S round) (snd (pair_up node_count nodes)) (fst (pair_up node_count nodes))) ->
  forall node_count nodes round,
    I round node_count nodes ->
    exists rounds last_count,
      I rounds last_count (pair_rounds node_count nodes).
Proof.
  intros step node_count nodes. funelim (pair_rounds node_count nodes);
    intros round start.
  - apply (H I step (S round)). apply step; assumption.
  - eauto.
Qed.

(** One round puts every node one level further down and makes parents of
    one or two children. *)
Lemma pair_up_depth (depth node_count : nat) nodes :
  Forall (fun node => uniform_depth depth node = true) nodes ->
  Forall (fun node => uniform_depth (S depth) node = true)
    (fst (pair_up node_count nodes)).
Proof.
  revert node_count. induction nodes as [|a|a b l IH] using pair_induction;
    intros node_count deep; simpl.
  - constructor.
  - inversion deep; subst. repeat constructor. simpl. rewrite H1. reflexivity.
  - inversion deep as [|? ? da deep']; subst. inversion deep' as [|? ? db deep'']; subst.
    specialize (IH (S node_count) deep'').
    destruct (pair_up (S node_count) l) as [parents count]. simpl in *.
    constructor; [|exact IH]. simpl. rewrite da, db. reflexivity.
Qed.

Lemma pair_up_children (node_count : nat) nodes :
  Forall (fun node => Forall (fun n => length (children n) <= 2) (PostOrderIter node))
    nodes ->
  Forall (fun node => Forall (fun n => length (children n) <= 2) (PostOrderIter node))
    (fst (pair_up node_count nodes)).
Proof.
  revert node_count. induction nodes as [|a|a b l IH] using pair_induction;
    intros node_count small; simpl.
  - constructor.
  - inversion small; subst. repeat constructor.
    apply PostOrderIter_Forall; [repeat constructor; assumption|simpl; lia].
  - inversion small as [|? ? sa small']; subst.
    inversion small' as [|? ? sb small'']; subst.
    specialize (IH (S node_count) small'').
    destruct (pair_up (S node_count) l) as [parents count]. simpl in *.
    constructor; [|exact IH].
    apply PostOrderIter_Forall; [repeat constructor; assumption|simpl; lia].
Qed.

Lemma pair_up_pair (node_count : nat) (a b : Node) nodes :
  pair_up node_count (a :: b :: nodes)
  = (mkNode (new_attrs (str node_count) None) [a; b]
       :: fst (pair_up (S node_count) nodes),
     snd (pair_up (S node_count) nodes)).
Proof. simpl. destruct (pair_up (S node_count) nodes). reflexivity. Qed.

Lemma full_but_last_positive (round : nat) nodes :
  nodes <> [] -> full_but_last round nodes -> 1 <= length (flat_map leaves nodes).
Proof.
  destruct nodes as [|a [|b l]]; [congruence| |]; intros _ full; simpl in *;
    rewrite ?length_app.
  - lia.
  - destruct full as [exact _]. pose proof (Nat.pow_nonzero 2 round). lia.
Qed.

Lemma full_but_last_step (round node_count : nat) nodes :
  full_but_last round nodes ->
  full_but_last (S round) (fst (pair_up node_count nodes)).
Proof.
  revert node_count. induction nodes as [|a|a b l IH] using pair_induction;
    intros node_count full.
  - exact I.
  - simpl in *. rewrite app_nil_r. lia.
  - destruct full as [exact full]. specialize (IH (S node_count)).
    destruct l as [|c l].
    + cbn. rewrite length_app, app_nil_r. simpl in full. lia.
    + destruct full as [exactb full]. specialize (IH full).
      pose proof (pair_up_nonempty (c :: l) (S node_count) ltac:(discriminate))
        as nonempty.
      rewrite pair_up_pair. cbn [fst].
      destruct (fst (pair_up (S node_count) (c :: l))) as [|p parents'];
        [congruence|].
      split; [|exact IH].
      cbn. rewrite length_app, app_nil_r. lia.
Qed.

Lemma pair_up_count (node_count : nat) nodes :
  node_count <= snd (pair_up node_count nodes).
Proof.
  revert node_count. induction nodes as [|a|a b l IH] using pair_induction;
    intros node_count; simpl; [lia|lia|].
  specialize (IH (S node_count)). destruct (pair_up (S node_count) l). simpl in *. lia.
Qed.

(** One round keeps the names and adds those of the parents: the numbers
    from the node count on. *)
Lemma pair_up_names (node_count : nat) nodes :
  Permutation (flat_map names (fst (pair_up node_count nodes)))
    (flat_map names nodes
     ++ map str (seq node_count (snd (pair_up node_count nodes) - node_count))).
Proof.
  revert node_count. induction nodes as [|a|a b l IH] using pair_induction;
    intros node_count.
  - simpl. rewrite Nat.sub_diag. reflexivity.
  - simpl. replace (S node_count - node_count) with 1 by lia.
    unfold names at 1. cbn [PostOrderIter flat_map attrs_of name new_attrs map].
    rewrite !app_nil_r, map_app. reflexivity.
  - specialize (IH (S node_count)). pose proof (pair_up_count (S node_count) l) as grows.
    cbn [pair_up]. destruct (pair_up (S node_count) l) as [parents count].
    cbn [fst snd] in *.
    replace (count - node_count) with (S (count - S node_count)) by lia.
    cbn [flat_map seq map]. rewrite IH.
    unfold names at 1. cbn [PostOrderIter flat_map attrs_of name new_attrs].
    rewrite !app_nil_r, !map_app. cbn [map attrs_of name].
    fold (names a). fold (names b).
    rewrite <- !app_assoc. apply Permutation_app_head, Permutation_app_head.
    cbn [app name new_attrs]. apply Permutation_middle.
Qed.

Lemma str_inj : Inj eq eq str.
Proof.
  intros a b same. pose proof (int_str a) as ia. rewrite same, int_str in ia.
  congruence.
Qed.

(** The nodes the random builder ends with. *)
Lemma gen_random_hierarchy_unfold (L : Libs) args (g : rng L) root g' :
  LibsLaws L ->
  gen_random_hierarchy L args g = Ok (root, g') ->
  exists shuffled,
    Permutation shuffled (feature_leaves (num_features args))
    /\ pair_rounds (length shuffled) shuffled = [root].
Proof.
  intros laws run. unfold gen_random_hierarchy in run.
  pose proof (shuffle_Permutation L laws _ g (feature_leaves (num_features args)))
    as perm.
  destruct (shuffle L g (feature_leaves (num_features args))) as [shuffled g1].
  simpl in perm. exists shuffled. split; [exact perm|].
  destruct shuffled as [|first rest].
  - rewrite pair_rounds_short in run by (simpl; lia). discriminate run.
  - destruct (pair_rounds_single (length (first :: rest)) (first :: rest))
      as [only single]; [discriminate|].
    rewrite single in run |- *. simpl in run. congruence.
Qed.

Lemma feature_leaves_length (n : nat) : length (feature_leaves n) = n.
Proof. unfold feature_leaves. rewrite length_map, length_seq. reflexivity. Qed.

(** X12.  The random hierarchy is balanced: all its leaves are at one depth,
    the least that N leaves allow when a node has at most two children
    (2^(depth - 1) < N <= 2^depth), and every node has at most two
    children. *)
Theorem random_hierarchy_balanced (L : Libs) args (g : rng L) root g' :
  LibsLaws L ->
  gen_random_hierarchy L args g = Ok (root, g') ->
  exists depth,
    uniform_depth depth root = true
    /\ num_features args <= 2 ^ depth
    /\ (depth = 0 \/ 2 ^ (depth - 1) < num_features args)
    /\ Forall (fun n => length (children n) <= 2) (PostOrderIter root).
Proof.
  intros laws run.
  apply (gen_random_hierarchy_unfold L _ _ _ _ laws) in run
    as (shuffled & perm & rounds).
  assert (are_leaves : Forall (fun node => children node = []) shuffled).
  { apply Forall_forall. intros node nin. apply list_elem_of_In in nin.
    apply (Permutation_in _ perm), in_map_iff in nin as (i & <- & _). reflexivity. }
  assert (count : length (flat_map leaves shuffled) = num_features args).
  { rewrite (feature_leaves_are_leaves _ _ perm), perm. apply feature_leaves_length. }
  set (I := fun (round node_count : nat) (nodes : list Node) =>
              Forall (fun node => uniform_depth round node = true) nodes
              /\ full_but_last round nodes
              /\ (round = 0 \/ 2 ^ (round - 1) < length (flat_map leaves nodes))
              /\ Forall (fun node => Forall (fun n => length (children n) <= 2)
                                       (PostOrderIter node)) nodes).
  destruct (pair_rounds_invariant I) with (node_count := length shuffled)
    (nodes := shuffled) (round := 0) as (depth & last_count & deep & full & least & small).
  - intros round node_count nodes more (deep & full & _ & small).
    split; [apply pair_up_depth, deep|]. split; [apply full_but_last_step, full|].
    split; [|apply pair_up_children, small].
    right. rewrite pair_up_leaves. simpl. rewrite Nat.sub_0_r.
    destruct nodes as [|a [|b l]]; [simpl in more; lia|simpl in more; lia|].
    destruct full as [exact full].
    pose proof (full_but_last_positive round (b :: l) ltac:(discriminate) full).
    change (flat_map leaves (a :: b :: l)) with (leaves a ++ flat_map leaves (b :: l)).
    rewrite length_app. lia.
  - split; [|split; [|split; [left; reflexivity|]]].
    + eapply Forall_impl; [exact are_leaves|]. intros [a cs] leaf. simpl in leaf.
      subst cs. reflexivity.
    + clear -are_leaves. induction are_leaves as [|[a cs] l leaf _ IH]; [exact I|].
      simpl in leaf. subst cs. destruct l as [|b l]; simpl; [lia|]. split; [reflexivity|].
      exact IH.
    + eapply Forall_impl; [exact are_leaves|]. intros [a cs] leaf. simpl in leaf.
      subst cs. repeat constructor.
  - rewrite pair_rounds_leaves, count in least. rewrite rounds in deep, full, small.
    exists depth. inversion deep; subst. inversion small; subst.
    assert (leaves root = flat_map leaves [root]) as total by (simpl; rewrite app_nil_r; reflexivity).
    rewrite <- rounds, pair_rounds_leaves in total.
    simpl in full. rewrite total, count in full.
    split; [assumption|]. split; [lia|]. split; assumption.
Qed.

(** X13.  The nodes of the random hierarchy carry the names "0", "1", ...,
    up to the number of nodes, each name once: the leaves those of their
    features, the parents the numbers from N on. *)
Theorem random_hierarchy_names (L : Libs) args (g : rng L) root g' :
  LibsLaws L ->
  gen_random_hierarchy L args g = Ok (root, g') ->
  Permutation (names root) (map str (seq 0 (length (PostOrderIter root))))
  /\ NoDup (names root)
  /\ map (fun leaf => name (attrs_of leaf)) (leaves root)
     ≡ₚ map str (seq 0 (num_features args)).
Proof.
  intros laws run.
  apply (gen_random_hierarchy_unfold L _ _ _ _ laws) in run
    as (shuffled & perm & rounds).
  assert (start : Permutation (flat_map names shuffled)
                    (map str (seq 0 (length shuffled)))).
  { rewrite perm at 2. rewrite feature_leaves_length.
    assert (flat_map names shuffled = map (fun n => name (attrs_of n)) shuffled) as ->.
    { assert (are_leaves : Forall (fun node => children node = []) shuffled).
      { apply Forall_forall. intros node nin. apply list_elem_of_In in nin.
        apply (Permutation_in _ perm), in_map_iff in nin as (i & <- & _). reflexivity. }
      clear -are_leaves. induction are_leaves as [|[a cs] l leaf _ IH]; [reflexivity|].
      simpl in leaf. subst cs. simpl. rewrite IH. reflexivity. }
    rewrite perm. unfold feature_leaves. rewrite map_map. reflexivity. }
  set (I := fun (round node_count : nat) (nodes : list Node) =>
              Permutation (flat_map names nodes) (map str (seq 0 node_count))).
  destruct (pair_rounds_invariant I) with (node_count := length shuffled)
    (nodes := shuffled) (round := 0) as (depth & last_count & named).
  - intros round node_count nodes _ named. unfold I in *.
    rewrite pair_up_names, named. pose proof (pair_up_count node_count nodes).
    rewrite <- map_app, <- seq_app. replace (node_count + (_ - node_count))
      with (snd (pair_up node_count nodes)) by lia. reflexivity.
  - exact start.
  - unfold I in named. rewrite rounds in named. simpl in named.
    rewrite app_nil_r in named.
    assert (last_count = length (PostOrderIter root)) as ->.
    { apply Permutation_length in named. unfold names in named.
      rewrite !length_map, length_seq in named. lia. }
    split; [exact named|]. split.
    + rewrite named. apply NoDup_ListNoDup, Finite.Injective_map_NoDup;
        [exact str_inj|apply List.seq_NoDup].
    + assert (leaves root = flat_map leaves [root]) as ->
        by (simpl; rewrite app_nil_r; reflexivity).
      rewrite <- rounds, pair_rounds_leaves, (feature_leaves_are_leaves _ _ perm), perm.
      unfold feature_leaves. rewrite map_map. reflexivity.
Qed.

(** *** The hierarchy of the clusters, again *)

(** The loop only fails on an index; when it returns, every row named
    nodes that were made before it. *)
Lemma clusters_loop_outcome (n : nat) rest :
  forall idx nodes,
    match clusters_loop n idx nodes rest with
    | Ok nodes' =>
        length nodes' = length nodes + length rest
        /\ forall j row, rest !! j = Some row ->
             fst row < length nodes + j /\ snd row < length nodes + j
    | Raise e => e = IndexError
    end.
Proof.
  induction rest as [|[l r] rest IH]; intros idx nodes.
  - simpl. split; [lia|]. intros j row found. discriminate found.
  - cbn [clusters_loop]. unfold getitem.
    destruct (nodes !! l) as [left_node|] eqn:at_l; [|reflexivity].
    destruct (nodes !! r) as [right_node|] eqn:at_r; [|reflexivity].
    cbv beta iota delta [mbind result_bind].
    match goal with
    | |- context [clusters_loop n (S idx) ?grown rest] =>
        specialize (IH (S idx) grown);
        destruct (clusters_loop n (S idx) grown rest) as [nodes'|e]; [|exact IH]
    end.
    destruct IH as [len bounds]. rewrite length_app in len, bounds. simpl in *.
    split; [lia|]. intros [|j] row found.
    + injection found as <-. simpl.
      apply lookup_lt_Some in at_l, at_r. lia.
    + specialize (bounds j row found). lia.
Qed.

(** Without features [gen_hierarchy_from_clusters] raises, whatever the
    linkage matrix. *)
Lemma gen_hierarchy_from_clusters_no_features args (clusters : list (nat * nat)) :
  num_features args = 0 ->
  gen_hierarchy_from_clusters args clusters = Raise IndexError.
Proof.
  intros none. unfold gen_hierarchy_from_clusters. rewrite none.
  pose proof (clusters_loop_outcome 0 clusters 0 (feature_leaves 0)) as outcome.
  destruct (clusters_loop 0 0 (feature_leaves 0) clusters)
    as [nodes'|e]; [|subst e; reflexivity].
  destruct outcome as [len bounds].
  destruct clusters as [|row rest].
  - destruct nodes'; [reflexivity|discriminate len].
  - specialize (bounds 0 row eq_refl). simpl in bounds. lia.
Qed.

(** X14.  Without features no hierarchy is built.  When [num_features] is
    0, [gen_random_hierarchy] raises [IndexError] (the first of an empty
    list of nodes) and [gen_hierarchy_from_clusters] raises [IndexError]
    whatever the linkage matrix; so [gen_hierarchy] raises [IndexError] for
    the random type, and for the clustering type it raises the error of the
    clustering when SciPy refuses the data, and [IndexError] on every
    matrix the clustering would return. *)
Theorem gen_hierarchy_no_features (L : Libs) args (data : matrix L) (g : rng L) :
  LibsLaws L ->
  num_features args = 0 ->
  gen_random_hierarchy L args g = Raise IndexError
  /\ (forall clusters, gen_hierarchy_from_clusters args clusters = Raise IndexError)
  /\ (hierarchy_type args = constants.RANDOM ->
      gen_hierarchy L args data g = Raise IndexError)
  /\ (hierarchy_type args = constants.CLUSTER_FROM_DATA ->
      gen_hierarchy L args data g
      = match cluster_data L data with
        | Ok _ => Raise IndexError
        | Raise e => Raise e
        end).
Proof.
  intros laws none.
  assert (random : gen_random_hierarchy L args g = Raise IndexError).
  { unfold gen_random_hierarchy. rewrite none.
    pose proof (shuffle_Permutation L laws _ g (feature_leaves 0)) as perm.
    destruct (shuffle L g (feature_leaves 0)) as [shuffled g1]. simpl in perm.
    apply Permutation_nil_r in perm. subst shuffled.
    rewrite pair_rounds_short by (simpl; lia). reflexivity. }
  split; [exact random|].
  split; [intros clusters; apply gen_hierarchy_from_clusters_no_features, none|].
  split; intros type; unfold gen_hierarchy, build_hierarchy; rewrite type; simpl.
  - rewrite random. reflexivity.
  - destruct (cluster_data L data) as [clusters|e]; [|reflexivity].
    cbv beta iota delta [mbind result_bind].
    rewrite gen_hierarchy_from_clusters_no_features by exact none. reflexivity.
Qed.

(** X15.  A row of the linkage matrix that names a cluster not made before
    it (an index of [num_features] plus the row number, or more) makes
    [gen_hierarchy_from_clusters] raise [IndexError]. *)
Theorem clusters_out_of_range args (clusters : list (nat * nat)) (j : nat)
  (row : nat * nat) :
  clusters !! j = Some row ->
  num_features args + j <= fst row \/ num_features args + j <= snd row ->
  gen_hierarchy_from_clusters args clusters = Raise IndexError.
Proof.
  intros found beyond. unfold gen_hierarchy_from_clusters.
  pose proof (clusters_loop_outcome (num_features args) clusters 0
                (feature_leaves (num_features args))) as outcome.
  destruct (clusters_loop _ 0 _ clusters) as [nodes'|e]; [|subst e; reflexivity].
  destruct outcome as [_ bounds]. specialize (bounds j row found).
  rewrite feature_leaves_length in bounds. lia.
Qed.

Lemma full_binary_node (a : attrs) (l r : Node) :
  full_binary l -> full_binary r -> full_binary (mkNode a [l; r]).
Proof.
  intros fl fr. unfold full_binary. simpl. rewrite app_nil_r.
  rewrite !Forall_app. split; [split; assumption|].
  constructor; [right; reflexivity|constructor].
Qed.

Lemma full_binary_count node :
  full_binary node -> length (PostOrderIter node) + 1 = 2 * length (leaves node).
Proof.
  induction node as [a cs IH] using Node_induction. intros full.
  assert (below : Forall full_binary cs).
  { unfold full_binary in full. simpl in full. apply Forall_app in full as [full _].
    apply Forall_flat_map in full. exact full. }
  unfold full_binary in full. apply Forall_forall with (x := mkNode a cs) in full;
    [|apply list_elem_of_In, PostOrderIter_self].
  destruct full as [leaf|two].
  - destruct cs; [reflexivity|discriminate leaf].
  - destruct cs as [|l [|r [|]]]; try discriminate two.
    inversion IH as [|? ? hl IH']; subst. inversion IH' as [|? ? hr _]; subst.
    inversion below as [|? ? fl below']; subst. inversion below' as [|? ? fr _]; subst.
    specialize (hl fl). specialize (hr fr).
    simpl. rewrite !app_nil_r, !length_app. simpl. lia.
Qed.

(** A property of the nodes that a parent of two inherits holds of every
    node the loop makes over a valid linkage. *)
Lemma clusters_loop_Forall (P : Node -> Prop) (n : nat) rest :
  (forall a l r, P l -> P r -> P (mkNode a [l; r])) ->
  forall idx nodes free,
    forest n nodes free rest -> Forall P nodes ->
    exists nodes', clusters_loop n idx nodes rest = Ok nodes' /\ Forall P nodes'.
Proof.
  intros parent. induction rest as [|[l r] rest IH]; intros idx nodes free inv all.
  - exists nodes. auto.
  - destruct (forest_step n idx nodes free l r rest inv)
      as (left_node & right_node & free' & at_l & at_r & l_once & r_once & inv').
    destruct (IH (S idx) _ _ inv') as (nodes' & run & all').
    { apply Forall_app. split; [exact all|]. constructor; [|constructor].
      rewrite Forall_forall in all.
      apply parent; apply all; eapply list_elem_of_lookup_2; eassumption. }
    exists nodes'. split; [|exact all'].
    cbn [clusters_loop]. unfold getitem. rewrite at_l, at_r.
    cbv beta iota delta [mbind result_bind]. rewrite l_once.
    apply orb_false_iff in r_once as [-> ->]. exact run.
Qed.

(** X16.  Over a valid linkage matrix the hierarchy of the clusters is a
    full binary tree: every node is a leaf or has exactly two children, so
    that N features give 2N - 1 nodes. *)
Theorem clusters_full_binary args (clusters : list (nat * nat)) :
  valid_linkage (num_features args) clusters ->
  exists hierarchy_root,
    gen_hierarchy_from_clusters args clusters = Ok hierarchy_root
    /\ full_binary hierarchy_root
    /\ length (PostOrderIter hierarchy_root) + 1 = 2 * num_features args.
Proof.
  intros valid.
  destruct (gen_hierarchy_from_clusters_leaves args clusters valid)
    as (root & run & perm).
  exists root. split; [exact run|].
  assert (full : full_binary root).
  { apply forest_start in valid.
    destruct (clusters_loop_Forall full_binary (num_features args) clusters
                (fun a l r => full_binary_node a l r) 0 _ _ valid)
      as (nodes' & loop & all).
    - apply Forall_forall. intros leaf lin. apply list_elem_of_In in lin.
      unfold feature_leaves in lin. apply in_map_iff in lin as (i & <- & _).
      constructor; [left; reflexivity|constructor].
    - unfold gen_hierarchy_from_clusters in run. rewrite loop in run. simpl in run.
      destruct (last nodes') as [final|] eqn:at_last; [|discriminate].
      injection run as <-. rewrite Forall_forall in all. apply all.
      apply last_Some in at_last as [before ->]. apply elem_of_app. right.
      apply list_elem_of_singleton. reflexivity. }
  split; [exact full|].
  rewrite (full_binary_count root full), (Permutation_length perm),
    feature_leaves_length. reflexivity.
Qed.

End hierarchies.

Section hierarchy_examples.

Import simulation.

Lemma hierarchy_covers_features_witness :
  exists root feature_id_map g',
    gen_hierarchy example_libs (example_args false) [] 0 = Ok (root, feature_id_map, g')
    /\ Permutation (map feature_of (leaves root)) (map Ok (seq 0 4)).
Proof.
  apply (hierarchy_covers_features example_libs (example_args false) [] 0
           example_libs_laws).
  left. split; [reflexivity|simpl; lia].
Defined.

Lemma random_hierarchy_balanced_witness :
  exists root g' depth,
    gen_random_hierarchy example_libs (example_args false) 0 = Ok (root, g')
    /\ uniform_depth depth root = true
    /\ 4 <= 2 ^ depth
    /\ (depth = 0 \/ 2 ^ (depth - 1) < 4).
Proof.
  eexists. eexists.
  assert (run : gen_random_hierarchy example_libs (example_args false) 0
                = Ok (?[root], ?[g])) by (vm_compute; reflexivity).
  destruct (random_hierarchy_balanced example_libs (example_args false) 0 _ _
              example_libs_laws run) as (depth & deep & upper & lower & _).
  exists depth. split; [exact run|]. split; [exact deep|]. split; [exact upper|exact lower].
Defined.

Lemma random_hierarchy_names_witness :
  exists root g',
    gen_random_hierarchy example_libs (example_args false) 0 = Ok (root, g')
    /\ NoDup (names root).
Proof.
  eexists. eexists.
  assert (run : gen_random_hierarchy example_libs (example_args false) 0
                = Ok (?[root], ?[g])) by (vm_compute; reflexivity).
  split; [exact run|].
  exact (proj1 (proj2 (random_hierarchy_names example_libs (example_args false) 0 _ _
                         example_libs_laws run))).
Defined.

Lemma gen_hierarchy_no_features_witness :
  gen_hierarchy example_libs (example_args_empty constants.RANDOM) [] 0
    = Raise IndexError
  /\ gen_hierarchy example_libs (example_args_empty constants.CLUSTER_FROM_DATA) [] 0
     = Raise ValueError.
Proof.
  split.
  - apply (gen_hierarchy_no_features example_libs
             (example_args_empty constants.RANDOM) [] 0 example_libs_laws eq_refl).
    reflexivity.
  - rewrite (proj2 (proj2 (proj2
               (gen_hierarchy_no_features example_libs
                  (example_args_empty constants.CLUSTER_FROM_DATA) [] 0
                  example_libs_laws eq_refl))) eq_refl).
    reflexivity.
Defined.

Lemma clusters_out_of_range_witness :
  gen_hierarchy_from_clusters (example_args false) [(0, 1); (2, 9)] = Raise IndexError.
Proof.
  apply (clusters_out_of_range (example_args false) [(0, 1); (2, 9)] 1 (2, 9)).
  - reflexivity.
  - right. simpl. lia.
Defined.

Lemma clusters_full_binary_witness :
  exists hierarchy_root,
    gen_hierarchy_from_clusters (example_args false) [(0, 1); (2, 3); (4, 5)]
      = Ok hierarchy_root
    /\ full_binary hierarchy_root
    /\ length (PostOrderIter hierarchy_root) + 1 = 2 * 4.
Proof.
  exact (clusters_full_binary (example_args false) [(0, 1); (2, 3); (4, 5)]
           linkage_of_four).
Defined.

End hierarchy_examples.
(** ** More on the annotation and the p-values *)

Section annotated.

Import simulation.

Implicit Types (node root : Node) (probs : list Q).
Implicit Types (relevant_feature_map : gmap (gset nat) Q).

Lemma singleton_key_feature relevant_feature_map (i : nat) :
  is_Some (relevant_feature_map !! ({[i]} : gset nat)) ->
  i ∈ features_of_keys relevant_feature_map.
Proof.
  intros has. unfold features_of_keys. apply elem_of_union_list.
  exists {[i]}. split; [|apply elem_of_singleton; reflexivity].
  apply elem_of_elements, elem_of_dom, has.
Qed.

(** What the loop body does at a leaf. *)
Lemma annotate_leaf_spec relevant_feature_map probs (a : attrs) node' :
  annotate_leaf relevant_feature_map (features_of_keys relevant_feature_map) probs a
    = Ok node' ->
  exists static i prob,
    static_indices a = Some static /\ int static = Ok i /\ probs !! i = Some prob
    /\ node' = mkNode (set_leaf_relevance (leaf_description relevant_feature_map i prob)
                         (leaf_coefficient relevant_feature_map i) prob a) [].
Proof.
  unfold annotate_leaf, getattr, getitem. simpl.
  destruct (static_indices a) as [static|] eqn:has; [|discriminate].
  cbv beta iota delta [mbind result_bind].
  destruct (int static) as [i|] eqn:parses; [|discriminate].
  cbv beta iota delta [mbind result_bind].
  destruct (probs !! i) as [prob|] eqn:found; [|discriminate].
  cbv beta iota delta [mbind result_bind].
  intros run. exists static, i, prob.
  repeat (split; [first [reflexivity|assumption]|]).
  revert run. unfold leaf_description, leaf_coefficient.
  destruct (relevant_feature_map !! ({[i]} : gset nat)) as [coeff|] eqn:linear.
  - destruct (truthy coeff); [intros [= <-]; reflexivity|].
    rewrite bool_decide_eq_true_2
      by (apply singleton_key_feature; rewrite linear; eexists; reflexivity).
    intros [= <-]. reflexivity.
  - destruct (bool_decide _); intros [= <-]; reflexivity.
Qed.

(** Every leaf of the annotated hierarchy is the leaf of a feature,
    annotated as that feature asks. *)
Lemma annotate_leaves relevant_feature_map probs root root' :
  annotate relevant_feature_map (features_of_keys relevant_feature_map) probs root
    = Ok root' ->
  Forall2 (fun leaf leaf' =>
             exists static i prob,
               static_indices (attrs_of leaf) = Some static /\ int static = Ok i
               /\ probs !! i = Some prob
               /\ leaf' = mkNode (set_leaf_relevance
                                    (leaf_description relevant_feature_map i prob)
                                    (leaf_coefficient relevant_feature_map i) prob
                                    (attrs_of leaf)) [])
    (leaves root) (leaves root').
Proof.
  revert root'. induction root as [a cs IH] using Node_induction. intros root' run.
  destruct cs as [|c cs].
  - simpl in run. apply annotate_leaf_spec in run as (static & i & prob & ? & ? & ? & ->).
    repeat constructor. exists static, i, prob. auto.
  - apply annotate_unfold in run as (cs' & kids & visit).
    apply annotate_internal_unfold in visit as (_ & ->).
    assert (nonempty : cs' <> []) by (inversion kids; discriminate).
    destruct cs' as [|c' cs']; [congruence|]. rewrite !leaves_internal.
    clear nonempty. revert kids IH. generalize (c :: cs) (c' :: cs'). clear.
    intros l l' kids. induction kids as [|k k' ks ks' run _ IHkids]; intros IH.
    + constructor.
    + inversion IH; subst. cbn [flat_map]. apply Forall2_app; auto.
Qed.

Lemma leaf_description_irrelevant relevant_feature_map (i : nat) (prob : Q) :
  leaf_description relevant_feature_map i prob = IRRELEVANT
  <-> i ∉ features_of_keys relevant_feature_map.
Proof.
  unfold leaf_description.
  destruct (relevant_feature_map !! ({[i]} : gset nat)) as [coeff|] eqn:linear.
  - split.
    + destruct (truthy coeff); discriminate.
    + intros out. destruct out. apply singleton_key_feature. rewrite linear.
      eexists; reflexivity.
  - case_bool_decide as member; split; auto; try discriminate. contradiction.
Qed.

(** X17.  After [update_hierarchy_relevance] the leaf of feature i carries
    the probability [probs[i]], the coefficient the relevance map gives the
    key {i} (0.0 when the map has no such key or a zero there), and a
    description that is [IRRELEVANT] exactly when i is in no key of the
    map. *)
Theorem leaf_annotation root relevant_feature_map probs root' :
  update_hierarchy_relevance root relevant_feature_map probs = Ok root' ->
  Forall (fun leaf' =>
            exists i prob,
              feature_of leaf' = Ok i
              /\ probs !! i = Some prob
              /\ bin_prob (attrs_of leaf') = Some prob
              /\ poly_coeff (attrs_of leaf')
                 = Some (leaf_coefficient relevant_feature_map i)
              /\ (irrelevant leaf' <-> i ∉ features_of_keys relevant_feature_map))
    (leaves root').
Proof.
  intros run. apply annotate_leaves in run.
  induction run as [|leaf leaf' ls ls' (static & i & prob & has & parses & found & ->) _ IH];
    constructor; [|exact IH].
  exists i, prob. unfold feature_of, getattr, irrelevant. simpl. rewrite has.
  split; [exact parses|]. split; [exact found|]. split; [reflexivity|].
  split; [reflexivity|].
  rewrite <- (leaf_description_irrelevant relevant_feature_map i prob).
  split; congruence.
Qed.

(** *** The ground truth separates the relevant nodes *)

(** The p-values do not touch the descriptions: the annotation rule still
    holds after [assign_pvalues]. *)
Lemma assign_pvalues_descriptions root root' :
  assign_pvalues root = Ok root' ->
  description (attrs_of root') = description (attrs_of root)
  /\ Forall2 (fun c c' => description (attrs_of c') = description (attrs_of c))
       (children root) (children root').
Proof.
  destruct root as [a cs]. intros run.
  apply assign_pvalues_unfold in run as (cs' & kids & visit).
  apply pvalue_visit_unfold in visit as (d & p & _ & -> & _).
  split; [reflexivity|]. simpl.
  induction kids as [|c c' cs cs' run _ IH]; constructor; [|exact IH].
  destruct c as [ac ccs]. apply assign_pvalues_unfold in run as (ccs' & _ & visit).
  apply pvalue_visit_unfold in visit as (dc & pc & _ & -> & _). reflexivity.
Qed.

Lemma some_child_relevant_same (cs cs' : list Node) :
  Forall2 (fun c c' => description (attrs_of c') = description (attrs_of c)) cs cs' ->
  some_child_relevant cs' = some_child_relevant cs.
Proof.
  induction 1 as [|c c' cs cs' same _ IH]; [reflexivity|].
  simpl. rewrite same, IH. reflexivity.
Qed.

(** On a hierarchy that follows the annotation rule, an irrelevant node gets
    the p-value 1 and every other node at most 0.001. *)
Lemma assign_pvalues_separate root root' :
  Forall annotation_rule (PostOrderIter root) ->
  assign_pvalues root = Ok root' ->
  Forall (fun node =>
            exists p, pvalue (attrs_of node) = Some p
                      /\ (irrelevant node -> p = 1%Q)
                      /\ (~ irrelevant node -> (p <= 1 # 1000)%Q))
    (PostOrderIter root').
Proof.
  revert root'. induction root as [a cs IH] using Node_induction.
  intros root' rules run.
  pose proof (assign_pvalues_descriptions _ _ run) as [_ same].
  pose proof (pvalue_visit_rule a) as visited.
  apply assign_pvalues_unfold in run as (cs' & kids & visit).
  specialize (visited _ _ visit).
  apply pvalue_visit_unfold in visit as (d & p & has & -> & _).
  simpl in rules. apply Forall_app in rules as [below here].
  apply Forall_flat_map in below.
  inversion here as [|? ? (d0 & has0 & rule) _]; subst. simpl in has0, rule, same.
  assert (d0 = d) as -> by congruence.
  assert (done : Forall (fun c' => Forall (fun node =>
                    exists p, pvalue (attrs_of node) = Some p
                              /\ (irrelevant node -> p = 1%Q)
                              /\ (~ irrelevant node -> (p <= 1 # 1000)%Q))
                    (PostOrderIter c')) cs').
  { clear -kids IH below. induction kids as [|c c' cs cs' run _ IHkids]; constructor.
    - inversion IH; subst. inversion below; subst. auto.
    - inversion IH; subst. inversion below; subst. auto. }
  apply PostOrderIter_Forall; [exact done|].
  destruct visited as (d' & p' & has' & value & shape). simpl in has', value, shape.
  assert (d' = d) as -> by congruence. injection value as <-.
  exists p. split; [reflexivity|]. unfold irrelevant. simpl. rewrite has.
  destruct (is_IRRELEVANT d) eqn:irr.
  { destruct d; try discriminate. split; [auto|congruence]. }
  split; [intros [= ->]; discriminate|]. intros _.
  destruct cs' as [|c' cs'].
  - destruct shape as (coeff & _ & shape). destruct (truthy coeff).
    + destruct shape as (b & _ & small & _). exact small.
    + subst p. apply Qle_refl.
  - destruct shape as (pvalues & lowest & reads & low & ->).
    assert (internal : is_leaf (mkNode a cs) = false)
      by (inversion kids; reflexivity).
    specialize (rule internal).
    rewrite <- (some_child_relevant_same _ _ same) in rule.
    destruct (some_child_relevant (c' :: cs')) eqn:some;
      [|subst d; discriminate irr].
    assert (described : Forall (fun k => is_Some (description (attrs_of k))) (c' :: cs')).
    { clear -same below. revert below.
      induction same as [|k k' ks ks' eq _ IHsame]; intros below; constructor.
      - inversion below as [|? ? here _]; subst. rewrite Forall_forall in here.
        destruct (here k) as (dk & hask & _);
          [apply list_elem_of_In, PostOrderIter_self|].
        rewrite eq, hask. eexists; reflexivity.
      - inversion below; subst. auto. }
    apply some_child_relevant_true in some as (k & kin & relevant); [|exact described].
    apply min_Q_le in low. apply mapM_result_Forall2 in reads.
    assert (exists q, pvalue (attrs_of k) = Some q /\ (q <= 1 # 1000)%Q) as (q & hasq & small).
    { rewrite Forall_forall in done.
      assert (kin' := kin). apply list_elem_of_In, done in kin'.
      rewrite Forall_forall in kin'.
      destruct (kin' k) as (q & hasq & _ & small);
        [apply list_elem_of_In, PostOrderIter_self|].
      exists q. auto. }
    assert (lowest <= q)%Q.
    { clear -reads low kin hasq. revert low.
      induction reads as [|n r l rs read _ IHreads]; intros low; [destruct kin|].
      inversion low; subst. destruct kin as [<-|kin].
      - unfold getattr in read. rewrite hasq in read. congruence.
      - auto. }
    lra.
Qed.

(** X18.  The ground truth separates the nodes: on the hierarchy that
    [update_hierarchy_relevance] has annotated, [compare_with_ground_truth]
    returns, gives every irrelevant node the p-value 1 and every other node
    a p-value of at most 0.001. *)
Theorem ground_truth_separates root relevant_feature_map probs annotated :
  update_hierarchy_relevance root relevant_feature_map probs = Ok annotated ->
  exists valued rows,
    compare_with_ground_truth annotated = Ok (valued, rows)
    /\ Forall (fun node =>
                 exists p, pvalue (attrs_of node) = Some p
                           /\ (irrelevant node -> p = 1%Q)
                           /\ (~ irrelevant node -> (p <= 1 # 1000)%Q))
         (PostOrderIter valued).
Proof.
  intros run. unfold update_hierarchy_relevance in run.
  pose proof (annotate_rules _ _ _ _ _ run) as rules.
  apply annotate_annotated, assign_pvalues_returns in run as [valued run].
  unfold compare_with_ground_truth. rewrite run.
  eexists _, _. split; [reflexivity|].
  apply (assign_pvalues_separate _ _ rules run).
Qed.

(** No p-value exceeds 1. *)
Lemma assign_pvalues_bounded root root' :
  assign_pvalues root = Ok root' ->
  Forall (fun node => exists p, pvalue (attrs_of node) = Some p /\ (p <= 1)%Q)
    (PostOrderIter root').
Proof.
  revert root'. induction root as [a cs IH] using Node_induction. intros root' run.
  pose proof (pvalue_visit_rule a) as visited.
  apply assign_pvalues_unfold in run as (cs' & kids & visit).
  specialize (visited _ _ visit).
  apply pvalue_visit_unfold in visit as (d & p & has & -> & _).
  assert (done : Forall (fun c' => Forall (fun node =>
                    exists p, pvalue (attrs_of node) = Some p /\ (p <= 1)%Q)
                    (PostOrderIter c')) cs').
  { clear -kids IH. induction kids as [|c c' cs cs' run _ IHkids]; constructor.
    - inversion IH; subst. auto.
    - inversion IH; subst. auto. }
  apply PostOrderIter_Forall; [exact done|].
  destruct visited as (d' & p' & has' & value & shape). simpl in has', value, shape.
  injection value as <-. exists p. split; [reflexivity|].
  destruct (is_IRRELEVANT d'); [subst p; apply Qle_refl|].
  destruct cs' as [|c' cs'].
  - destruct shape as (coeff & _ & shape). destruct (truthy coeff).
    + destruct shape as (b & _ & small & _). lra.
    + subst p. lra.
  - destruct shape as (pvalues & lowest & reads & low & ->).
    apply min_Q_le in low. apply mapM_result_Forall2 in reads.
    inversion reads as [|? q ? qs read _]; subst. inversion low as [|? ? least _]; subst.
    inversion done as [|? ? here _]; subst. rewrite Forall_forall in here.
    destruct (here c') as (q' & hasq & small);
      [apply list_elem_of_In, PostOrderIter_self|].
    unfold getattr in read. rewrite hasq in read. injection read as ->.
    lra.
Qed.

(** With coefficients and probabilities between 0 and 1 every leaf gets a
    p-value of at least 1e-10. *)
Lemma assign_pvalues_leaves root root' :
  assign_pvalues root = Ok root' -> unit_leaves root ->
  Forall (fun leaf => exists p, pvalue (attrs_of leaf) = Some p
                                /\ (1 # 10000000000 <= p)%Q)
    (leaves root').
Proof.
  revert root'. induction root as [a cs IH] using Node_induction.
  intros root' run unit.
  apply assign_pvalues_unfold in run as (cs' & kids & visit).
  apply pvalue_visit_unfold in visit as (d & p & _ & -> & value).
  destruct cs as [|c cs].
  - inversion kids; subst. simpl. constructor; [|constructor].
    exists p. split; [reflexivity|].
    destruct (is_IRRELEVANT d); simpl in value; [injection value as <-; discriminate|].
    apply leaf_pvalue_formula in value as (coeff & hasc & shape).
    destruct (truthy coeff); [|subst p; discriminate].
    destruct shape as (b & hasb & ->).
    destruct (unit (mkNode a []) (or_introl eq_refl) coeff b hasc hasb).
    apply lowered_pvalue_ge; assumption.
  - assert (leaves_below : forall k, In k (c :: cs) -> unit_leaves k).
    { intros k kin leaf lin. apply unit.
      change (In leaf (flat_map leaves (c :: cs))).
      apply in_flat_map. exists k. auto. }
    clear value unit.
    assert (below : Forall (fun c' => Forall
                     (fun leaf => exists p, pvalue (attrs_of leaf) = Some p
                                            /\ (1 # 10000000000 <= p)%Q)
                     (leaves c')) cs').
    { induction kids as [|k k' ks ks' run _ IHkids]; constructor.
      - inversion IH; subst. auto using in_eq.
      - inversion IH; subst. apply IHkids; [assumption|].
        intros n nin. apply leaves_below. right. exact nin. }
    inversion kids as [|? c' ? cs'' _ _]; subst.
    change (leaves (mkNode (set_pvalue p a) (c' :: cs'')))
      with (flat_map leaves (c' :: cs'')).
    apply Forall_flat_map. exact below.
Qed.

(** X19.  With non-negative coefficients and probabilities at the leaves,
    every p-value [compare_with_ground_truth] assigns lies between 0 and 1,
    and the p-value of a relevant internal node is at most that of each of
    its children.  With coefficients and probabilities between 0 and 1, the
    range of the uniform draws of the synthesis, the p-value of every leaf
    is at least 1e-10. *)
Theorem ground_truth_pvalues_valid root valued rows :
  nonnegative_leaves root ->
  compare_with_ground_truth root = Ok (valued, rows) ->
  Forall (fun node => exists p, pvalue (attrs_of node) = Some p /\ (0 <= p <= 1)%Q)
    (PostOrderIter valued)
  /\ Forall (fun node =>
               is_leaf node = false ->
               description (attrs_of node) <> Some IRRELEVANT ->
               not_above_children node) (PostOrderIter valued)
  /\ (unit_leaves root ->
      Forall (fun leaf => exists p, pvalue (attrs_of leaf) = Some p
                                    /\ (1 # 10000000000 <= p)%Q)
        (leaves valued)).
Proof.
  intros nonneg run. unfold compare_with_ground_truth in run.
  destruct (assign_pvalues root) as [root'|] eqn:assigned; [|discriminate].
  cbv beta iota delta [mbind result_bind] in run. injection run as <- _.
  pose proof (assign_pvalues_positive _ _ assigned nonneg) as pos.
  pose proof (assign_pvalues_bounded _ _ assigned) as bounded.
  pose proof (assign_pvalues_rules _ _ assigned) as rules.
  rewrite Forall_forall in pos, bounded, rules.
  split; [|split].
  - apply Forall_forall. intros node nin.
    destruct (pos node nin) as (p & has & positive).
    destruct (bounded node nin) as (p' & has' & small).
    exists p. split; [exact has|]. split; [lra|congruence].
  - apply Forall_forall. intros node nin internal relevant.
    apply pvalue_rule_not_above; auto.
    intros c cin q hasq.
    destruct (pos c) as (q' & hasq' & positive).
    { apply list_elem_of_In. apply list_elem_of_In in nin.
      eapply PostOrderIter_children; eauto. }
    assert (q' = q) as -> by congruence. lra.
  - apply assign_pvalues_leaves. exact assigned.
Qed.

(** *** The hierarchy file *)

Lemma hierarchy_rows_returns (parent_name : string) node :
  Forall (fun n => is_Some (description (attrs_of n))
                   /\ (is_leaf n = true -> is_Some (static_indices (attrs_of n))))
    (PostOrderIter node) ->
  is_Ok (hierarchy_rows parent_name node).
Proof.
  revert parent_name. induction node as [a cs IH] using Node_induction.
  intros parent_name has. simpl in has. apply Forall_app in has as [below here].
  inversion here as [|? ? [[d described] static] _]; subst. simpl in described, static.
  apply Forall_flat_map in below. cbn [hierarchy_rows].
  assert (exists s, (if is_leaf (mkNode a cs)
                     then getattr static_indices (mkNode a cs)
                     else Ok ""%string) = Ok s) as [s ->].
  { destruct (is_leaf (mkNode a cs)); [|eauto].
    destruct (static eq_refl) as [s found]. exists s. apply getattr_Some, found. }
  rewrite (getattr_Some description (mkNode a cs) d) by exact described.
  destruct (mapM_result_Ok (hierarchy_rows (name a)) cs) as [rows ->];
    [|eexists; reflexivity].
  clear -IH below. induction IH as [|c cs head _ IHcs]; constructor.
  - inversion below; subst. auto.
  - inversion below; subst. auto.
Qed.

(** The annotation keeps the static indices of the leaves and describes
    every node. *)
Lemma annotate_written relevant_feature_map features probs root root' :
  annotate relevant_feature_map features probs root = Ok root' ->
  Forall (fun n => is_Some (description (attrs_of n))
                   /\ (is_leaf n = true -> is_Some (static_indices (attrs_of n))))
    (PostOrderIter root').
Proof.
  revert root'. induction root as [a cs IH] using Node_induction. intros root' run.
  destruct cs as [|c cs].
  - simpl in run. pose proof run as shape.
    apply annotate_leaf_unfold in shape as (d & coeff & prob & ->).
    unfold annotate_leaf, getattr in run. simpl in run.
    destruct (static_indices a) as [static|] eqn:has; [|discriminate].
    repeat constructor; simpl; [eexists; reflexivity|]. rewrite has. eexists; reflexivity.
  - apply annotate_unfold in run as (cs' & kids & visit).
    apply annotate_internal_unfold in visit as (_ & ->).
    apply PostOrderIter_Forall.
    + clear -kids IH. induction kids as [|k k' ks ks' run _ IHkids]; constructor.
      * inversion IH; subst. auto.
      * inversion IH; subst. auto.
    + split; [eexists; reflexivity|]. inversion kids; subst. discriminate.
Qed.

(** X20.  The stages of the pipeline that handle the hierarchy compose: for
    a hierarchy of [gen_hierarchy] over N features (at random with N > 0, or
    from a valid linkage matrix) and N probabilities,
    [update_hierarchy_relevance] returns, and on the annotated hierarchy so
    do [write_hierarchy] and [compare_with_ground_truth]. *)
Theorem hierarchy_stages_compose (L : Libs) (args : Args) (data : matrix L)
  (g : rng L) relevant_feature_map probs :
  LibsLaws L ->
  (hierarchy_type args = constants.RANDOM /\ 0 < num_features args)
  \/ (hierarchy_type args = constants.CLUSTER_FROM_DATA
      /\ valid_clusters L data (num_features args)) ->
  length probs = num_features args ->
  exists root feature_id_map g' annotated,
    gen_hierarchy L args data g = Ok (root, feature_id_map, g')
    /\ update_hierarchy_relevance root relevant_feature_map probs = Ok annotated
    /\ is_Ok (write_hierarchy annotated)
    /\ is_Ok (compare_with_ground_truth annotated).
Proof.
  intros laws built len.
  destruct (gen_hierarchy_statics L args data g laws built)
    as (root & feature_id_map & g' & run & statics).
  assert (indexed : leaves_indexed probs root).
  { intros leaf lin.
    apply (in_map (fun leaf => static_indices (attrs_of leaf))) in lin.
    apply (Permutation_in _ statics), in_map_iff in lin as (i & same & iin).
    apply in_seq in iin. exists i. split; [auto|lia]. }
  destruct (update_hierarchy_relevance_returns root relevant_feature_map probs indexed)
    as [annotated annotation].
  exists root, feature_id_map, g', annotated.
  split; [exact run|]. split; [exact annotation|]. split.
  - apply hierarchy_rows_returns. unfold update_hierarchy_relevance in annotation.
    apply annotate_written in annotation. exact annotation.
  - apply pvalues_after_annotation in annotation. exact annotation.
Qed.

(** The rows of a subtree: the row of the node first, then the rows of the
    subtrees of its children, each row of which finds its parent among the
    rows before it. *)
Lemma hierarchy_rows_spec (parent_name : string) node rows :
  hierarchy_rows parent_name node = Ok rows ->
  exists first rest,
    rows = first :: rest
    /\ row_name first = name (attrs_of node)
    /\ row_parent first = parent_name
    /\ map row_name rows = map (fun n => name (attrs_of n)) (PreOrderIter node)
    /\ forall i row, rest !! i = Some row ->
         exists j earlier,
           j <= i /\ rows !! j = Some earlier /\ row_name earlier = row_parent row.
Proof.
  revert parent_name rows. induction node as [a cs IH] using Node_induction.
  intros parent_name rows run. cbn [hierarchy_rows] in run.
  destruct (if is_leaf (mkNode a cs) then _ else _) as [static|]; [|discriminate].
  destruct (getattr description (mkNode a cs)) as [d|]; [|discriminate].
  destruct (mapM_result (hierarchy_rows (name a)) cs) as [below|] eqn:kids;
    [|discriminate].
  injection run as <-. eexists _, _. split; [reflexivity|].
  split; [reflexivity|]. split; [reflexivity|].
  apply mapM_result_Forall2 in kids.
  assert (inside :
            map row_name (concat below)
            = flat_map (fun c => map (fun n => name (attrs_of n)) (PreOrderIter c)) cs
            /\ forall i row, concat below !! i = Some row ->
                 row_parent row = name a
                 \/ exists j earlier,
                      j < i /\ concat below !! j = Some earlier
                      /\ row_name earlier = row_parent row).
  { clear -IH kids. induction kids as [|c rows_c cs below run _ IHkids].
    - split; [reflexivity|]. intros i row found. discriminate found.
    - inversion IH as [|? ? head IH']; subst.
      destruct (head _ _ run) as (first & rest & -> & _ & parent & names & parents).
      destruct (IHkids IH') as [names' parents'].
      cbn [concat flat_map]. rewrite map_app, names, names'.
      split; [reflexivity|]. intros i row found.
      destruct (decide (i < length (first :: rest))) as [here|later].
      + rewrite lookup_app_l in found by exact here.
        destruct i as [|k].
        * injection found as <-. left. exact parent.
        * simpl in found. destruct (parents k row found) as (j & earlier & le & at_j & same).
          right. exists j, earlier. split; [lia|]. split; [|exact same].
          rewrite lookup_app_l; [exact at_j|]. apply lookup_lt_Some in at_j. exact at_j.
      + rewrite lookup_app_r in found by lia.
        destruct (parents' _ row found) as [root_child|(j & earlier & lt & at_j & same)];
          [left; exact root_child|].
        right. exists (length (first :: rest) + j), earlier.
        split; [lia|]. split; [|exact same].
        rewrite lookup_app_r by lia.
        replace (length (first :: rest) + j - length (first :: rest)) with j by lia.
        exact at_j. }
  destruct inside as [names parents]. split.
  - cbn [map PreOrderIter]. rewrite names. f_equal.
    clear. induction cs as [|c cs IHcs]; [reflexivity|].
    cbn [flat_map]. rewrite map_app, IHcs. reflexivity.
  - intros i row found. destruct (parents i row found)
      as [child|(j & earlier & lt & at_j & same)].
    + eexists 0, _. split; [lia|]. split; [reflexivity|]. rewrite child. reflexivity.
    + exists (S j), earlier. split; [lia|]. split; [exact at_j|exact same].
Qed.

(** X21.  [write_hierarchy] writes one row per node, in pre-order: the root
    first, with an empty parent name, and every later row after the row of
    the node it names as parent. *)
Theorem hierarchy_file_rows root rows :
  write_hierarchy root = Ok rows ->
  map row_name rows = map (fun n => name (attrs_of n)) (PreOrderIter root)
  /\ (exists first rest, rows = first :: rest /\ row_parent first = ""%string)
  /\ forall i row, rows !! i = Some row -> 0 < i ->
       exists j earlier,
         j < i /\ rows !! j = Some earlier /\ row_name earlier = row_parent row.
Proof.
  intros run. apply hierarchy_rows_spec in run
    as (first & rest & -> & _ & parent & names & parents).
  split; [exact names|]. split; [eauto|].
  intros [|i] row found positive; [lia|]. simpl in found.
  destruct (parents i row found) as (j & earlier & le & at_j & same).
  exists j, earlier. split; [lia|]. auto.
Qed.

(** *** From the relevant features to the descriptions *)

Lemma leaves_subtree (t n leaf : Node) :
  In n (PostOrderIter t) -> In leaf (leaves n) -> In leaf (leaves t).
Proof.
  induction t as [a cs IH] using Node_induction. intros nin lin.
  simpl in nin. apply in_app_iff in nin as [below|[<-|[]]]; [|exact lin].
  apply in_flat_map in below as (c & cin & nin).
  destruct cs as [|c0 cs0]; [destruct cin|]. rewrite leaves_internal.
  apply in_flat_map. exists c. split; [exact cin|].
  rewrite Forall_forall in IH. apply (IH c); [apply list_elem_of_In, cin|exact nin|exact lin].
Qed.

(** X28.  Synthesis and annotation agree: when the relevance map comes from
    [gen_polynomial] for a set of relevant features, a node of the hierarchy
    annotated by [update_hierarchy_relevance] is described as irrelevant
    exactly when no leaf below it is the leaf of a relevant feature. *)
Theorem relevant_nodes_hold_relevant_features (L : Libs) (args : Args)
  (relevant : gset nat) (g : rng L) vars relevant_feature_map (polynomial_fn : expr) g'
  root probs root' :
  LibsLaws L ->
  gen_polynomial L args relevant g = Ok (vars, relevant_feature_map, polynomial_fn, g') ->
  update_hierarchy_relevance root relevant_feature_map probs = Ok root' ->
  Forall (fun node =>
            irrelevant node <->
            forall leaf i, In leaf (leaves node) -> feature_of leaf = Ok i ->
                           i ∉ relevant)
    (PostOrderIter root').
Proof.
  intros laws synthesis run.
  apply (gen_polynomial_features L _ _ _ _ _ _ _ laws) in synthesis.
  unfold update_hierarchy_relevance in run.
  pose proof (annotate_rules _ _ _ _ _ run) as rules.
  apply annotate_leaves in run.
  assert (described : forall leaf', In leaf' (leaves root') ->
            exists i, feature_of leaf' = Ok i /\ (irrelevant leaf' <-> i ∉ relevant)).
  { clear -run synthesis. intros leaf' lin.
    induction run as [|leaf l ls ls' (static & i & prob & has & parses & _ & ->) _ IH];
      [destruct lin|].
    destruct lin as [<-|lin]; [|exact (IH lin)].
    exists i. unfold feature_of, getattr, irrelevant. simpl. rewrite has.
    split; [exact parses|]. rewrite <- synthesis.
    rewrite <- (leaf_description_irrelevant relevant_feature_map i prob).
    split; congruence. }
  apply Forall_forall. intros node nin. apply list_elem_of_In in nin.
  assert (below : Forall annotation_rule (PostOrderIter node)).
  { apply Forall_forall. intros k kin. rewrite Forall_forall in rules.
    apply rules, list_elem_of_In. apply list_elem_of_In in kin.
    eapply PostOrderIter_subtree; eassumption. }
  rewrite (irrelevant_iff_leaves node below). split.
  - intros all leaf i lin feature.
    destruct (described leaf (leaves_subtree _ _ _ nin lin)) as (i' & feature' & iff).
    assert (i' = i) as -> by congruence. apply iff, all, lin.
  - intros none leaf lin.
    destruct (described leaf (leaves_subtree _ _ _ nin lin)) as (i & feature & iff).
    apply iff. eapply none; eassumption.
Qed.

End annotated.

Section annotated_examples.

Import simulation.

Lemma leaf_annotation_witness :
  exists root',
    update_hierarchy_relevance example_hierarchy example_map example_probs = Ok root'
    /\ Forall (fun leaf' =>
                 exists i prob,
                   feature_of leaf' = Ok i
                   /\ example_probs !! i = Some prob
                   /\ bin_prob (attrs_of leaf') = Some prob
                   /\ poly_coeff (attrs_of leaf') = Some (leaf_coefficient example_map i)
                   /\ (irrelevant leaf' <-> i ∉ features_of_keys example_map))
         (leaves root').
Proof.
  eexists. split; [vm_compute; reflexivity|].
  refine (leaf_annotation example_hierarchy example_map example_probs _ _).
  vm_compute; reflexivity.
Defined.

Lemma ground_truth_separates_witness :
  exists annotated valued rows,
    update_hierarchy_relevance example_hierarchy example_map example_probs = Ok annotated
    /\ compare_with_ground_truth annotated = Ok (valued, rows)
    /\ Forall (fun node =>
                 exists p, pvalue (attrs_of node) = Some p
                           /\ (irrelevant node -> p = 1%Q)
                           /\ (~ irrelevant node -> (p <= 1 # 1000)%Q))
         (PostOrderIter valued).
Proof.
  eexists.
  assert (run : update_hierarchy_relevance example_hierarchy example_map example_probs
                = Ok ?[annotated]) by (vm_compute; reflexivity).
  destruct (ground_truth_separates example_hierarchy example_map example_probs _ run)
    as (valued & rows & compared & separated).
  exists valued, rows. split; [exact run|]. split; [exact compared|exact separated].
Defined.

Lemma example_annotated_nonnegative : nonnegative_leaves example_annotated.
Proof.
  intros leaf lin c b hasc hasb. simpl in lin.
  destruct lin as [<-|[<-|[<-|[<-|[]]]]]; simpl in hasc, hasb;
    injection hasc as <-; injection hasb as <-; split; discriminate.
Qed.

Lemma example_annotated_unit : unit_leaves example_annotated.
Proof.
  intros leaf lin c b hasc hasb. simpl in lin.
  destruct lin as [<-|[<-|[<-|[<-|[]]]]]; simpl in hasc, hasb;
    injection hasc as <-; injection hasb as <-; repeat split; discriminate.
Qed.

Lemma ground_truth_pvalues_valid_witness :
  exists valued rows,
    compare_with_ground_truth example_annotated = Ok (valued, rows)
    /\ Forall (fun node => exists p, pvalue (attrs_of node) = Some p /\ (0 <= p <= 1)%Q)
         (PostOrderIter valued)
    /\ Forall (fun leaf => exists p, pvalue (attrs_of leaf) = Some p
                                     /\ (1 # 10000000000 <= p)%Q)
         (leaves valued).
Proof.
  eexists. eexists.
  assert (run : compare_with_ground_truth example_annotated = Ok (?[valued], ?[rows]))
    by (vm_compute; reflexivity).
  destruct (ground_truth_pvalues_valid example_annotated _ _
              example_annotated_nonnegative run) as (range & _ & least).
  split; [exact run|]. split; [exact range|]. exact (least example_annotated_unit).
Defined.

Lemma hierarchy_stages_compose_witness :
  exists root feature_id_map g' annotated,
    gen_hierarchy example_libs (example_args false) [] 0 = Ok (root, feature_id_map, g')
    /\ update_hierarchy_relevance root example_map example_probs = Ok annotated
    /\ is_Ok (write_hierarchy annotated)
    /\ is_Ok (compare_with_ground_truth annotated).
Proof.
  apply (hierarchy_stages_compose example_libs (example_args false) [] 0
           example_map example_probs example_libs_laws).
  - left. split; [reflexivity|simpl; lia].
  - reflexivity.
Defined.

Lemma hierarchy_file_rows_witness :
  exists rows,
    write_hierarchy example_annotated = Ok rows
    /\ map row_name rows
       = map (fun n => name (attrs_of n)) (PreOrderIter example_annotated).
Proof.
  eexists.
  assert (run : write_hierarchy example_annotated = Ok ?[rows])
    by (vm_compute; reflexivity).
  split; [exact run|].
  exact (proj1 (hierarchy_file_rows example_annotated _ run)).
Defined.

Lemma relevant_nodes_hold_relevant_features_witness :
  match gen_polynomial example_libs (example_args false) {[0; 1; 3]} 0 with
  | Ok (_, relevant_feature_map, _, _) =>
      match update_hierarchy_relevance example_hierarchy relevant_feature_map
              example_probs with
      | Ok root' =>
          Forall (fun node =>
                    irrelevant node <->
                    forall leaf i, In leaf (leaves node) -> feature_of leaf = Ok i ->
                                   i ∉ ({[0; 1; 3]} : gset nat))
            (PostOrderIter root')
      | Raise _ => False
      end
  | Raise _ => False
  end.
Proof.
  destruct (gen_polynomial example_libs (example_args false) {[0; 1; 3]} 0)
    as [[[[vars m] polynomial_fn] g']|e] eqn:synthesis; [|discriminate synthesis].
  destruct (update_hierarchy_relevance example_hierarchy m example_probs)
    as [root'|e] eqn:run.
  - exact (relevant_nodes_hold_relevant_features _ _ _ _ _ _ _ _ _ _ _
             example_libs_laws synthesis run).
  - destruct (update_hierarchy_relevance_returns example_hierarchy m example_probs)
      as [root' returned].
    + intros leaf lin. simpl in lin.
      destruct lin as [<-|[<-|[<-|[<-|[]]]]]; simpl;
        [exists 0|exists 1|exists 2|exists 3]; split; try reflexivity; lia.
    + congruence.
Defined.

End annotated_examples.
(** ** More on the evaluation *)

Section evaluation_more.

Import simulation.

Implicit Types (nodes : list Node) (node tree : Node) (args : Args).
Implicit Types (relevant_feature_map : gmap (gset nat) Q).
Implicit Types (feature_id_map : gmap nat nat).

Lemma mapM_result_cons {A B} (f : A -> result B) (a : A) (l : list A) :
  mapM_result f (a :: l)
  = match f a with
    | Ok b => match mapM_result f l with
              | Ok bs => Ok (b :: bs)
              | Raise e => Raise e
              end
    | Raise e => Raise e
    end.
Proof. reflexivity. Qed.

(** A loop whose body either raises [AttributeError] or returns at a node
    with a property raises that error or finds the property everywhere. *)
Lemma mapM_result_outcome {B} (P : Node -> Prop) (body : Node -> result B) nodes :
  (forall node, body node = Raise AttributeError \/ (P node /\ is_Ok (body node))) ->
  mapM_result body nodes = Raise AttributeError
  \/ (Forall P nodes
      /\ exists l, mapM_result body nodes = Ok l /\ length l = length nodes).
Proof.
  intros each. induction nodes as [|node nodes IH].
  - right. split; [constructor|]. exists []. auto.
  - rewrite mapM_result_cons.
    destruct (each node) as [->|[here [b ->]]]; [left; reflexivity|].
    destruct IH as [->|(all & l & -> & len)]; [left; reflexivity|].
    right. split; [constructor; assumption|].
    exists (b :: l). split; [reflexivity|]. simpl. congruence.
Qed.

Lemma getattr_outcome {A B} (field : attrs -> option A) (f : A -> B) node :
  (v ← getattr field node; Ok (f v)) = Raise AttributeError
  \/ (is_Some (field (attrs_of node))
      /\ is_Ok (v ← getattr field node; Ok (f v))).
Proof.
  unfold getattr. destruct (field (attrs_of node)) as [v|]; [right|left; reflexivity].
  split; eexists; reflexivity.
Qed.

(** The labels of all the nodes exist exactly when the nodes are labelled. *)
Lemma get_relevant_rejected_all nodes :
  get_relevant_rejected nodes false false = Raise AttributeError
  \/ labelled nodes.
Proof.
  unfold get_relevant_rejected, selected_nodes. cbn [andb].
  unfold mbind at 1. unfold result_bind at 1. cbv beta iota.
  destruct (mapM_result_outcome _ _ nodes
              (getattr_outcome description (fun d => if is_IRRELEVANT d then 0 else 1)))
    as [->|(described & relevant & -> & _)]; [left; reflexivity|].
  unfold mbind at 1. unfold result_bind at 1. cbv beta iota.
  destruct (mapM_result_outcome _ _ nodes
              (getattr_outcome rejected (fun r : bool => if r then 1 else 0)))
    as [->|(flagged & rejected & -> & _)]; [left; reflexivity|].
  right. unfold labelled. rewrite Forall_forall in described, flagged.
  apply Forall_forall. intros node nin. auto.
Qed.

(** X22.  [evaluate] needs every node of the discovery tree to carry a
    description and a rejection flag: on any other tree it raises
    [AttributeError]. *)
Theorem evaluate_needs_labels (L : Libs) args relevant_feature_map feature_id_map
  (tree interactions_tree : Node) :
  labelled (PreOrderIter tree)
  \/ evaluate L args relevant_feature_map feature_id_map tree interactions_tree
     = Raise AttributeError.
Proof.
  destruct (get_relevant_rejected_all (PreOrderIter tree)) as [raised|all];
    [right|left; exact all].
  unfold evaluate. rewrite raised. reflexivity.
Qed.

(** The nodes the outer selection keeps are rejected. *)
Lemma filterM_is_outer nodes kept :
  filterM_result is_outer nodes = Ok kept ->
  Forall (fun node => rejected (attrs_of node) = Some true) kept
  /\ length kept <= length nodes.
Proof.
  revert kept. induction nodes as [|node nodes IH]; intros kept run.
  - injection run as <-. split; [constructor|reflexivity].
  - cbn [filterM_result] in run.
    destruct (is_outer node) as [keep|] eqn:outer; [|discriminate].
    destruct (filterM_result is_outer nodes) as [rest|]; [|discriminate].
    destruct (IH rest eq_refl) as [all len]. injection run as <-.
    destruct keep; [|split; [exact all|simpl; lia]].
    split; [|simpl; lia]. constructor; [|exact all].
    unfold is_outer, getattr in outer.
    destruct (rejected (attrs_of node)) as [[|]|]; try discriminate. reflexivity.
Qed.

(** X23.  The predicted labels of the outer nodes are all 1: whenever
    [get_relevant_rejected] returns for [outer=True], every entry of its
    second list is 1, and both lists have one entry for each node kept, which
    is a rejected node. *)
Theorem outer_labels_all_rejected nodes (relevant rejected_labels : list nat) :
  get_relevant_rejected nodes true false = Ok (relevant, rejected_labels) ->
  Forall (fun label => label = 1) rejected_labels
  /\ length relevant = length rejected_labels
  /\ length rejected_labels <= length nodes.
Proof.
  unfold get_relevant_rejected, selected_nodes. simpl.
  destruct (filterM_result is_outer nodes) as [kept|] eqn:selection; [|discriminate].
  cbv beta iota delta [mbind result_bind].
  apply filterM_is_outer in selection as [flags small].
  destruct (mapM_result _ kept) as [relevant0|] eqn:first; [|discriminate].
  match goal with
  | |- context [mapM_result ?body kept] =>
      destruct (mapM_result body kept) as [rejected0|] eqn:second; [|discriminate]
  end.
  intros run. assert (relevant = relevant0 /\ rejected_labels = rejected0) as [-> ->]
    by (split; congruence).
  apply mapM_result_Forall2 in first, second.
  split; [|split].
  - clear -second flags. induction second as [|node label ns ls read _ IH];
      constructor.
    + inversion flags; subst. unfold getattr in read. rewrite H1 in read.
      simpl in read. congruence.
    + inversion flags; subst. auto.
  - rewrite <- (Forall2_length _ _ _ first), <- (Forall2_length _ _ _ second).
    reflexivity.
  - rewrite <- (Forall2_length _ _ _ second). exact small.
Qed.

(** *** Interactions *)

(** The loop over the tested pairs counts every node once. *)
Lemma tally_loop_counts relevant_feature_map feature_id_map nodes (t t' : tally) :
  tally_loop relevant_feature_map feature_id_map nodes t = Ok t' ->
  tp t' + fp t' + tn t' + fn t' = tp t + fp t + tn t + fn t + length nodes
  /\ tp t' + fp t'
     = tp t + fp t
       + length (List.filter (fun node => bool_decide (rejected (attrs_of node) = Some true))
                   nodes)
  /\ tp t <= tp t' /\ fn t <= fn t'.
Proof.
  revert t. induction nodes as [|node nodes IH]; intros t run.
  - injection run as <-. simpl. lia.
  - cbn [tally_loop] in run.
    destruct (tested_pair feature_id_map node) as [pair|]; [|discriminate].
    cbv beta iota delta [mbind result_bind] in run. unfold getattr in run.
    cbn [List.filter length].
    destruct (rejected (attrs_of node)) as [[|]|]; [| |discriminate];
      destruct (truthy_get (relevant_feature_map !! pair));
      apply IH in run; simpl in run;
      rewrite ?bool_decide_eq_true_2 by reflexivity;
      rewrite ?bool_decide_eq_false_2 by discriminate; simpl; lia.
Qed.

(** X24.  The counters of [get_precision_recall_interactions] count every
    tested pair once: after the loop over the children of the interactions
    tree, tp + fp + tn + fn is the number of children and tp + fp the number
    of rejected ones. *)
Theorem tally_counts_children relevant_feature_map feature_id_map tree (t : tally) :
  tally_loop relevant_feature_map feature_id_map (children tree) no_tally = Ok t ->
  tp t + fp t + tn t + fn t = length (children tree)
  /\ tp t + fp t
     = length (List.filter (fun node => bool_decide (rejected (attrs_of node) = Some true))
                 (children tree)).
Proof.
  intros run. apply tally_loop_counts in run as (total & positives & _). simpl in *.
  lia.
Qed.

Lemma Q_of_nat_ratio (a b : nat) :
  0 < a -> a <= b -> (0 < Q_of_nat a / Q_of_nat b <= 1)%Q.
Proof.
  intros positive le. unfold Q_of_nat.
  assert (0 < inject_Z (Z.of_nat a))%Q
    by (change 0%Q with (inject_Z 0); rewrite <- Zlt_Qlt; lia).
  assert (0 < inject_Z (Z.of_nat b))%Q
    by (change 0%Q with (inject_Z 0); rewrite <- Zlt_Qlt; lia).
  assert (inject_Z (Z.of_nat a) <= inject_Z (Z.of_nat b))%Q
    by (rewrite <- Zle_Qle; lia).
  split.
  - apply Qlt_shift_div_l; [assumption|]. lra.
  - apply Qle_shift_div_r; [assumption|]. lra.
Qed.

(** X25.  Whenever [get_precision_recall_interactions] returns, the
    precision and the recall lie in [0, 1] and are both 0 or both positive;
    the interaction FDR and power that [evaluate] reports therefore lie in
    [0, 1] as well. *)
Theorem interactions_in_unit_interval (L : Libs) args relevant_feature_map
  feature_id_map (tree interactions_tree : Node) (res : Results) :
  evaluate L args relevant_feature_map feature_id_map tree interactions_tree = Ok res ->
  exists precision recall,
    get_precision_recall_interactions args relevant_feature_map feature_id_map
      interactions_tree = Ok (precision, recall)
    /\ (0 <= precision <= 1)%Q /\ (0 <= recall <= 1)%Q
    /\ ((precision == 0)%Q <-> (recall == 0)%Q)
    /\ (0 <= INTERACTIONS_FDR res <= 1)%Q /\ (0 <= INTERACTIONS_POWER res <= 1)%Q.
Proof.
  intros run. apply evaluate_interactions in run
    as (precision & recall & pr & fdr & power).
  exists precision, recall. split; [exact pr|].
  assert (bounds : (precision = 0%Q /\ recall = 0%Q)
                   \/ ((0 < precision <= 1)%Q /\ (0 < recall <= 1)%Q)).
  { unfold get_precision_recall_interactions in pr.
    destruct (negb (analyze_interactions args)); [left; split; congruence|].
    destruct (tally_loop _ _ _ no_tally) as [t|]; [|discriminate].
    cbv beta iota delta [mbind result_bind] in pr.
    destruct (0 <? tp t) eqn:hits; simpl in pr; [|left; split; congruence].
    apply Nat.ltb_lt in hits. right. injection pr as <- <-.
    split; apply Q_of_nat_ratio; lia. }
  rewrite fdr, power.
  destruct bounds as [[-> ->]|[[? ?] [? ?]]].
  - repeat split; try reflexivity; try discriminate; auto.
  - repeat split; try lra; intros zero; rewrite zero in *; lra.
Qed.

End evaluation_more.


Section evaluation_examples.

Import simulation.

Lemma outer_labels_all_rejected_witness :
  exists relevant rejected_labels,
    get_relevant_rejected (PreOrderIter skipped_level) true false
      = Ok (relevant, rejected_labels)
    /\ Forall (fun label => label = 1) rejected_labels.
Proof.
  eexists. eexists.
  assert (run : get_relevant_rejected (PreOrderIter skipped_level) true false
                = Ok (?[relevant], ?[rejected])) by (vm_compute; reflexivity).
  split; [exact run|].
  exact (proj1 (outer_labels_all_rejected _ _ _ run)).
Defined.

Lemma tally_counts_children_witness :
  match tally_loop example_map ∅ (children example_interactions) no_tally with
  | Ok t => tp t + fp t + tn t + fn t = 2
  | Raise _ => False
  end.
Proof.
  destruct (tally_loop example_map ∅ (children example_interactions) no_tally)
    as [t|e] eqn:run; [|discriminate run].
  exact (proj1 (tally_counts_children example_map ∅ example_interactions t run)).
Defined.

Lemma interactions_in_unit_interval_witness :
  match evaluate example_libs (example_args true) example_map ∅ skipped_level
          example_interactions with
  | Ok res => (0 <= INTERACTIONS_FDR res <= 1)%Q /\ (0 <= INTERACTIONS_POWER res <= 1)%Q
  | Raise _ => False
  end.
Proof.
  destruct (evaluate example_libs (example_args true) example_map ∅ skipped_level
              example_interactions) as [res|e] eqn:run; [|discriminate run].
  destruct (interactions_in_unit_interval example_libs (example_args true) example_map
              ∅ skipped_level example_interactions res run)
    as (precision & recall & _ & _ & _ & _ & fdr & power).
  split; [exact fdr|exact power].
Defined.

End evaluation_examples.
(** ** More on [model.py] *)

Section model_more.

Context {A : model.Arith} {L : model.Libs A} {T : Type}.
Implicit Types (self : model.Model L) (static_data : model.ndarray L).
Implicit Types (temporal_data : T) (target : model.float A).

(** X26.  The outcomes of [predict].  It raises
    [NotImplementedError("Unknown noise type")] exactly when the noise type
    of the model is neither epsilon-irrelevant nor additive Gaussian, and
    [ValueError] exactly when the type is additive Gaussian and the sign bit
    of the noise multiplier is set (NumPy refuses it as the scale of the
    normal draw).  In every other case the noise is drawn, and [predict]
    raises [IndexError] when the model function returns an empty array on
    it and returns otherwise. *)
Theorem predict_outcomes self target static_data temporal_data :
  (model.predict self target static_data temporal_data
     = Raise (NotImplementedError "Unknown noise type")
   <-> model.noise_type self <> constants.EPSILON_IRRELEVANT
       /\ model.noise_type self <> constants.ADDITIVE_GAUSSIAN)
  /\ (model.predict self target static_data temporal_data = Raise ValueError
      <-> model.noise_type self = constants.ADDITIVE_GAUSSIAN
          /\ model.signbit A (model.noise_multiplier self) = true)
  /\ (model.predict self target static_data temporal_data
        = Raise (NotImplementedError "Unknown noise type")
      \/ model.predict self target static_data temporal_data = Raise ValueError
      \/ exists noise,
           model.noise_draw self static_data = Ok noise
           /\ match model.model_fn self static_data noise with
              | [] => model.predict self target static_data temporal_data
                      = Raise IndexError
              | prediction :: _ =>
                  exists loss,
                    model.predict self target static_data temporal_data
                    = Ok (loss, prediction)
              end).
Proof.
  split; [apply predict_not_implemented_iff|].
  split; [apply predict_value_error_iff|].
  rewrite predict_unfold, noisy_prediction_noise.
  unfold model.noise_draw, model.checked_normal.
  destruct (String.eqb _ constants.EPSILON_IRRELEVANT).
  - right. right. eexists. split; [reflexivity|].
    destruct (model.model_fn self static_data _) as [|prediction rest]; simpl;
      [reflexivity|eexists; reflexivity].
  - destruct (String.eqb _ constants.ADDITIVE_GAUSSIAN); [|left; reflexivity].
    destruct (model.signbit A _); simpl; [right; left; reflexivity|].
    right. right. eexists. split; [reflexivity|].
    destruct (model.model_fn self static_data _) as [|prediction rest]; simpl;
      [reflexivity|eexists; reflexivity].
Qed.

End model_more.

Section model_exact.

Context {L : model.Libs model.exact} {T : Type}.
Implicit Types (self : model.Model L) (static_data : model.ndarray L).
Implicit Types (temporal_data : T) (target : R).

(** X27.  With epsilon-irrelevant noise the model function receives one
    noise coefficient per entry of the static data, each of absolute value
    at most the noise multiplier; the prediction is the first entry of what
    the model function returns on them. *)
Theorem epsilon_noise_bounded self target static_data temporal_data :
  model.uniform_law L ->
  model.noise_type self = constants.EPSILON_IRRELEVANT ->
  exists noise,
    length noise = model.size L static_data
    /\ Forall (fun v => (Rabs v <= Rabs (model.noise_multiplier self))%R) noise
    /\ model.predict self target static_data temporal_data
       = match model.getitem0 (model.model_fn self static_data
                                (model.NoiseColumn (A := model.exact) noise)) with
         | Ok prediction => Ok (R_sqrt.sqrt ((prediction - target) ^ 2), prediction)
         | Raise e => Raise e
         end.
Proof.
  intros law eps.
  destruct (law (model.new_RandomState L (model.hashval static_data))
              (-1)%R 1%R (model.size L static_data)) as [len range]; [lra|].
  exists (map (Rmult (model.noise_multiplier self))
            (model.uniform L (model.new_RandomState L (model.hashval static_data))
               (-1)%R 1%R (model.size L static_data))).
  split; [rewrite length_map; exact len|]. split.
  - apply Forall_forall. intros v vin. apply list_elem_of_In, in_map_iff in vin
      as (u & <- & uin).
    rewrite Forall_forall in range. apply list_elem_of_In, range in uin.
    rewrite Rabs_mult. rewrite <- (Rmult_1_r (Rabs (model.noise_multiplier self))) at 2.
    apply Rmult_le_compat_l; [apply Rabs_pos|].
    apply Rabs_le. lra.
  - rewrite predict_unfold. unfold model.noisy_prediction. rewrite eps. reflexivity.
Qed.

End model_exact.

Section model_examples.

Lemma example_uniform_law : model.uniform_law (model.example_libs model.exact).
Proof.
  intros prg low high n below. simpl. split; [apply repeat_length|].
  apply Forall_forall. intros v vin. apply list_elem_of_In, repeat_spec in vin.
  subst v. lra.
Qed.

Lemma epsilon_noise_bounded_witness :
  exists noise,
    length noise = 2
    /\ Forall (fun v => (Rabs v <= Rabs 0)%R) noise
    /\ model.predict (model.example_model model.exact constants.EPSILON_IRRELEVANT)
         0%R [1; 0]%Z tt
       = match model.getitem0 [1%R] with
         | Ok prediction => Ok (R_sqrt.sqrt ((prediction - 0) ^ 2), prediction)
         | Raise e => Raise e
         end.
Proof.
  exact (epsilon_noise_bounded
           (model.example_model model.exact constants.EPSILON_IRRELEVANT)
           0%R [1; 0]%Z tt example_uniform_law eq_refl).
Defined.

End model_examples.
(** ** More on the contiguous names *)

Section contiguous_more.

Import simulation.

Implicit Types (node root : Node) (args : Args).

Lemma leaves_sublist node : sublist (leaves node) (PostOrderIter node).
Proof.
  induction node as [a cs IH] using Node_induction.
  destruct cs as [|c cs]; [reflexivity|].
  rewrite leaves_internal. cbn [PostOrderIter].
  apply sublist_inserts_r.
  induction IH as [|k ks here _ IHks]; [constructor|].
  cbn [flat_map]. apply sublist_app; assumption.
Qed.

(** What the renaming records for every leaf: the entry of its index is its
    feature. *)
Lemma contiguous_entries node (i j : nat) (m m' : gmap nat nat) node' :
  contiguous node (i, m) = Ok (node', (j, m')) ->
  Forall2 (fun leaf leaf' =>
             exists original k,
               feature_of leaf = Ok original /\ leaf_entry leaf' = (k, original)
               /\ m' !! k = Some original)
    (leaves node) (leaves node').
Proof.
  intros run. pose proof (contiguous_renamed _ _ _ _ _ _ run) as inv.
  apply contiguous_kept in run as [statics _].
  destruct inv as [_ _ _ mapped _ _ _].
  revert statics. induction mapped as [|leaf leaf' ls ls' here _ IH];
    intros statics; [constructor|].
  inversion statics as [|? ? ? ? same rest]; subst.
  constructor; [|apply IH, rest].
  destruct here as (original & k & feature & has & _ & entry & _).
  exists original, k. split; [exact feature|]. split; [|exact entry].
  unfold leaf_entry, feature_of, getattr in *. rewrite has, same. simpl.
  destruct (static_indices (attrs_of leaf)); [|discriminate].
  cbv beta iota delta [mbind result_bind] in feature |- *. rewrite feature.
  reflexivity.
Qed.

(** X29.  With contiguous names the feature-id map is the list of the pairs
    (index of a leaf, feature of that leaf) over the leaves of the hierarchy:
    the indices are all different and the features are 0, ..., N - 1, each
    once, so the map is one-to-one from the new leaf ids onto the
    features. *)
Theorem feature_id_map_entries (L : Libs) args (data : matrix L) (g : rng L) :
  LibsLaws L ->
  (hierarchy_type args = constants.RANDOM /\ 0 < num_features args)
  \/ (hierarchy_type args = constants.CLUSTER_FROM_DATA
      /\ valid_clusters L data (num_features args)) ->
  exists root feature_id_map g',
    gen_hierarchy L (set_contiguous_node_names true args) data g
      = Ok (root, feature_id_map, g')
    /\ feature_id_map = list_to_map (map leaf_entry (leaves root))
    /\ NoDup (map fst (map leaf_entry (leaves root)))
    /\ Permutation (map snd (map leaf_entry (leaves root)))
         (seq 0 (num_features args)).
Proof.
  intros laws built.
  destruct (build_hierarchy_leaves L args data g laws built)
    as (plain & g1 & build & perm).
  rewrite gen_hierarchy_contiguous, build.
  destruct (contiguous_returns plain) with (st := (0, ∅ : gmap nat nat))
    as [[root [j m']] run].
  { intros leaf lin. apply (Permutation_in _ perm) in lin.
    apply feature_leaves_named in lin as (i & _ & ->). eexists; reflexivity. }
  rewrite run. exists root, m', g1. split; [reflexivity|].
  pose proof (contiguous_entries _ _ _ _ _ _ run) as entries.
  pose proof (contiguous_renamed _ _ _ _ _ _ run) as [_ idxs _ _ _ _ _].
  pose proof (contiguous_kept _ _ _ _ _ _ run) as [_ kept].
  assert (ids : NoDup (map fst (map leaf_entry (leaves root)))).
  { rewrite map_map. unfold leaf_entry. simpl.
    assert (numbered : map (fun n => default 0 (idx (attrs_of n))) (PostOrderIter root)
                       = seq 0 (length (PostOrderIter root))).
    { rewrite <- (map_map (fun n => idx (attrs_of n)) (default 0)), idxs, map_map.
      simpl. apply map_id. }
    apply (sublist_NoDup _ (map (fun n => default 0 (idx (attrs_of n)))
                              (PostOrderIter root))).
    - rewrite numbered. apply NoDup_ListNoDup, List.seq_NoDup.
    - apply (fmap_sublist (fun n => default 0 (idx (attrs_of n)))), leaves_sublist. }
  assert (features : Permutation (map snd (map leaf_entry (leaves root)))
                       (seq 0 (num_features args))).
  { assert (map snd (map leaf_entry (leaves root))
            = map (fun leaf => match feature_of leaf with
                               | Ok original => original
                               | Raise _ => 0
                               end) (leaves plain)) as ->.
    { clear -entries. induction entries
        as [|leaf leaf' ls ls' (original & k & feature & entry & _) _ IH]; [reflexivity|].
      cbn [map]. rewrite IH, entry, feature. reflexivity. }
    rewrite perm. unfold feature_leaves. rewrite map_map.
    erewrite map_ext; [apply Permutation_refl'; apply map_id|].
    intros i. unfold feature_of, getattr. simpl. rewrite int_str. reflexivity. }
  split; [|split; assumption].
  apply map_eq. intros k.
  destruct (list_to_map (map leaf_entry (leaves root)) !! k) as [f|] eqn:listed.
  - apply elem_of_list_to_map in listed; [|exact ids].
    apply list_elem_of_In, in_map_iff in listed as (leaf' & entry & lin).
    clear -entries entry lin. induction entries
      as [|leaf l ls ls' (original & k' & _ & entry' & found) _ IH]; [destruct lin|].
    destruct lin as [<-|lin]; [|exact (IH lin)]. congruence.
  - apply not_elem_of_list_to_map in listed. rewrite kept; [apply lookup_empty|].
    intros leaf' lin has. apply listed.
    apply list_elem_of_In, in_map_iff. exists (leaf_entry leaf').
    split; [|apply in_map, lin]. unfold leaf_entry. rewrite has. reflexivity.
Qed.

(** *** The ranges of the indices *)

Lemma foldl_min_first (x : nat) (l : list nat) :
  Forall (fun v => x <= v) l -> foldl Nat.min x l = x.
Proof.
  induction 1 as [|v l le _ IH]; [reflexivity|].
  simpl. rewrite Nat.min_l by exact le. exact IH.
Qed.

Lemma foldl_max_bounds (l : list nat) :
  forall x,
    x <= foldl Nat.max x l
    /\ Forall (fun v => v <= foldl Nat.max x l) l
    /\ forall top, x <= top -> Forall (fun v => v <= top) l ->
                   foldl Nat.max x l <= top.
Proof.
  induction l as [|v l IH]; intros x; simpl.
  - split; [lia|]. split; [constructor|]. auto.
  - destruct (IH (Nat.max x v)) as (lower & each & upper). split; [lia|]. split.
    + constructor; [lia|exact each].
    + intros top xle all. inversion all; subst. apply upper; [lia|assumption].
Qed.

Lemma PostOrderIter_length (a : attrs) (cs : list Node) :
  length (PostOrderIter (mkNode a cs)) = S (length (flat_map PostOrderIter cs)).
Proof. simpl. rewrite length_app. simpl. lia. Qed.

Lemma PostOrderIter_nonempty node : 0 < length (PostOrderIter node).
Proof. destruct node as [a cs]. simpl. rewrite length_app. simpl. lia. Qed.

Lemma Forall2_In_l {A B} (R : A -> B -> Prop) (l : list A) (l' : list B) (a : A) :
  Forall2 R l l' -> In a l -> exists b, In b l' /\ R a b.
Proof.
  induction 1 as [|x y l l' here _ IH]; intros ain; [destruct ain|].
  destruct ain as [<-|ain]; [exists y; split; [left; reflexivity|exact here]|].
  destruct (IH ain) as (b & bin & r). exists b. split; [right; exact bin|exact r].
Qed.

Lemma reads_bounded (field : attrs -> option nat) (P : nat -> Prop)
  (ks : list Node) (vs : list nat) :
  Forall2 (fun k v => getattr field k = Ok v) ks vs ->
  Forall (fun k => exists v, field (attrs_of k) = Some v /\ P v) ks ->
  Forall P vs.
Proof.
  induction 1 as [|k v ks vs read _ IH]; intros all; constructor.
  - inversion all as [|? ? (v' & has & holds) _]; subst.
    unfold getattr in read. rewrite has in read. congruence.
  - inversion all; subst. auto.
Qed.

(** The children of a node, renamed from left to right: their ranges follow
    one another. *)
Lemma contiguous_chain (cs : list Node) :
  Forall (fun c => forall i m c' j m',
            contiguous c (i, m) = Ok (c', (j, m')) ->
            Forall range_rule (PostOrderIter c')
            /\ min_child_idx (attrs_of c') = Some i
            /\ idx (attrs_of c') = Some (j - 1)
            /\ j = i + length (PostOrderIter c')) cs ->
  forall i m cs' i1 m1,
    mapM_state contiguous cs (i, m) = Ok (cs', (i1, m1)) ->
    Forall (fun k => Forall range_rule (PostOrderIter k)) cs'
    /\ i1 = i + length (flat_map PostOrderIter cs')
    /\ Forall (fun k => exists lo k_idx,
                 min_child_idx (attrs_of k) = Some lo
                 /\ idx (attrs_of k) = Some k_idx
                 /\ i <= lo /\ k_idx < i1) cs'
    /\ (forall first, head cs' = Some first ->
                      min_child_idx (attrs_of first) = Some i)
    /\ (cs' <> [] ->
        exists final, In final cs' /\ idx (attrs_of final) = Some (i1 - 1)).
Proof.
  induction 1 as [|c cs head _ IHcs]; intros i m cs' i1 m1 run.
  - injection run as <- <- <-. simpl.
    split; [constructor|]. split; [lia|]. split; [constructor|].
    split; [discriminate|congruence].
  - apply mapM_state_unfold in run
      as (c' & [i0 m0] & cs'' & [i2 m2] & first & rest & [= -> -> ->]).
    destruct (head _ _ _ _ _ first) as (ranges & lowest & own & next).
    destruct (IHcs _ _ _ _ _ rest) as (ranges' & next' & bounds & _ & final).
    pose proof (PostOrderIter_nonempty c') as nonempty.
    split; [constructor; assumption|].
    split; [cbn [flat_map]; rewrite length_app; lia|].
    split; [|split].
    + constructor.
      * exists i, (i0 - 1). repeat split; try assumption; lia.
      * eapply Forall_impl; [exact bounds|].
        intros k (lo & k_idx & ? & ? & ? & ?). exists lo, k_idx.
        repeat split; try assumption; lia.
    + intros k [= <-]. exact lowest.
    + intros _. destruct cs'' as [|y l].
      * exists c'. split; [left; reflexivity|]. simpl in next'.
        rewrite own. f_equal. lia.
      * destruct final as (k & kin & found); [discriminate|].
        exists k. split; [right; exact kin|exact found].
Qed.

Lemma contiguous_ranges node :
  forall i m node' j m',
    contiguous node (i, m) = Ok (node', (j, m')) ->
    Forall range_rule (PostOrderIter node')
    /\ min_child_idx (attrs_of node') = Some i
    /\ idx (attrs_of node') = Some (j - 1)
    /\ j = i + length (PostOrderIter node').
Proof.
  induction node as [a cs IH] using Node_induction. intros i m node' j m' run.
  pose proof (contiguous_renamed _ _ _ _ _ _ run) as [_ _ _ _ counted _ _].
  destruct cs as [|c cs].
  - apply contiguous_leaf_case in run
      as (static & original & has & parses & -> & [= -> ->]).
    split; [|split; [reflexivity|split; [simpl; f_equal; lia|simpl; lia]]].
    repeat constructor. exists i, i, i. simpl. repeat split; lia.
  - apply contiguous_internal_case in run
      as (c' & cs' & i1 & m1 & lo & hi & size & nm & mins & idxs
          & kids & -> & [= -> ->] & reads1 & least & reads2 & most).
    destruct (contiguous_chain _ IH _ _ _ _ _ kids)
      as (ranges & next & bounds & first & final).
    specialize (first c' eq_refl).
    destruct final as (last_child & lin & last_idx); [discriminate|].
    apply mapM_result_Forall2 in reads1, reads2.
    assert (mins_ok : Forall (fun v => i <= v) mins).
    { apply (reads_bounded min_child_idx _ _ _ reads1).
      eapply Forall_impl; [exact bounds|].
      intros k (v & k_idx & has & _ & le & _). eauto. }
    assert (idxs_ok : Forall (fun v => v <= i1 - 1) idxs).
    { apply (reads_bounded idx _ _ _ reads2).
      eapply Forall_impl; [exact bounds|].
      intros k (v & k_idx & _ & has & _ & lt). exists k_idx. split; [exact has|lia]. }
    assert (lo = i) as ->.
    { destruct mins as [|v0 vs]; [inversion reads1|].
      inversion reads1 as [|? ? ? ? read0 _]. simpl in least.
      injection least as <-. unfold getattr in read0. rewrite first in read0.
      injection read0 as <-. apply foldl_min_first.
      inversion mins_ok. assumption. }
    assert (hi = i1 - 1) as ->.
    { destruct (Forall2_In_l _ _ _ _ reads2 lin) as (v & vin & read).
      unfold getattr in read. rewrite last_idx in read. injection read as <-.
      destruct idxs as [|x0 l]; [destruct vin|]. simpl in most. injection most as <-.
      destruct (foldl_max_bounds l x0) as (lower & each & upper).
      assert (foldl Nat.max x0 l <= i1 - 1)
        by (inversion idxs_ok; apply upper; assumption).
      assert (i1 - 1 <= foldl Nat.max x0 l).
      { destruct vin as [->|vin]; [exact lower|].
        rewrite Forall_forall in each. apply each, list_elem_of_In, vin. }
      lia. }
    pose proof (PostOrderIter_nonempty c') as nonempty.
    assert (positive : 0 < i1).
    { rewrite next. cbn [flat_map]. rewrite length_app. lia. }
    split; [|split; [reflexivity|split]].
    + apply PostOrderIter_Forall; [exact ranges|].
      exists i1, i, (i1 - 1). cbn [attrs_of set_contiguous idx min_child_idx max_child_idx].
      split; [reflexivity|]. split; [reflexivity|]. split; [reflexivity|].
      split; [|split; [reflexivity|exact counted]].
      rewrite PostOrderIter_length. lia.
    + simpl. f_equal. lia.
    + rewrite PostOrderIter_length. lia.
Qed.

(** X30.  With contiguous names every node of the hierarchy carries the
    range of the indices below it: the indices of its descendants and its
    own fill the range from [min_child_idx] to [idx], [max_child_idx] is the
    index just before its own (its own at a leaf), and [num_base_features]
    is the number of leaves below. *)
Theorem contiguous_index_ranges (L : Libs) args (data : matrix L) (g : rng L)
  root feature_id_map g' :
  gen_hierarchy L (set_contiguous_node_names true args) data g
    = Ok (root, feature_id_map, g') ->
  Forall range_rule (PostOrderIter root)
  /\ min_child_idx (attrs_of root) = Some 0.
Proof.
  rewrite gen_hierarchy_contiguous.
  destruct (build_hierarchy L args data g) as [[plain g1]|]; [|discriminate].
  destruct (contiguous plain (0, ∅)) as [[root0 [j m']]|] eqn:run; [|discriminate].
  intros [= <- <- <-].
  apply contiguous_ranges in run as (ranges & lowest & _). auto.
Qed.

End contiguous_more.

Section contiguous_examples.

Import simulation.

Lemma feature_id_map_entries_witness :
  exists root feature_id_map g',
    gen_hierarchy example_libs (set_contiguous_node_names true (example_args false))
      [] 0 = Ok (root, feature_id_map, g')
    /\ feature_id_map = list_to_map (map leaf_entry (leaves root))
    /\ NoDup (map fst (map leaf_entry (leaves root)))
    /\ Permutation (map snd (map leaf_entry (leaves root))) (seq 0 4).
Proof.
  apply (feature_id_map_entries example_libs (example_args false) [] 0
           example_libs_laws).
  left. split; [reflexivity|simpl; lia].
Defined.

Lemma contiguous_index_ranges_witness :
  exists root feature_id_map g',
    gen_hierarchy example_libs (set_contiguous_node_names true (example_args false))
      [] 0 = Ok (root, feature_id_map, g')
    /\ Forall range_rule (PostOrderIter root).
Proof.
  eexists. eexists. eexists.
  assert (run : gen_hierarchy example_libs
                  (set_contiguous_node_names true (example_args false)) [] 0
                = Ok (?[root], ?[map], ?[g])) by (vm_compute; reflexivity).
  split; [exact run|].
  exact (proj1 (contiguous_index_ranges example_libs (example_args false) [] 0 _ _ _ run)).
Defined.

End contiguous_examples.
